(** * evomof: the Frame manifold geometry of [src/evomof/core/frame.py]

    A shallow embedding of the [Frame] class (NumPy code) and the proofs of
    its specified properties, followed by further properties of the class
    and of its caller, the driver [ProjectionCMA] of
    [src/evomof/optim/cma/projection.py].

    Numbers.  The code computes in IEEE double precision.  The embedding
    computes in exact real arithmetic ([R] of the Standard Library) and keeps
    one exceptional value of IEEE arithmetic, NaN, because the code produces
    it on inputs it accepts ([0/0] when a row of norm zero is normalised).
    A complex entry is [option (R * R)], a real scalar [option R], [None]
    being NaN.  NaN is absorbing in every arithmetic operation and every
    comparison with NaN is false, as in NumPy.  Rounding, overflow and the
    infinities are not modelled: a division of a non-zero number by zero is
    NaN here too.

    Where double precision departs from the exact computation by more than
    a rounding error, the statements carry the range in which it does not:
    - [np.linalg.norm] squares the entries, so a row of norm above about
      [1.3e154] has norm [inf] and one below about [1.5e-162] has norm [0]
      ([norm_in_range], [norm_bounded]);
    - [renormalise] takes the first entry that is not exactly zero as the
      pivot of a row, so an entry that is zero in the exact computation and
      a rounding residue in the code decides the phase of the row
      ([gauge_margin], [residue_row]);
    - [Re<F_i, G_i>] rounds to [1] for angles below about [1e-8], where
      [log_map] then returns the zero tangent, and [arccos] loses accuracy
      next to [pi] (the bounds on the norm of the tangent in the round trip
      of [log_map] after [retract]).
    Statements without such a range are those of the exact computation. *)

From Stdlib Require Import Reals Lra Lia List Bool Arith String Factorial.
From Stdlib Require Import ZArith DecimalString.
Import ListNotations.
Open Scope R_scope.

(** ** Complex numbers *)

Module Cplx.

Definition C : Type := (R * R)%type.

Definition re (z : C) : R := fst z.
Definition im (z : C) : R := snd z.
Definition of_real (x : R) : C := (x, 0).

Definition add (z w : C) : C := (re z + re w, im z + im w).
Definition sub (z w : C) : C := (re z - re w, im z - im w).
Definition mul (z w : C) : C :=
  (re z * re w - im z * im w, re z * im w + im z * re w).
Definition conj (z : C) : C := (re z, - im z).

(** [|z|^2] and [|z|], the latter as [np.abs] computes it. *)
Definition abs2 (z : C) : R := re z * re z + im z * im z.
Definition abs (z : C) : R := sqrt (abs2 z).

(** [np.exp] on a complex argument. *)
Definition cexp (z : C) : C := (exp (re z) * cos (im z), exp (re z) * sin (im z)).

(** [np.arctan2 y x] on finite arguments (the C library's [atan2]). *)
Definition arctan2 (y x : R) : R :=
  if Rlt_dec 0 x then atan (y / x)
  else if Rlt_dec x 0 then
    (if Rle_dec 0 y then atan (y / x) + PI else atan (y / x) - PI)
  else if Rlt_dec 0 y then PI / 2
  else if Rlt_dec y 0 then - (PI / 2)
  else 0.

(** [np.angle z = arctan2 z.imag z.real]. *)
Definition angle (z : C) : R := arctan2 (im z) (re z).

Definition eqb0 (z : C) : bool :=
  if Req_dec_T (re z) 0 then (if Req_dec_T (im z) 0 then true else false)
  else false.

End Cplx.

Definition C : Type := Cplx.C.

(** ** Numbers with NaN *)

Definition xR : Type := option R.
Definition xC : Type := option C.

Definition lift1 {A B : Type} (f : A -> B) (a : option A) : option B :=
  match a with Some x => Some (f x) | None => None end.

Definition lift2 {A B D : Type} (f : A -> B -> D)
    (a : option A) (b : option B) : option D :=
  match a, b with Some x, Some y => Some (f x y) | _, _ => None end.

Module Np.

(** Real scalars. *)
Definition radd : xR -> xR -> xR := lift2 Rplus.
Definition rsub : xR -> xR -> xR := lift2 Rminus.
Definition rmul : xR -> xR -> xR := lift2 Rmult.
Definition rsqrt : xR -> xR := lift1 sqrt.
Definition rsin : xR -> xR := lift1 sin.
Definition rcos : xR -> xR := lift1 cos.
Definition arccos : xR -> xR := lift1 acos.

(** [x / y]: NaN when the divisor is zero. *)
Definition rdiv (x y : xR) : xR :=
  match x, y with
  | Some a, Some b => if Req_dec_T b 0 then None else Some (a / b)
  | _, _ => None
  end.

(** Comparisons: false as soon as one side is NaN. *)
Definition rlt (x y : xR) : bool :=
  match x, y with
  | Some a, Some b => if Rlt_dec a b then true else false
  | _, _ => false
  end.

(** [np.maximum] and [np.clip] propagate NaN. *)
Definition maximum : xR -> xR -> xR := lift2 Rmax.
Definition clip (x : xR) (lo hi : R) : xR :=
  lift1 (fun a => Rmin (Rmax a lo) hi) x.

(** Complex entries. *)
Definition cadd : xC -> xC -> xC := lift2 Cplx.add.
Definition csub : xC -> xC -> xC := lift2 Cplx.sub.
Definition cmul : xC -> xC -> xC := lift2 Cplx.mul.
Definition conj : xC -> xC := lift1 Cplx.conj.
Definition real : xC -> xR := lift1 Cplx.re.
Definition abs : xC -> xR := lift1 Cplx.abs.
Definition angle : xC -> xR := lift1 Cplx.angle.
Definition exp : xC -> xC := lift1 Cplx.cexp.

(** A real scalar used in complex arithmetic is promoted to [x + 0j]. *)
Definition promote : xR -> xC := lift1 Cplx.of_real.

(** [real * complex], by promotion of the real factor. *)
Definition rcmul (a : xR) (z : xC) : xC := cmul (promote a) z.

(** [complex / real], componentwise; [0/0] is NaN. *)
Definition cdivr (z : xC) (n : xR) : xC :=
  match z, n with
  | Some w, Some b =>
      if Req_dec_T b 0 then None else Some (Cplx.re w / b, Cplx.im w / b)
  | _, _ => None
  end.

(** The truth value of an entry ([z != 0]); NaN is non-zero. *)
Definition nonzero (z : xC) : bool :=
  match z with Some w => negb (Cplx.eqb0 w) | None => true end.

(** [np.sum] over one axis of reals and of complex numbers. *)
Definition rsum (l : list xR) : xR := fold_right radd (Some 0) l.
Definition csum (l : list xC) : xC := fold_right cadd (Some (0, 0)) l.

(** Elementwise binary operation on two rows of one length. *)
Fixpoint map2 {A B D : Type} (f : A -> B -> D) (l : list A) (m : list B)
    : list D :=
  match l, m with
  | a :: l', b :: m' => f a b :: map2 f l' m'
  | _, _ => []
  end.

(** [np.linalg.norm(x, axis=1)] on one row:
    [sqrt(add.reduce((x.conj() * x).real))]. *)
Definition norm (v : list xC) : xR :=
  rsqrt (rsum (map (fun z => real (cmul (conj z) z)) v)).

(** [np.flatnonzero vec]: the indices of the non-zero entries, increasing. *)
Fixpoint flatnonzero_from (k : nat) (v : list xC) : list nat :=
  match v with
  | [] => []
  | z :: v' =>
      if nonzero z then k :: flatnonzero_from (S k) v'
      else flatnonzero_from (S k) v'
  end.
Definition flatnonzero (v : list xC) : list nat := flatnonzero_from 0 v.

End Np.

(** ** Row-wise bodies of the Frame methods *)

(** The constant [-1j]. *)
Definition minus_j : xC := Some (0, -1).

(** [renormalise], first statement, on one row: [vec /= norm]. *)
Definition normalise_row (vec : list xC) : list xC :=
  map (fun z => Np.cdivr z (Np.norm vec)) vec.

(** [renormalise], loop body:
    [nz = flatnonzero(vec); if nz.size: vec *= exp(-1j * angle(vec[nz[0]]))]. *)
Definition gauge_row (vec : list xC) : list xC :=
  match Np.flatnonzero vec with
  | [] => vec
  | k :: _ =>
      let phase := Np.angle (nth k vec None) in
      map (fun z => Np.cmul z (Np.exp (Np.cmul minus_j (Np.promote phase)))) vec
  end.

Definition renormalise_row (vec : list xC) : list xC :=
  gauge_row (normalise_row vec).

(** [renormalise] on the whole matrix: the division of all rows, then the
    loop over the rows. *)
Definition renormalise_rows (m : list (list xC)) : list (list xC) :=
  map gauge_row (map normalise_row m).

(** [gram]: [G = V @ V.conj().T]. *)
Definition dot (u v : list xC) : xC :=
  Np.csum (Np.map2 Np.cmul u v).

Definition gram_rows (m : list (list xC)) : list (list xC) :=
  map (fun u => map (fun v => dot u (map Np.conj v)) m) m.

(** [np.fill_diagonal(g, 1.0)] on a real matrix. *)
Fixpoint fill_row (i : nat) (x : xR) (r : list xR) : list xR :=
  match r, i with
  | [], _ => []
  | _ :: r', O => x :: r'
  | y :: r', S i' => y :: fill_row i' x r'
  end.

Fixpoint fill_diagonal_from (i : nat) (x : xR) (g : list (list xR))
    : list (list xR) :=
  match g with
  | [] => []
  | r :: g' => fill_row i x r :: fill_diagonal_from (S i) x g'
  end.
Definition fill_diagonal (g : list (list xR)) (x : xR) : list (list xR) :=
  fill_diagonal_from 0 x g.

(** [chordal_distances]:
    [g = abs(gram) ** 2; fill_diagonal(g, 1.0);
     dist = 2 * sqrt(maximum(1.0 - g, 0.0))]. *)
Definition chordal_rows (m : list (list xC)) : list (list xR) :=
  let g := map (map (fun z => Np.rmul (Np.abs z) (Np.abs z))) (gram_rows m) in
  let g := fill_diagonal g (Some 1) in
  map (map (fun x =>
    Np.rmul (Some 2) (Np.rsqrt (Np.maximum (Np.rsub (Some 1) x) (Some 0))))) g.

(** [np.real(np.sum(u.conj() * v))] on one row, the real inner product
    [Re <u, v>] that [project] and [log_map] compute. *)
Definition inner_re (u v : list xC) : xR :=
  Np.real (Np.csum (Np.map2 Np.cmul (map Np.conj u) v)).

(** [project], one row:
    [radial = real(sum(arr.conj() * vec)); arr - radial * vec]. *)
Definition project_row (vec arr : list xC) : list xC :=
  let radial := inner_re arr vec in
  Np.map2 Np.csub arr (map (Np.rcmul radial) vec).

Definition project_rows (m a : list (list xC)) : list (list xC) :=
  Np.map2 project_row m a.

(** The threshold [1e-12] of [retract] and [log_map]. *)
Definition tiny : R := 1e-12.

(** [retract], one row, before [Frame.from_array]: the two masked
    assignments of [scale_sin] and [scale_cos], then
    [scale_cos * vec + scale_sin * tang]. *)
Definition scale_sin (norm : xR) : xR :=
  if Np.rlt norm (Some tiny) then Some 1
  else Np.rdiv (Np.rsin norm) norm.

Definition scale_cos (norm : xR) : xR :=
  if Np.rlt norm (Some tiny)
  then Np.rsub (Some 1) (Np.rmul (Some 0.5) (Np.rmul norm norm))
  else Np.rcos norm.

Definition new_vecs_row (vec tang : list xC) : list xC :=
  let norm := Np.norm tang in
  Np.map2 Np.cadd (map (Np.rcmul (scale_cos norm)) vec)
                  (map (Np.rcmul (scale_sin norm)) tang).

Definition new_vecs (m t : list (list xC)) : list (list xC) :=
  Np.map2 new_vecs_row m t.

(** [log_map], one row. *)
Definition log_inner (f g : list xC) : xR :=
  Np.clip (inner_re f g) (-1) 1.

Definition log_scale (theta : xR) : xR :=
  if Np.rlt (Some tiny) theta then Np.rdiv theta (Np.rsin theta) else Some 0.

Definition log_map_row (f g : list xC) : list xC :=
  let inner := log_inner f g in
  let theta := Np.arccos inner in
  let diff := Np.map2 Np.csub g (map (Np.rcmul inner) f) in
  map (Np.rcmul (log_scale theta)) diff.

Definition log_map_rows (m o : list (list xC)) : list (list xC) :=
  Np.map2 log_map_row m o.

(** ** Arrays, the heap and the Frame object *)

Inductive dtype : Type := float64 | complex64 | complex128.

Definition dtype_eqb (a b : dtype) : bool :=
  match a, b with
  | float64, float64 | complex64, complex64 | complex128, complex128 => true
  | _, _ => false
  end.

(** An [np.ndarray]: its shape tuple, its element type and, for a 2-D array,
    its rows.  Entries are kept as complex numbers whatever the element type
    (a real entry has imaginary part zero).  The entries of an array that is
    not 2-D are not modelled: every constructor of [Frame] rejects it. *)
Record ndarray : Type := mkarray {
  shape : list nat;
  dtype_of : dtype;
  data : list (list xC)
}.

Definition ndim (a : ndarray) : nat := List.length (shape a).

Definition iscomplexobj (a : ndarray) : bool :=
  match dtype_of a with float64 => false | _ => true end.

Definition shape_eqb (s t : list nat) : bool :=
  if list_eq_dec Nat.eq_dec s t then true else false.

(** The heap of array objects; a reference is an index. *)
Definition heap : Type := list ndarray.

Definition empty_array : ndarray := mkarray [0%nat] float64 [].

Definition load (h : heap) (l : nat) : ndarray := nth l h empty_array.

Fixpoint store (h : heap) (l : nat) (a : ndarray) : heap :=
  match h, l with
  | [], _ => []
  | _ :: h', O => a :: h'
  | b :: h', S l' => b :: store h' l' a
  end.

(** Outcome of a call: a value or a raised [ValueError]. *)
Inductive result (A : Type) : Type :=
| Ok (a : A)
| ValueError (msg : string).
Arguments Ok {A} a.
Arguments ValueError {A} msg.

Definition M (A : Type) : Type := heap -> result A * heap.

Definition ret {A : Type} (a : A) : M A := fun h => (Ok a, h).
Definition raise {A : Type} (msg : string) : M A := fun h => (ValueError msg, h).
Definition bind {A B : Type} (m : M A) (k : A -> M B) : M B :=
  fun h => match m h with
           | (Ok a, h') => k a h'
           | (ValueError msg, h') => (ValueError msg, h')
           end.
Definition alloc (a : ndarray) : M nat :=
  fun h => (Ok (List.length h), h ++ [a]).
Definition get (l : nat) : M ndarray := fun h => (Ok (load h l), h).
Definition put (l : nat) (a : ndarray) : M unit :=
  fun h => (Ok tt, store h l a).

Notation "x <- m ;; k" := (bind m (fun x => k))
  (at level 61, m at next level, right associativity).
Notation "m ;;; k" := (bind m (fun _ => k))
  (at level 61, right associativity).

(** [arr.copy()]. *)
Definition array_copy (l : nat) : M nat :=
  a <- get l ;; alloc a.

(** [arr.astype(np.complex128, copy=False)]: the array itself when it has
    that element type already, a converted copy otherwise. *)
Definition astype_complex128 (l : nat) : M nat :=
  a <- get l ;;
  if dtype_eqb (dtype_of a) complex128 then ret l
  else alloc (mkarray (shape a) complex128 (data a)).

(** A [Frame] object: its one attribute refers to an array on the heap. *)
Record Frame : Type := mkFrame { vectors : nat }.

Module FrameM.

(** [Frame(vectors)]: the dataclass constructor, that is [__post_init__]
    (the hyphen of the message is written in ASCII). *)
Definition init (v : nat) : M Frame :=
  a <- get v ;;
  if negb (ndim a =? 2)%nat then raise "Frame.vectors must be 2‑D (n, d)"
  else if negb (iscomplexobj a) || negb (dtype_eqb (dtype_of a) complex128)
  then v' <- astype_complex128 v ;; ret (mkFrame v')
  else ret (mkFrame v).

(** [renormalise]: in place on the frame's array. *)
Definition renormalise (self : Frame) : M unit :=
  a <- get (vectors self) ;;
  put (vectors self) (mkarray (shape a) (dtype_of a) (renormalise_rows (data a))).

Definition from_array (arr : nat) (copy : bool) : M Frame :=
  a <- get arr ;;
  if negb (ndim a =? 2)%nat then raise "`arr` must be 2-D (n, d)"
  else
    vecs <- (if copy then array_copy arr else ret arr) ;;
    c <- astype_complex128 vecs ;;
    frame <- init c ;;
    renormalise frame ;;;
    ret frame.

(** [random n d rng]: the generator is the stream of its next draws; the
    first [n * d] fill [standard_normal((n, d))] of the real parts in row
    order, the next [n * d] that of the imaginary parts. *)
Definition draws (rng : nat -> R) (n d : nat) : list (list xC) :=
  map (fun i => map (fun j =>
         Np.cadd (Np.promote (Some (rng (i * d + j)%nat)))
                 (Np.cmul (Some (0, 1))
                          (Np.promote (Some (rng (n * d + i * d + j)%nat)))))
       (seq 0 d)) (seq 0 n).

Definition random (n d : nat) (rng : nat -> R) : M Frame :=
  z <- alloc (mkarray [n; d] complex128 (draws rng n d)) ;;
  from_array z false.

Definition shape_of (self : Frame) (h : heap) : list nat :=
  shape (load h (vectors self)).

(** [gram] and [chordal_distances] read the frame and return a fresh array,
    given here by its value. *)
Definition gram (self : Frame) (h : heap) : list (list xC) :=
  gram_rows (data (load h (vectors self))).

Definition chordal_distances (self : Frame) (h : heap) : list (list xR) :=
  chordal_rows (data (load h (vectors self))).

(** [project]: the result is a new array. *)
Definition project (self : Frame) (arr : nat) : M nat :=
  v <- get (vectors self) ;;
  a <- get arr ;;
  alloc (mkarray (shape v) complex128 (project_rows (data v) (data a))).

Definition retract (self : Frame) (tang : nat) : M Frame :=
  v <- get (vectors self) ;;
  t <- get tang ;;
  if negb (shape_eqb (shape t) (shape v))
  then raise "Tangent array shape mismatch."
  else
    nv <- alloc (mkarray (shape v) complex128 (new_vecs (data v) (data t))) ;;
    from_array nv false.

Definition log_map (self other : Frame) : M nat :=
  v <- get (vectors self) ;;
  o <- get (vectors other) ;;
  if negb (shape_eqb (shape v) (shape o))
  then raise "Frame shapes mismatch"
  else alloc (mkarray (shape v) complex128 (log_map_rows (data v) (data o))).

Definition copy (self : Frame) : M Frame :=
  from_array (vectors self) true.

(** [load_npy path]: [np.load path] yields the array stored in the file. *)
Definition load_npy (file : ndarray) : M Frame :=
  arr <- alloc file ;;
  from_array arr false.

End FrameM.

(** ** Valid frames and the notions the properties are stated with *)

(** The manifold invariants of one row: Euclidean norm one, and the first
    entry that the code takes as non-zero is real and positive. *)
Definition unit_norm (v : list xC) : Prop := Np.norm v = Some 1.

Definition gauge_fixed (v : list xC) : Prop :=
  match Np.flatnonzero v with
  | [] => True
  | k :: _ => exists x : R, nth k v None = Some (x, 0) /\ 0 < x
  end.

Definition valid_row (v : list xC) : Prop := unit_norm v /\ gauge_fixed v.

Definition valid_rows (m : list (list xC)) : Prop := Forall valid_row m.

(** A 2-D array of shape [(n, d)] with [n] rows of [d] entries. *)
Definition well_shaped (a : ndarray) : Prop :=
  exists d : nat,
    shape a = [List.length (data a); d] /\
    Forall (fun r => List.length r = d) (data a).

(** A valid Frame: a live reference to a well-shaped array whose rows
    satisfy the invariants. *)
Definition valid_frame (f : Frame) (h : heap) : Prop :=
  (vectors f < List.length h)%nat /\
  well_shaped (load h (vectors f)) /\
  valid_rows (data (load h (vectors f))).

(** Rows without NaN, seen as rows of complex numbers. *)
Definition fin (w : list C) : list xC := map Some w.

Definition sumsq (w : list C) : R :=
  fold_right (fun z s => Cplx.abs2 z + s) 0 w.

Definition csum_fin (w : list C) : C := fold_right Cplx.add (0, 0) w.

(** [Re <u, v>], the real inner product of two rows of one length. *)
Fixpoint rdot (u v : list C) : R :=
  match u, v with
  | a :: u', b :: v' =>
      Cplx.re a * Cplx.re b + Cplx.im a * Cplx.im b + rdot u' v'
  | _, _ => 0
  end.

(** A row, or a matrix, without NaN. *)
Definition no_nan (v : list xC) : Prop := exists w : list C, v = fin w.
Definition no_nans (m : list (list xC)) : Prop := Forall no_nan m.

(** Finite counterparts of the entry operations of [renormalise]:
    [z * exp(-1j * phi)] and [z / n]. *)
Definition rot (phi : R) (z : C) : C :=
  Cplx.mul z (Cplx.cexp (Cplx.mul (0, -1) (Cplx.of_real phi))).

Definition divr (n : R) (z : C) : C := (Cplx.re z / n, Cplx.im z / n).

Definition scal (a : R) (z : C) : C := Cplx.mul (Cplx.of_real a) z.

(** ** Concrete frames of the examples *)

Definition cx (x y : R) : xC := Some (x, y).

(** The frame with rows [(1,0)] and [(0,1)] in [d = 2]. *)
Definition eye2 : ndarray :=
  mkarray [2; 2]%nat complex128 [[cx 1 0; cx 0 0]; [cx 0 0; cx 1 0]].

(** A row whose Euclidean norm is a number other than zero: it has no NaN
    and at least one non-zero entry. *)
Definition nonzero_norm (v : list xC) : Prop :=
  exists n : R, Np.norm v = Some n /\ n <> 0.

(** The 1 x 2 arrays [[2, 0]] and [[-1, 0]], and the 1 x 1 array [[0]]. *)
Definition row_two : ndarray := mkarray [1; 2]%nat complex128 [[cx 2 0; cx 0 0]].
Definition row_neg : ndarray := mkarray [1; 2]%nat complex128 [[cx (-1) 0; cx 0 0]].
Definition zero11 : ndarray := mkarray [1; 1]%nat complex128 [[cx 0 0]].

(** The public operations that construct a Frame. *)
Inductive constructing_op : Type :=
| op_from_array (arr : nat) (copy : bool)
| op_random (n d : nat) (rng : nat -> R)
| op_retract (self : Frame) (tang : nat)
| op_copy (self : Frame)
| op_load_npy (file : ndarray).

Definition run_op (op : constructing_op) : M Frame :=
  match op with
  | op_from_array arr copy => FrameM.from_array arr copy
  | op_random n d rng => FrameM.random n d rng
  | op_retract self tang => FrameM.retract self tang
  | op_copy self => FrameM.copy self
  | op_load_npy file => FrameM.load_npy file
  end.

(** The array that the operation hands to [from_array], hence to
    [renormalise]. *)
Definition op_input (op : constructing_op) (h : heap) : ndarray :=
  match op with
  | op_from_array arr _ => load h arr
  | op_random n d rng => mkarray [n; d] complex128 (FrameM.draws rng n d)
  | op_retract self tang =>
      let v := load h (vectors self) in
      mkarray (shape v) complex128 (new_vecs (data v) (data (load h tang)))
  | op_copy self => load h (vectors self)
  | op_load_npy file => file
  end.

(** The references the operation is called with are live, and [retract]
    gets a tangent array of the frame's shape. *)
Definition op_well_called (op : constructing_op) (h : heap) : Prop :=
  match op with
  | op_from_array arr _ => (arr < List.length h)%nat
  | op_random _ _ _ => True
  | op_retract self tang =>
      shape (load h tang) = shape (load h (vectors self))
  | op_copy self => (vectors self < List.length h)%nat
  | op_load_npy _ => True
  end.

(** Entry [(i, j)] of a matrix given by its rows. *)
Definition entry {A : Type} (m : list (list A)) (i j : nat) : option A :=
  match nth_error m i with
  | Some r => nth_error r j
  | None => None
  end.

(** The Hermitian product [sum_k u_k conj(v_k)] of two rows without NaN,
    an entry of the Gram matrix. *)
Definition cdot (u v : list C) : C :=
  csum_fin (Np.map2 Cplx.mul u (map Cplx.conj v)).

(** The geodesic step of the specification on one row without NaN:
    with [theta] the norm of [xi], [cos(theta) f + (sin(theta)/theta) xi],
    and the first-order fallback [(1 - theta^2/2) f + xi] below [1e-12]. *)
Definition geodesic_row (f xi : list C) : list C :=
  let theta := sqrt (sumsq xi) in
  if Rlt_dec theta tiny
  then Np.map2 Cplx.add (map (scal (1 - theta * theta / 2)) f) xi
  else Np.map2 Cplx.add (map (scal (cos theta)) f)
                        (map (scal (sin theta / theta)) xi).

(** [log_map] on one pair of rows without NaN, in the words of the
    specification: [inner = clip(Re<f, g>, -1, 1)], [theta = arccos inner],
    [scale = theta / sin theta] above [1e-12] and [0] otherwise,
    [xi = scale (g - inner f)]. *)
Definition log_row (f g : list C) : list C :=
  let inner := Rmin (Rmax (rdot f g) (-1)) 1 in
  let theta := acos inner in
  let scale := if Rlt_dec tiny theta then theta / sin theta else 0 in
  map (scal scale) (Np.map2 Cplx.sub g (map (scal inner) f)).

(** Euclidean distance of two rows of one length. *)
Definition dist (u v : list C) : R := sqrt (sumsq (Np.map2 Cplx.sub u v)).

(** The base frame [[1, 0]] and the tangent [[1j, 0]], which points along
    the phase of the first entry. *)
Definition base10 : ndarray := mkarray [1; 2]%nat complex128 [[cx 1 0; cx 0 0]].
Definition tang_j : ndarray := mkarray [1; 2]%nat complex128 [[cx 0 1; cx 0 0]].

(** The frame [[0, 1]], which is also a tangent array at [[1, 0]]. *)
Definition base01 : ndarray := mkarray [1; 2]%nat complex128 [[cx 0 0; cx 1 0]].

(** ** Files: [save_npy] and [load_npy] by path *)

(** The files of the file system by name; an [.npy] file holds one array.
    Errors of the operating system other than a missing file are not
    modelled. *)
Definition files : Type := string -> option ndarray.

Definition write_file (fs : files) (name : string) (a : ndarray) : files :=
  fun n => if String.eqb n name then Some a else fs n.

(** [s.endswith(suffix)]. *)
Definition endswith (s suffix : string) : bool :=
  (String.length suffix <=? String.length s)%nat &&
  String.eqb
    (substring (String.length s - String.length suffix)
               (String.length suffix) s)
    suffix.

(** [np.save(file, arr)] with a file name: NumPy appends the extension
    [.npy] to a name that does not end with it, and writes the array as it
    is at the time of the call. *)
Definition np_save (file : string) (a : ndarray) (fs : files) : files :=
  write_file fs
    (if endswith file ".npy" then file else (file ++ ".npy")%string) a.

(** [np.load(file)] opens the file of exactly that name; [None] stands for
    [FileNotFoundError]. *)
Definition np_load (file : string) (fs : files) : option ndarray := fs file.

Module FrameIO.

(** [save_npy]: [np.save(path, self.vectors)]. *)
Definition save_npy (self : Frame) (path : string) (h : heap) (fs : files)
    : files :=
  np_save path (load h (vectors self)) fs.

(** Outcome of [load_npy]: the outcome of [from_array] on the loaded array,
    or the [FileNotFoundError] of [np.load]. *)
Inductive outcome : Type :=
| Loaded (r : result Frame) (h : heap)
| FileNotFoundError.

(** [load_npy]: [arr = np.load(path); cls.from_array(arr, copy=False)]. *)
Definition load_npy (path : string) (fs : files) (h : heap) : outcome :=
  match np_load path fs with
  | None => FileNotFoundError
  | Some arr => let (r, h') := FrameM.load_npy arr h in Loaded r h'
  end.

End FrameIO.

(** ** The driver [ProjectionCMA] of [optim/cma/projection.py] *)

(** The exceptions that a call of the driver can end with. *)
Inductive exn : Type :=
| ValueErr (msg : string)
| UnboundLocalError (name : string).

Inductive outcome (A : Type) : Type :=
| Return (a : A)
| Raise (e : exn).
Arguments Return {A} a.
Arguments Raise {A} e.

(** A list comprehension and a [for] loop over a list, in the heap monad. *)
Fixpoint mapM {A B : Type} (f : A -> M B) (l : list A) : M (list B) :=
  match l with
  | [] => ret []
  | x :: l' => y <- f x ;; ys <- mapM f l' ;; ret (y :: ys)
  end.

Fixpoint forM_ {A : Type} (f : A -> M unit) (l : list A) : M unit :=
  match l with
  | [] => ret tt
  | x :: l' => f x ;;; forM_ f l'
  end.

Definition is_nan (x : xR) : bool :=
  match x with None => true | Some _ => false end.

(** [np.argmin] of a list of floats: the index of the first occurrence of
    the least value, a NaN counting as least (the index of the first NaN);
    [ValueError] on an empty list. *)
Fixpoint argmin_from (i best_idx : nat) (best : xR) (l : list xR) : nat :=
  match l with
  | [] => best_idx
  | x :: l' =>
      if is_nan best then best_idx
      else if is_nan x || Np.rlt x best then argmin_from (S i) i x l'
      else argmin_from (S i) best_idx best l'
  end.

Definition argmin (l : list xR) : result nat :=
  match l with
  | [] => ValueError "attempt to get argmin of an empty sequence"
  | x :: l' => Ok (argmin_from 1 0 x l')
  end.

(** [str(z)] of a Python integer and the builtin [abs] on a float. *)
Definition str_of_int (z : Z) : string :=
  NilZero.string_of_int (Z.to_int z).

Definition float_abs : xR -> xR := lift1 Rabs.

(** [str(t)] of a tuple of non-negative integers, such as a shape. *)
Fixpoint str_of_items (l : list nat) : string :=
  match l with
  | [] => ""
  | [a] => str_of_int (Z.of_nat a)
  | a :: l' => str_of_int (Z.of_nat a) ++ ", " ++ str_of_items l'
  end.

Definition str_of_tuple (l : list nat) : string :=
  match l with
  | [a] => "(" ++ str_of_int (Z.of_nat a) ++ ",)"
  | _ => "(" ++ str_of_items l ++ ")"
  end.

Module ProjectionCMA.

Section Driver.

(** What the driver works with and is not part of these sources: the pycma
    optimizer object [self._es] (its state [ES], its methods [ask] and
    [tell]), the candidates it proposes ([realvec]), the conversion
    [realvec_to_frame] of [optim/cma/utils] and the energy function, which
    reads a frame.  They are taken as they come; a call of theirs that
    returns is all that is assumed. *)
Variable ES : Type.
Variable realvec : Type.
Variable es_ask : ES -> list realvec * ES.
Variable es_tell : list realvec -> list xR -> ES -> ES.
Variable realvec_to_frame : realvec -> nat -> nat -> M Frame.
Variable energy_fn : Frame -> heap -> xR.

(** Also given: the constructor [cmaes.CMAEvolutionStrategy(x0, sigma0,
    cma_opts)] of the optimizer, as a function of the start point [x0], and
    the conversion [frame_to_realvec] of [optim/cma/utils], which reads a
    frame. *)
Variable new_es : realvec -> ES.
Variable frame_to_realvec : Frame -> heap -> realvec.

(** [__init__(n, d, sigma0, start_frame, popsize, seed, ...)]: the attributes
    [n], [d] and [_es] of the new object.  [rng] gives the draws of
    [np.random.default_rng(seed)].
    [if start_frame is not None:
         if start_frame.shape != (n, d): raise ValueError(...)
         mean_frame = start_frame.copy()
     else: mean_frame = Frame.random(n, d, rng=rng_gen)
     self._es = cmaes.CMAEvolutionStrategy(frame_to_realvec(mean_frame), ...)]. *)
Definition init (n d : nat) (start_frame : option Frame) (rng : nat -> R)
    : M (nat * nat * ES) :=
  mean_frame <-
    match start_frame with
    | Some sf =>
        fun h =>
          if negb (shape_eqb (FrameM.shape_of sf h) [n; d])
          then raise ("start_frame dimensions mismatch: expected ("
                      ++ str_of_int (Z.of_nat n) ++ ","
                      ++ str_of_int (Z.of_nat d) ++ "), got ("
                      ++ str_of_tuple (FrameM.shape_of sf h) ++ ")") h
          else FrameM.copy sf h
    | None => FrameM.random n d rng
    end ;;
  x0 <- (fun h => (Ok (frame_to_realvec mean_frame h), h)) ;;
  ret (n, d, new_es x0).

(** [step]: one generation.
    [ask = self._es.ask();
     frames = [realvec_to_frame(x, n, d) for x in ask];
     for fr in frames: fr.renormalise();
     energies = [self.energy_fn(fr) for fr in frames];
     self._es.tell(ask, energies);
     best_idx = int(np.argmin(energies));
     return frames[best_idx], float(energies[best_idx])]. *)
Definition step (n d : nat) (es : ES) (h : heap)
    : result (Frame * xR) * ES * heap :=
  let (ask, es1) := es_ask es in
  match mapM (fun x => realvec_to_frame x n d) ask h with
  | (ValueError msg, h1) => (ValueError msg, es1, h1)
  | (Ok frames, h1) =>
      match forM_ FrameM.renormalise frames h1 with
      | (ValueError msg, h2) => (ValueError msg, es1, h2)
      | (Ok _, h2) =>
          let energies := map (fun fr => energy_fn fr h2) frames in
          let es2 := es_tell ask energies es1 in
          match argmin energies with
          | ValueError msg => (ValueError msg, es2, h2)
          | Ok best_idx =>
              (Ok (nth best_idx frames (mkFrame 0),
                   nth best_idx energies None), es2, h2)
          end
      end
  end.

(** The local variables of [run]; [g] is [None] as long as the loop has not
    bound it, [prev_E] is Python's [None] or a float. *)
Record locals : Type := mklocals {
  best_frame : Frame;
  best_E : xR;
  prev_E : option xR;
  g : option nat
}.

(** The loop of [run] over the remaining values of [range(1, max_gen + 1)]:
    [cand, E = self.step();
     if E < best_E: best_frame, best_E = cand.copy(), E;
     if tol > 0 and prev_E is not None and abs(prev_E - E) < tol: break;
     prev_E = E].
    Console output is not modelled. *)
Fixpoint run_loop (n d : nat) (tol : xR) (gens : list nat) (v : locals)
    (es : ES) (h : heap) : result locals * ES * heap :=
  match gens with
  | [] => (Ok v, es, h)
  | g' :: gens' =>
      match step n d es h with
      | (ValueError msg, es1, h1) => (ValueError msg, es1, h1)
      | (Ok (cand, E), es1, h1) =>
          match (if Np.rlt E (best_E v)
                 then c <- FrameM.copy cand ;; ret (c, E)
                 else ret (best_frame v, best_E v)) h1 with
          | (ValueError msg, h2) => (ValueError msg, es1, h2)
          | (Ok (bf, bE), h2) =>
              if Np.rlt (Some 0) tol &&
                 match prev_E v with
                 | Some p => Np.rlt (float_abs (Np.rsub p E)) tol
                 | None => false
                 end
              then (Ok (mklocals bf bE (prev_E v) (Some g')), es1, h2)
              else run_loop n d tol gens'
                     (mklocals bf bE (Some E) (Some g')) es1 h2
          end
      end
  end.

(** [run(max_gen, tol, log_every)]; the generator that [Frame.random]
    creates is given by its draws [rng].
    [if max_gen < 0: raise ValueError(...);
     best_frame = Frame.random(self.n, self.d);
     best_E = self.energy_fn(best_frame); prev_E = None;
     for g in range(1, max_gen + 1): ...;
     print(f"Finished {g} gens ..."); return best_frame]:
    the last [print] reads [g], which is bound by the loop only. *)
Definition run (n d : nat) (max_gen : Z) (tol : xR) (rng : nat -> R)
    (es : ES) (h : heap) : outcome Frame * ES * heap :=
  if (max_gen <? 0)%Z
  then (Raise (ValueErr ("max_gen must be non-negative, got "
                         ++ str_of_int max_gen)), es, h)
  else
    match FrameM.random n d rng h with
    | (ValueError msg, h0) => (Raise (ValueErr msg), es, h0)
    | (Ok frame0, h0) =>
        let v0 := mklocals frame0 (energy_fn frame0 h0) None None in
        match run_loop n d tol (seq 1 (Z.to_nat max_gen)) v0 es h0 with
        | (ValueError msg, es', h') => (Raise (ValueErr msg), es', h')
        | (Ok v, es', h') =>
            match g v with
            | None => (Raise (UnboundLocalError "g"), es', h')
            | Some _ => (Return (best_frame v), es', h')
            end
        end
    end.

End Driver.

Arguments init {ES realvec} new_es frame_to_realvec n d start_frame rng h.
Arguments step {ES realvec} es_ask es_tell realvec_to_frame energy_fn
  n d es h.
Arguments run_loop {ES realvec} es_ask es_tell realvec_to_frame energy_fn
  n d tol gens v es h.
Arguments run {ES realvec} es_ask es_tell realvec_to_frame energy_fn
  n d max_gen tol rng es h.

End ProjectionCMA.

(** The order in which [np.argmin] compares: a NaN is least. *)
Definition least (m x : xR) : Prop :=
  match m, x with
  | Some a, Some b => a <= b
  | Some _, None => False
  | None, _ => True
  end.

(** The frame whose two rows are both [(1, 0)]: its Gram matrix has all
    entries one. *)
Definition twin10 : ndarray :=
  mkarray [2; 2]%nat complex128 [[cx 1 0; cx 0 0]; [cx 1 0; cx 0 0]].


(** [renormalise], the test of the loop body: [nz.size], the number of
    entries of [vec] that NumPy takes as non-zero; the gauge-fix statement
    is executed when it is not zero. *)
Definition nz_size (vec : list xC) : nat :=
  List.length (Np.flatnonzero vec).

(** The gauge-fix statement [vec *= exp(-1j * phase)] for a given phase. *)
Definition gauge_statement (phase : xR) (vec : list xC) : list xC :=
  map (fun z => Np.cmul z (Np.exp (Np.cmul minus_j (Np.promote phase)))) vec.

(** A row of numbers whose squared Euclidean norm lies between [1e-300] and
    [1e300]: in double arithmetic the sum of the squares neither underflows
    to zero nor overflows, so that the norm that [np.linalg.norm] computes
    is a number other than zero, as the norm of the row in exact arithmetic
    is. *)
Definition norm_in_range (v : list xC) : Prop :=
  exists w : list C, v = fin w /\ 1e-300 <= sumsq w <= 1e300.

(** The point reached by the geodesic step from [f] along [xi] is in
    canonical gauge with a margin: after leading coordinates in which [f]
    and [xi] are both zero (so that the step leaves exact zeros there), its
    pivot is real and at least [1e-5]. *)
Definition gauge_margin (f xi : list C) : Prop :=
  exists (zs : list C) (x : R) (rest : list C),
    geodesic_row f xi = zs ++ (x, 0) :: rest /\
    Forall (fun z => z = (0, 0)) zs /\
    Forall (fun z => z = (0, 0)) (firstn (List.length zs) f) /\
    Forall (fun z => z = (0, 0)) (firstn (List.length zs) xi) /\
    1e-5 <= x.


(** A row whose squared norm, if the row holds numbers only, is at most
    [1e300]: the squares that [np.linalg.norm] adds up stay in the range of
    double precision. *)
Definition norm_bounded (v : list xC) : Prop :=
  forall w : list C, v = fin w -> sumsq w <= 1e300.

(** * Properties *)

(** ** Trigonometry of [np.angle] *)

Lemma hyp_pos (x y : R) : x <> 0 \/ y <> 0 -> 0 < x * x + y * y.
Proof. intros [H|H]; nra. Qed.

Lemma sqrt_ratio (x y : R) :
  x <> 0 -> sqrt (1 + (y / x)²) = sqrt (x * x + y * y) / Rabs x.
Proof.
  intros Hx.
  assert (Hax : 0 < Rabs x) by (apply Rabs_pos_lt; exact Hx).
  replace (1 + (y / x)²) with ((x * x + y * y) / (Rabs x * Rabs x)).
  - rewrite sqrt_div; [| nra | nra].
    rewrite sqrt_square; lra.
  - unfold Rsqr. replace (Rabs x * Rabs x) with (x * x).
    + field. exact Hx.
    + destruct (Rcase_abs x) as [Hn|Hp].
      * rewrite (Rabs_left _ Hn). ring.
      * rewrite (Rabs_right _ Hp). ring.
Qed.

Lemma cos_arctan2 (x y : R) :
  x <> 0 \/ y <> 0 -> cos (Cplx.arctan2 y x) = x / sqrt (x * x + y * y).
Proof.
  intros Hnz. pose proof (hyp_pos x y Hnz) as Hpos.
  assert (Hr : 0 < sqrt (x * x + y * y)) by (apply sqrt_lt_R0; exact Hpos).
  unfold Cplx.arctan2.
  destruct (Rlt_dec 0 x) as [Hx|Hx].
  - rewrite cos_atan, sqrt_ratio by lra. rewrite Rabs_right by lra.
    field. lra.
  - destruct (Rlt_dec x 0) as [Hx'|Hx'].
    + destruct (Rle_dec 0 y).
      * rewrite neg_cos, cos_atan, sqrt_ratio by lra. rewrite Rabs_left by lra.
        field. lra.
      * unfold Rminus. rewrite <- (cos_period _ 1).
        replace (atan (y / x) + - PI + 2 * INR 1 * PI) with (atan (y / x) + PI)
          by (simpl; ring).
        rewrite neg_cos, cos_atan, sqrt_ratio by lra. rewrite Rabs_left by lra.
        field. lra.
    + assert (x = 0) by lra. subst x.
      unfold Rdiv. rewrite Rmult_0_l.
      destruct (Rlt_dec 0 y); [apply cos_PI2 |].
      destruct (Rlt_dec y 0); [rewrite cos_neg; apply cos_PI2 |].
      exfalso. destruct Hnz; lra.
Qed.

Lemma sin_arctan2 (x y : R) :
  x <> 0 \/ y <> 0 -> sin (Cplx.arctan2 y x) = y / sqrt (x * x + y * y).
Proof.
  intros Hnz. pose proof (hyp_pos x y Hnz) as Hpos.
  assert (Hr : 0 < sqrt (x * x + y * y)) by (apply sqrt_lt_R0; exact Hpos).
  unfold Cplx.arctan2.
  destruct (Rlt_dec 0 x) as [Hx|Hx].
  - rewrite sin_atan, sqrt_ratio by lra. rewrite Rabs_right by lra.
    field. lra.
  - destruct (Rlt_dec x 0) as [Hx'|Hx'].
    + destruct (Rle_dec 0 y).
      * rewrite neg_sin, sin_atan, sqrt_ratio by lra. rewrite Rabs_left by lra.
        field. lra.
      * unfold Rminus. rewrite <- (sin_period _ 1).
        replace (atan (y / x) + - PI + 2 * INR 1 * PI) with (atan (y / x) + PI)
          by (simpl; ring).
        rewrite neg_sin, sin_atan, sqrt_ratio by lra. rewrite Rabs_left by lra.
        field. lra.
    + assert (x = 0) by lra. subst x.
      replace (0 * 0 + y * y) with (y * y) by ring.
      destruct (Rlt_dec 0 y).
      { rewrite sin_PI2, sqrt_square by lra. field. lra. }
      destruct (Rlt_dec y 0).
      { rewrite sin_neg, sin_PI2. replace (y * y) with ((- y) * (- y)) by ring.
        rewrite sqrt_square by lra. field. lra. }
      exfalso. destruct Hnz; lra.
Qed.

Lemma arctan2_pos_real (x : R) : 0 < x -> Cplx.arctan2 0 x = 0.
Proof.
  intros Hx. unfold Cplx.arctan2. destruct (Rlt_dec 0 x); [| lra].
  unfold Rdiv. rewrite Rmult_0_l. apply atan_0.
Qed.

(** ** Rows without NaN *)

Lemma map_fin {f : C -> C} (w : list C) :
  map (lift1 f) (fin w) = fin (map f w).
Proof. unfold fin. rewrite !map_map. reflexivity. Qed.

Lemma map2_fin (f : C -> C -> C) (u v : list C) :
  Np.map2 (lift2 f) (fin u) (fin v) = fin (Np.map2 f u v).
Proof.
  revert v. induction u as [|a u IH]; intros [|b v]; simpl; try reflexivity.
  f_equal. apply IH.
Qed.

Lemma csum_fin_eq (w : list C) : Np.csum (fin w) = Some (csum_fin w).
Proof.
  induction w as [|z w IH]; [reflexivity |].
  unfold Np.csum, fin in *. simpl. rewrite IH. reflexivity.
Qed.

Lemma sumsq_fin (w : list C) :
  Np.rsum (map (fun z => Np.real (Np.cmul (Np.conj z) z)) (fin w))
  = Some (sumsq w).
Proof.
  induction w as [|[a b] w IH]; [reflexivity |].
  unfold Np.rsum, fin in *. simpl. rewrite IH. simpl.
  unfold Cplx.abs2, Cplx.re, Cplx.im. simpl. f_equal. ring.
Qed.

Lemma norm_fin (w : list C) : Np.norm (fin w) = Some (sqrt (sumsq w)).
Proof. unfold Np.norm. rewrite sumsq_fin. reflexivity. Qed.

Lemma sumsq_nonneg (w : list C) : 0 <= sumsq w.
Proof.
  induction w as [|[a b] w IH]; simpl; [lra |].
  unfold Cplx.abs2. simpl. nra.
Qed.

Lemma rsum_Some (l : list xR) (s : R) :
  Np.rsum l = Some s -> Forall (fun x => x <> None) l.
Proof.
  revert s. induction l as [|x l IH]; intros s H; constructor.
  - destruct x; [discriminate | discriminate H].
  - unfold Np.rsum in H. simpl in H. destruct x; [| discriminate H].
    destruct (fold_right Np.radd (Some 0) l) eqn:E; [| discriminate H].
    eapply IH. exact E.
Qed.

Lemma all_Some_fin (v : list xC) :
  Forall (fun z => z <> None) v -> exists w, v = fin w.
Proof.
  induction 1 as [|z v Hz _ [w Hw]].
  - exists []. reflexivity.
  - destruct z as [c|]; [| congruence]. exists (c :: w). simpl. now rewrite Hw.
Qed.

Lemma norm_Some (v : list xC) (n : R) :
  Np.norm v = Some n -> exists w, v = fin w /\ n = sqrt (sumsq w).
Proof.
  intros H. unfold Np.norm in H.
  destruct (Np.rsum _) as [s|] eqn:E; [| discriminate H].
  pose proof (rsum_Some _ _ E) as E'. rewrite Forall_map in E'.
  destruct (all_Some_fin v) as [w Hw].
  - eapply Forall_impl; [| exact E'].
    intros [c|] Hc; [discriminate | exfalso; apply Hc; reflexivity].
  - exists w. split; [exact Hw |]. subst v.
    rewrite sumsq_fin in E. simpl in H. congruence.
Qed.

Lemma eqb0_true (z : C) : Cplx.eqb0 z = true <-> z = (0, 0).
Proof.
  destruct z as [a b]. unfold Cplx.eqb0. simpl.
  destruct (Req_dec_T a 0), (Req_dec_T b 0); split; intros H;
    try discriminate; try (inversion H; congruence); subst; reflexivity.
Qed.

Lemma eqb0_false (z : C) : Cplx.eqb0 z = false <-> z <> (0, 0).
Proof.
  rewrite <- eqb0_true. destruct (Cplx.eqb0 z); split; congruence.
Qed.

Lemma abs2_pos (z : C) : z <> (0, 0) -> 0 < Cplx.abs2 z.
Proof.
  destruct z as [a b]. intros H. unfold Cplx.abs2. simpl.
  apply hyp_pos. destruct (Req_dec_T a 0), (Req_dec_T b 0); subst; auto.
Qed.

Lemma abs2_nonneg (z : C) : 0 <= Cplx.abs2 z.
Proof. destruct z as [a b]. unfold Cplx.abs2. simpl. nra. Qed.

Lemma abs2_zero (z : C) : Cplx.abs2 z = 0 -> z = (0, 0).
Proof.
  destruct z as [a b]. unfold Cplx.abs2. simpl. intros H.
  assert (a = 0) by nra. assert (b = 0) by nra. subst. reflexivity.
Qed.

(** A row is all zero, or splits at its first non-zero entry. *)
Lemma split_first_nonzero (w : list C) :
  Forall (fun z => z = (0, 0)) w \/
  exists zs p rest, w = zs ++ p :: rest /\
    Forall (fun z => z = (0, 0)) zs /\ p <> (0, 0).
Proof.
  induction w as [|z w IH].
  - left. constructor.
  - destruct (Cplx.eqb0 z) eqn:E.
    + apply eqb0_true in E. destruct IH as [IH | (zs & p & rest & -> & Hz & Hp)].
      * left. constructor; assumption.
      * right. exists (z :: zs), p, rest. repeat split; auto.
    + apply eqb0_false in E. right. exists [], z, w. repeat split; auto.
Qed.

Lemma sumsq_app (u v : list C) : sumsq (u ++ v) = sumsq u + sumsq v.
Proof. induction u as [|z u IH]; simpl; [ring | rewrite IH; ring]. Qed.

Lemma sumsq_zeros (w : list C) :
  Forall (fun z => z = (0, 0)) w -> sumsq w = 0.
Proof.
  induction 1 as [|z w -> _ IH]; simpl; [reflexivity |].
  rewrite IH. unfold Cplx.abs2. simpl. ring.
Qed.

Lemma sumsq_zero_inv (w : list C) :
  sumsq w = 0 -> Forall (fun z => z = (0, 0)) w.
Proof.
  induction w as [|z w IH]; intros H; constructor; simpl in H;
    pose proof (abs2_nonneg z); pose proof (sumsq_nonneg w).
  - apply abs2_zero. lra.
  - apply IH. lra.
Qed.

Lemma flatnonzero_split (k : nat) (zs : list C) (p : C) (rest : list C) :
  Forall (fun z => z = (0, 0)) zs -> p <> (0, 0) ->
  Np.flatnonzero_from k (fin (zs ++ p :: rest))
  = (k + List.length zs)%nat
    :: Np.flatnonzero_from (S (k + List.length zs)) (fin rest).
Proof.
  intros Hz Hp. revert k. induction Hz as [|z zs -> _ IH]; intros k; simpl.
  - apply eqb0_false in Hp. rewrite Hp. simpl. now rewrite Nat.add_0_r.
  - replace (Cplx.eqb0 (0, 0)) with true by (symmetry; now apply eqb0_true).
    simpl. unfold fin in IH. rewrite IH. f_equal; [lia | f_equal; lia].
Qed.

Lemma flatnonzero_zeros (k : nat) (w : list C) :
  Forall (fun z => z = (0, 0)) w -> Np.flatnonzero_from k (fin w) = [].
Proof.
  intros Hz. revert k. induction Hz as [|z zs -> _ IH]; intros k; simpl.
  - reflexivity.
  - replace (Cplx.eqb0 (0, 0)) with true by (symmetry; now apply eqb0_true).
    simpl. apply IH.
Qed.

Lemma nth_split (zs : list C) (p : C) (rest : list C) :
  nth (List.length zs) (fin (zs ++ p :: rest)) None = Some p.
Proof.
  unfold fin. rewrite map_app. rewrite app_nth2; rewrite length_map; [| lia].
  rewrite Nat.sub_diag. reflexivity.
Qed.

(** ** The two steps of [renormalise] on a row without NaN *)

Lemma rot_eq (phi : R) (z : C) :
  rot phi z = (Cplx.re z * cos phi + Cplx.im z * sin phi,
               Cplx.im z * cos phi - Cplx.re z * sin phi).
Proof.
  destruct z as [a b]. unfold rot, Cplx.mul, Cplx.cexp, Cplx.of_real. simpl.
  replace (0 * phi - -1 * 0) with 0 by ring.
  replace (0 * 0 + -1 * phi) with (- phi) by ring.
  rewrite exp_0, cos_neg, sin_neg. f_equal; ring.
Qed.

Lemma rot_zero (phi : R) : rot phi (0, 0) = (0, 0).
Proof. rewrite rot_eq. simpl. f_equal; ring. Qed.

Lemma rot_0 (z : C) : rot 0 z = z.
Proof.
  rewrite rot_eq, cos_0, sin_0. destruct z as [a b]. simpl. f_equal; ring.
Qed.

Lemma rot_abs2 (phi : R) (z : C) : Cplx.abs2 (rot phi z) = Cplx.abs2 z.
Proof.
  rewrite rot_eq. destruct z as [a b]. unfold Cplx.abs2. simpl.
  pose proof (sin2_cos2 phi) as H. unfold Rsqr in H. nra.
Qed.

Lemma rot_pivot (p : C) :
  p <> (0, 0) -> rot (Cplx.angle p) p = (sqrt (Cplx.abs2 p), 0).
Proof.
  intros Hp. pose proof (abs2_pos p Hp) as Hpos.
  rewrite rot_eq. destruct p as [a b]. unfold Cplx.angle, Cplx.abs2 in *.
  simpl in *.
  assert (Hnz : a <> 0 \/ b <> 0).
  { destruct (Req_dec_T a 0), (Req_dec_T b 0); subst; auto. }
  rewrite (cos_arctan2 a b Hnz), (sin_arctan2 a b Hnz).
  assert (Hr : 0 < sqrt (a * a + b * b)) by (apply sqrt_lt_R0; exact Hpos).
  assert (Hrr : sqrt (a * a + b * b) * sqrt (a * a + b * b) = a * a + b * b)
    by (apply sqrt_sqrt; lra).
  set (r := sqrt (a * a + b * b)) in *.
  f_equal.
  - replace (a * (a / r) + b * (b / r)) with ((a * a + b * b) / r)
      by (field; lra).
    rewrite <- Hrr. field. lra.
  - field. lra.
Qed.

Lemma sumsq_rot (phi : R) (w : list C) : sumsq (map (rot phi) w) = sumsq w.
Proof.
  induction w as [|z w IH]; simpl; [reflexivity |].
  now rewrite rot_abs2, IH.
Qed.

Lemma divr_1 (z : C) : divr 1 z = z.
Proof. destruct z as [a b]. unfold divr. simpl. f_equal; field. Qed.

Lemma divr_zero (n : R) : divr n (0, 0) = (0, 0).
Proof. unfold divr. simpl. f_equal; unfold Rdiv; ring. Qed.

Lemma divr_abs2 (n : R) (z : C) :
  n <> 0 -> Cplx.abs2 (divr n z) = Cplx.abs2 z / (n * n).
Proof.
  intros Hn. destruct z as [a b]. unfold divr, Cplx.abs2. simpl. field. exact Hn.
Qed.

Lemma divr_nonzero (n : R) (z : C) :
  n <> 0 -> z <> (0, 0) -> divr n z <> (0, 0).
Proof.
  intros Hn Hz E. pose proof (abs2_pos z Hz) as Hp.
  assert (H : Cplx.abs2 (divr n z) = 0) by (rewrite E; unfold Cplx.abs2; simpl; ring).
  rewrite divr_abs2 in H by exact Hn.
  assert (0 < n * n) by nra.
  assert (0 < Cplx.abs2 z / (n * n)) by (apply Rdiv_lt_0_compat; assumption).
  lra.
Qed.

Lemma sumsq_divr (n : R) (w : list C) :
  n <> 0 -> sumsq (map (divr n) w) = sumsq w / (n * n).
Proof.
  intros Hn. induction w as [|z w IH]; simpl.
  - field. exact Hn.
  - rewrite divr_abs2, IH by exact Hn. field. exact Hn.
Qed.

Lemma normalise_fin (w : list C) :
  sumsq w <> 0 ->
  normalise_row (fin w) = fin (map (divr (sqrt (sumsq w))) w).
Proof.
  intros Hs. unfold normalise_row. rewrite norm_fin. unfold fin.
  rewrite !map_map. apply map_ext. intros z. simpl.
  destruct (Req_dec_T (sqrt (sumsq w)) 0) as [E|E]; [| reflexivity].
  apply sqrt_eq_0 in E; [contradiction | apply sumsq_nonneg].
Qed.

Lemma normalise_zero (w : list C) :
  sumsq w = 0 -> normalise_row (fin w) = map (fun _ => None) w.
Proof.
  intros Hs. unfold normalise_row. rewrite norm_fin, Hs, sqrt_0. unfold fin.
  rewrite map_map. apply map_ext. intros z. simpl.
  destruct (Req_dec_T 0 0); [reflexivity | contradiction].
Qed.


Lemma gauge_fin (zs : list C) (p : C) (rest : list C) :
  Forall (fun z => z = (0, 0)) zs -> p <> (0, 0) ->
  gauge_row (fin (zs ++ p :: rest))
  = fin (map (rot (Cplx.angle p)) (zs ++ p :: rest)).
Proof.
  intros Hz Hp. unfold gauge_row, Np.flatnonzero.
  rewrite (flatnonzero_split 0 zs p rest Hz Hp). simpl.
  rewrite nth_split. unfold fin. rewrite !map_map. apply map_ext.
  intros z. reflexivity.
Qed.

Lemma map_zeros (f : C -> C) (zs : list C) :
  f (0, 0) = (0, 0) ->
  Forall (fun z => z = (0, 0)) zs -> Forall (fun z => z = (0, 0)) (map f zs).
Proof.
  intros Hf Hz. induction Hz as [|z zs -> _ IH]; simpl; constructor; auto.
Qed.

(** ** [renormalise] establishes and preserves the invariants *)

Lemma valid_row_fin (v : list xC) :
  unit_norm v -> exists w, v = fin w /\ sumsq w = 1.
Proof.
  intros H. destruct (norm_Some v 1 H) as (w & -> & Hs).
  exists w. split; [reflexivity |].
  pose proof (sumsq_nonneg w).
  rewrite <- (sqrt_sqrt (sumsq w)) by assumption. rewrite <- Hs. ring.
Qed.

Lemma renormalise_row_valid (w : list C) :
  sumsq w <> 0 -> valid_row (renormalise_row (fin w)).
Proof.
  intros Hs. unfold renormalise_row. rewrite normalise_fin by exact Hs.
  pose proof (sumsq_nonneg w) as Hnn.
  assert (Hn : 0 < sqrt (sumsq w)) by (apply sqrt_lt_R0; lra).
  set (n := sqrt (sumsq w)) in *.
  assert (Hnn' : n * n = sumsq w) by (apply sqrt_sqrt; exact Hnn).
  destruct (split_first_nonzero w) as [Hz | (zs & p & rest & Hw & Hz & Hp)].
  { apply sumsq_zeros in Hz. contradiction. }
  assert (Hdn : n <> 0) by lra.
  assert (Hw' : map (divr n) w
                = map (divr n) zs ++ divr n p :: map (divr n) rest).
  { rewrite Hw, map_app. reflexivity. }
  assert (Hz' : Forall (fun z => z = (0, 0)) (map (divr n) zs))
    by (apply map_zeros; [apply divr_zero | exact Hz]).
  assert (Hp' : divr n p <> (0, 0)) by (apply divr_nonzero; assumption).
  rewrite Hw'. rewrite gauge_fin by assumption.
  set (phi := Cplx.angle (divr n p)).
  rewrite map_app. simpl.
  split.
  - unfold unit_norm. rewrite norm_fin. f_equal.
    rewrite <- map_cons, <- map_app, sumsq_rot, <- Hw', sumsq_divr by exact Hdn.
    rewrite <- Hnn'. replace (n * n / (n * n)) with 1 by (field; exact Hdn).
    apply sqrt_1.
  - unfold gauge_fixed, Np.flatnonzero.
    assert (Hzr : Forall (fun z => z = (0, 0)) (map (rot phi) (map (divr n) zs)))
      by (apply map_zeros; [apply rot_zero | exact Hz']).
    assert (Hpr : rot phi (divr n p) = (sqrt (Cplx.abs2 (divr n p)), 0))
      by (apply rot_pivot; exact Hp').
    assert (Hpos : 0 < sqrt (Cplx.abs2 (divr n p)))
      by (apply sqrt_lt_R0, abs2_pos; exact Hp').
    rewrite flatnonzero_split; [| exact Hzr | rewrite Hpr; intros E; inversion E; lra].
    simpl. rewrite nth_split.
    exists (sqrt (Cplx.abs2 (divr n p))). split; [now rewrite Hpr | exact Hpos].
Qed.

Lemma renormalise_row_fixed (v : list xC) :
  valid_row v -> renormalise_row v = v.
Proof.
  intros [Hu Hg]. destruct (valid_row_fin v Hu) as (w & -> & Hs).
  unfold renormalise_row. rewrite normalise_fin by lra.
  rewrite Hs, sqrt_1.
  assert (Hid : map (divr 1) w = w).
  { rewrite <- (map_id w) at 2. apply map_ext. apply divr_1. }
  rewrite Hid.
  destruct (split_first_nonzero w) as [Hz | (zs & p & rest & -> & Hz & Hp)].
  { apply sumsq_zeros in Hz. lra. }
  rewrite gauge_fin by assumption.
  unfold gauge_fixed, Np.flatnonzero in Hg.
  rewrite (flatnonzero_split 0 zs p rest Hz Hp) in Hg. simpl in Hg.
  rewrite nth_split in Hg. destruct Hg as (x & Hx & Hpos).
  injection Hx as ->. unfold Cplx.angle. simpl.
  rewrite arctan2_pos_real by exact Hpos.
  f_equal. rewrite <- (map_id (zs ++ (x, 0) :: rest)) at 2.
  apply map_ext. apply rot_0.
Qed.

Lemma gauge_nan (v : list xC) :
  gauge_row (map (fun _ => None) v) = map (fun _ => None) v.
Proof.
  destruct v as [|z v]; [reflexivity |].
  unfold gauge_row, Np.flatnonzero. simpl. f_equal.
  rewrite map_map. reflexivity.
Qed.

Lemma renormalise_row_zero (w : list C) :
  sumsq w = 0 -> renormalise_row (fin w) = map (fun _ => None) w.
Proof.
  intros Hs. unfold renormalise_row. rewrite normalise_zero by exact Hs.
  replace (map (fun _ : C => @None C) w)
    with (map (fun _ : xC => @None C) (fin w))
    by (unfold fin; now rewrite map_map).
  apply gauge_nan.
Qed.

Lemma renormalise_rows_fixed (m : list (list xC)) :
  valid_rows m -> renormalise_rows m = m.
Proof.
  intros H. unfold renormalise_rows. rewrite map_map.
  rewrite <- (map_id m) at 2. apply map_ext_in. intros v Hv.
  apply renormalise_row_fixed. unfold valid_rows in H.
  rewrite Forall_forall in H. now apply H.
Qed.

(** ** The heap *)

Lemma length_store (h : heap) (l : nat) (a : ndarray) :
  List.length (store h l a) = List.length h.
Proof.
  revert l. induction h as [|b h IH]; intros [|l]; simpl; auto.
Qed.

Lemma load_store_same (h : heap) (l : nat) (a : ndarray) :
  (l < List.length h)%nat -> load (store h l a) l = a.
Proof.
  revert l. induction h as [|b h IH]; intros [|l] H; simpl in *; try lia.
  - reflexivity.
  - apply IH. lia.
Qed.

Lemma load_store_other (h : heap) (l l' : nat) (a : ndarray) :
  l <> l' -> load (store h l a) l' = load h l'.
Proof.
  revert l l'. induction h as [|b h IH]; intros [|l] [|l'] H; simpl;
    try reflexivity; try congruence.
  apply IH. congruence.
Qed.

Lemma load_app_old (h t : heap) (l : nat) :
  (l < List.length h)%nat -> load (h ++ t) l = load h l.
Proof. intros H. unfold load. now rewrite app_nth1. Qed.

Lemma load_app_new (h : heap) (a : ndarray) :
  load (h ++ [a]) (List.length h) = a.
Proof.
  unfold load. rewrite app_nth2 by lia. now rewrite Nat.sub_diag.
Qed.

Lemma dtype_eqb_eq (a b : dtype) : dtype_eqb a b = true <-> a = b.
Proof. destruct a, b; simpl; split; congruence. Qed.

Lemma shape_eqb_eq (s t : list nat) : shape_eqb s t = true <-> s = t.
Proof.
  unfold shape_eqb. destruct (list_eq_dec Nat.eq_dec s t); split; congruence.
Qed.

(** What [from_array] does on a 2-D array: it returns normally, the frame's
    array carries the renormalised rows of the argument, and no other live
    array changes (the argument itself changes only when [copy] is off). *)
Lemma from_array_ok (arr : nat) (copy : bool) (h : heap) :
  (arr < List.length h)%nat -> ndim (load h arr) = 2%nat ->
  exists (f : Frame) (h' : heap),
    FrameM.from_array arr copy h = (Ok f, h') /\
    (vectors f < List.length h')%nat /\
    (List.length h <= List.length h')%nat /\
    shape (load h' (vectors f)) = shape (load h arr) /\
    dtype_of (load h' (vectors f)) = complex128 /\
    data (load h' (vectors f)) = renormalise_rows (data (load h arr)) /\
    (forall l, (l < List.length h)%nat -> l <> vectors f ->
               load h' l = load h l) /\
    (copy = true -> (List.length h <= vectors f)%nat).
Proof.
  intros Hl Hnd. unfold FrameM.from_array, bind, get. rewrite Hnd. simpl.
  destruct copy; simpl.
  - (* copy *)
    unfold array_copy, bind, get, alloc. simpl.
    unfold astype_complex128, bind, get. rewrite load_app_new.
    destruct (dtype_eqb (dtype_of (load h arr)) complex128) eqn:Ed; simpl.
    + unfold FrameM.init, bind, get. rewrite load_app_new, Hnd. simpl.
      rewrite Ed. simpl.
      replace (iscomplexobj (load h arr)) with true
        by (unfold iscomplexobj; apply dtype_eqb_eq in Ed; now rewrite Ed).
      simpl. unfold FrameM.renormalise, bind, get, put. simpl.
      rewrite load_app_new.
      eexists _, _. split; [reflexivity |]. simpl.
      rewrite length_store, length_app. simpl.
      rewrite load_store_same by (rewrite length_app; simpl; lia). simpl.
      apply dtype_eqb_eq in Ed.
      repeat split; try lia; try assumption.
      intros l Hlt Hne. rewrite load_store_other by lia.
      now apply load_app_old.
    + unfold alloc. simpl.
      unfold FrameM.init, bind, get. rewrite load_app_new. simpl.
      unfold ndim in *. simpl. rewrite Hnd. simpl.
      unfold FrameM.renormalise, bind, get, put. simpl.
      rewrite load_app_new. simpl.
      eexists _, _. split; [reflexivity |]. simpl.
      rewrite length_store, !length_app. simpl.
      rewrite load_store_same by (rewrite !length_app; simpl; lia). simpl.
      repeat split; try lia.
      intros l Hlt Hne. rewrite load_store_other by lia.
      rewrite <- app_assoc. now apply load_app_old.
  - (* no copy *)
    unfold ret, astype_complex128, bind, get.
    destruct (dtype_eqb (dtype_of (load h arr)) complex128) eqn:Ed; simpl.
    + unfold FrameM.init, bind, get. rewrite Hnd. simpl. rewrite Ed. simpl.
      replace (iscomplexobj (load h arr)) with true
        by (unfold iscomplexobj; apply dtype_eqb_eq in Ed; now rewrite Ed).
      simpl. unfold FrameM.renormalise, bind, get, put. simpl.
      eexists _, _. split; [reflexivity |]. simpl.
      rewrite length_store. rewrite load_store_same by exact Hl. simpl.
      apply dtype_eqb_eq in Ed.
      repeat split; try lia; try assumption; try discriminate.
      intros l Hlt Hne. apply load_store_other. congruence.
    + unfold alloc. simpl.
      unfold FrameM.init, bind, get. rewrite load_app_new. simpl.
      unfold ndim in *. simpl. rewrite Hnd. simpl.
      unfold FrameM.renormalise, bind, get, put. simpl.
      rewrite load_app_new. simpl.
      eexists _, _. split; [reflexivity |]. simpl.
      rewrite length_store, !length_app. simpl.
      rewrite load_store_same by (rewrite !length_app; simpl; lia). simpl.
      repeat split; try lia; try discriminate.
      intros l Hlt Hne. rewrite load_store_other by lia.
      now apply load_app_old.
Qed.

Lemma from_array_error (arr : nat) (copy : bool) (h : heap) :
  ndim (load h arr) <> 2%nat ->
  FrameM.from_array arr copy h = (ValueError "`arr` must be 2-D (n, d)", h).
Proof.
  intros Hnd. unfold FrameM.from_array, bind, get.
  apply Nat.eqb_neq in Hnd. rewrite Hnd. reflexivity.
Qed.

Lemma store_load_id (h : heap) (l : nat) : store h l (load h l) = h.
Proof.
  revert l. induction h as [|b h IH]; intros [|l]; simpl; try reflexivity.
  f_equal. apply IH.
Qed.



Lemma map_const_repeat {A B : Type} (b : B) (l : list A) :
  map (fun _ => b) l = repeat b (List.length l).
Proof. induction l as [|a l IH]; simpl; [reflexivity | now rewrite IH]. Qed.





(** C5. [renormalise] is idempotent: called on a valid Frame (every row of
    unit norm and gauge-fixed) it returns normally and leaves the heap,
    hence the frame's matrix of vectors, exactly as it was. *)
Theorem renormalise_idempotent (f : Frame) (h : heap) :
  valid_frame f h -> FrameM.renormalise f h = (Ok tt, h).
Proof.
  intros (Hl & _ & Hv). unfold FrameM.renormalise, bind, get, put.
  rewrite (renormalise_rows_fixed _ Hv).
  destruct (load h (vectors f)) as [s t d] eqn:E. simpl.
  rewrite <- E. now rewrite store_load_id.
Qed.

(** ** Recognising a valid row *)

Lemma valid_row_intro (zs : list C) (x : R) (rest : list C) :
  Forall (fun z => z = (0, 0)) zs -> 0 < x ->
  sumsq (zs ++ (x, 0) :: rest) = 1 ->
  valid_row (fin (zs ++ (x, 0) :: rest)).
Proof.
  intros Hz Hx Hs. split.
  - unfold unit_norm. now rewrite norm_fin, Hs, sqrt_1.
  - unfold gauge_fixed, Np.flatnonzero.
    rewrite flatnonzero_split;
      [| exact Hz | intros E; inversion E; lra].
    simpl. rewrite nth_split. exists x. auto.
Qed.

Lemma eye2_valid : valid_rows (data eye2).
Proof.
  constructor; [| constructor; [| constructor]].
  - apply (valid_row_intro [] 1 [(0, 0)]); [constructor | lra |].
    unfold sumsq, Cplx.abs2. simpl. ring.
  - apply (valid_row_intro [(0, 0)] 1 []); [repeat constructor | lra |].
    unfold sumsq, Cplx.abs2. simpl. ring.
Qed.

Lemma eye2_frame_valid : valid_frame (mkFrame 0) [eye2].
Proof.
  split; [simpl; lia |]. split; [| exact eye2_valid].
  exists 2%nat. split; [reflexivity |]. repeat constructor.
Qed.

(** ** Construction *)

Lemma length_gauge_row (v : list xC) :
  List.length (gauge_row v) = List.length v.
Proof.
  unfold gauge_row. destruct (Np.flatnonzero v); [reflexivity |].
  apply length_map.
Qed.

Lemma length_renormalise_row (v : list xC) :
  List.length (renormalise_row v) = List.length v.
Proof.
  unfold renormalise_row, normalise_row.
  now rewrite length_gauge_row, length_map.
Qed.

Lemma renormalise_rows_map (m : list (list xC)) :
  renormalise_rows m = map renormalise_row m.
Proof. unfold renormalise_rows. now rewrite map_map. Qed.

Lemma well_shaped_renormalise (s : list nat) (t t' : dtype)
    (m : list (list xC)) :
  well_shaped (mkarray s t m) ->
  well_shaped (mkarray s t' (renormalise_rows m)).
Proof.
  intros (d & Hs & Hr). exists d. simpl in *.
  rewrite renormalise_rows_map, length_map. split; [exact Hs |].
  rewrite Forall_map. eapply Forall_impl; [| exact Hr].
  intros v Hv. simpl. now rewrite length_renormalise_row.
Qed.

Lemma nonzero_norm_fin (v : list xC) :
  nonzero_norm v -> exists w, v = fin w /\ sumsq w <> 0.
Proof.
  intros (n & Hn & Hnz). destruct (norm_Some v n Hn) as (w & -> & E).
  exists w. split; [reflexivity |]. intros Hz. apply Hnz.
  now rewrite E, Hz, sqrt_0.
Qed.

Lemma renormalise_rows_valid (m : list (list xC)) :
  Forall nonzero_norm m -> valid_rows (renormalise_rows m).
Proof.
  intros H. rewrite renormalise_rows_map. unfold valid_rows.
  rewrite Forall_map. eapply Forall_impl; [| exact H].
  intros v Hv. simpl. destruct (nonzero_norm_fin v Hv) as (w & -> & Hs).
  now apply renormalise_row_valid.
Qed.

Lemma well_shaped_ndim (a : ndarray) : well_shaped a -> ndim a = 2%nat.
Proof. intros (d & Hs & _). unfold ndim. now rewrite Hs. Qed.

Lemma well_shaped_ext (a b : ndarray) :
  shape a = shape b -> data a = data b -> well_shaped a -> well_shaped b.
Proof.
  intros Hs Hd (d & H1 & H2). exists d. rewrite <- Hs, <- Hd. auto.
Qed.

(** [from_array] on a well-shaped array all of whose rows have a non-zero
    norm returns a valid Frame. *)
Lemma from_array_valid (arr : nat) (copy : bool) (h : heap) :
  (arr < List.length h)%nat ->
  well_shaped (load h arr) ->
  Forall nonzero_norm (data (load h arr)) ->
  exists (f : Frame) (h' : heap),
    FrameM.from_array arr copy h = (Ok f, h') /\
    valid_frame f h' /\
    data (load h' (vectors f)) = renormalise_rows (data (load h arr)) /\
    shape (load h' (vectors f)) = shape (load h arr) /\
    (List.length h <= List.length h')%nat /\
    (forall l, (l < List.length h)%nat -> l <> vectors f ->
               load h' l = load h l) /\
    (copy = true -> (List.length h <= vectors f)%nat).
Proof.
  intros Hl Hw Hn.
  destruct (from_array_ok arr copy h Hl (well_shaped_ndim _ Hw))
    as (f & h' & Hrun & Hlf & Hlen & Hsh & Hdt & Hda & Hfr & Hcp).
  exists f, h'. repeat split; auto.
  - destruct (load h arr) as [s t m] eqn:E. simpl in *.
    apply (well_shaped_ext (mkarray s complex128 (renormalise_rows m)));
      [now rewrite Hsh | now rewrite Hda |].
    now apply (well_shaped_renormalise s t).
  - rewrite Hda. now apply renormalise_rows_valid.
Qed.

(** ** The dataclass constructor *)

Lemma init_ok (v : nat) (h : heap) :
  (v < List.length h)%nat -> ndim (load h v) = 2%nat ->
  exists (f : Frame) (h' : heap),
    FrameM.init v h = (Ok f, h') /\
    (vectors f < List.length h')%nat /\
    dtype_of (load h' (vectors f)) = complex128 /\
    shape (load h' (vectors f)) = shape (load h v) /\
    data (load h' (vectors f)) = data (load h v) /\
    (forall l, (l < List.length h)%nat -> load h' l = load h l).
Proof.
  intros Hl Hnd. unfold FrameM.init, bind, get. rewrite Hnd. simpl.
  destruct (dtype_eqb (dtype_of (load h v)) complex128) eqn:Ed.
  - replace (iscomplexobj (load h v)) with true
      by (unfold iscomplexobj; apply dtype_eqb_eq in Ed; now rewrite Ed).
    simpl. exists (mkFrame v), h. apply dtype_eqb_eq in Ed.
    repeat split; auto.
  - rewrite orb_true_r. unfold astype_complex128, bind, get. rewrite Ed.
    unfold alloc, ret. simpl.
    eexists _, _. split; [reflexivity |]. simpl.
    rewrite length_app, load_app_new. simpl.
    repeat split; try lia.
    intros l Hlt. now apply load_app_old.
Qed.

Lemma row_two_not_unit : ~ unit_norm [cx 2 0; cx 0 0].
Proof.
  unfold unit_norm. change [cx 2 0; cx 0 0] with (fin [(2, 0); (0, 0)]).
  rewrite norm_fin.
  assert (Hs : sumsq [(2, 0); (0, 0)] = 4)
    by (unfold sumsq, Cplx.abs2; simpl; ring).
  rewrite Hs. intros H. injection H as H.
  pose proof (sqrt_sqrt 4 ltac:(lra)) as Hq.
  rewrite H in Hq. lra.
Qed.

Lemma row_neg_not_gauged : ~ gauge_fixed [cx (-1) 0; cx 0 0].
Proof.
  unfold gauge_fixed, Np.flatnonzero.
  change [cx (-1) 0; cx 0 0] with (fin ([] ++ (-1, 0) :: [(0, 0)])).
  rewrite flatnonzero_split; [| constructor | intros E; inversion E; lra].
  simpl. intros (x & Hx & Hpos). injection Hx as Hx. lra.
Qed.

Lemma row_two_nonzero : Forall nonzero_norm (data row_two).
Proof.
  constructor; [| constructor]. exists (sqrt 4). split.
  - change [cx 2 0; cx 0 0] with (fin [(2, 0); (0, 0)]). rewrite norm_fin.
    do 2 f_equal. unfold sumsq, Cplx.abs2. simpl. ring.
  - pose proof (sqrt_lt_R0 4 ltac:(lra)). lra.
Qed.

Lemma row_neg_nonzero : Forall nonzero_norm (data row_neg).
Proof.
  constructor; [| constructor]. exists (sqrt 1). split.
  - change [cx (-1) 0; cx 0 0] with (fin [(-1, 0); (0, 0)]). rewrite norm_fin.
    do 2 f_equal. unfold sumsq, Cplx.abs2. simpl. ring.
  - rewrite sqrt_1. lra.
Qed.

Lemma well_shaped_1x2 (t : dtype) (r : list xC) :
  List.length r = 2%nat -> well_shaped (mkarray [1; 2]%nat t [r]).
Proof. intros H. exists 2%nat. split; [reflexivity |]. now constructor. Qed.

(** C10. The dataclass constructor [Frame(vectors)] rejects exactly the
    arrays that are not 2-D; on a 2-D array it returns a frame whose array
    has element type complex128 and the shape and the entries of the
    argument, unchanged: it does not renormalise.  So [Frame([[2, 0]])] has
    a row of norm 2 and [Frame([[-1, 0]])] a row whose leading entry is
    negative, while [from_array] on the same arrays returns valid Frames. *)
Theorem init_does_not_renormalise (v : nat) (h : heap) :
  (v < List.length h)%nat ->
  (ndim (load h v) <> 2%nat ->
     FrameM.init v h = (ValueError "Frame.vectors must be 2‑D (n, d)", h)) /\
  (ndim (load h v) = 2%nat ->
     exists (f : Frame) (h' : heap),
       FrameM.init v h = (Ok f, h') /\
       dtype_of (load h' (vectors f)) = complex128 /\
       shape (load h' (vectors f)) = shape (load h v) /\
       data (load h' (vectors f)) = data (load h v) /\
       (forall l, (l < List.length h)%nat -> load h' l = load h l)) /\
  (FrameM.init 0 [row_two] = (Ok (mkFrame 0), [row_two]) /\
   ~ Forall unit_norm (data (load [row_two] 0))) /\
  (FrameM.init 0 [row_neg] = (Ok (mkFrame 0), [row_neg]) /\
   ~ Forall gauge_fixed (data (load [row_neg] 0))) /\
  (forall (a : ndarray) (copy : bool), a = row_two \/ a = row_neg ->
     exists (f : Frame) (h' : heap),
       FrameM.from_array 0 copy [a] = (Ok f, h') /\ valid_frame f h').
Proof.
  intros Hl. repeat split.
  - intros Hnd. unfold FrameM.init, bind, get.
    apply Nat.eqb_neq in Hnd. now rewrite Hnd.
  - intros Hnd. destruct (init_ok v h Hl Hnd)
      as (f & h' & H1 & _ & H2 & H3 & H4 & H5).
    exists f, h'. auto.
  - intros H. inversion H as [|? ? Hu _]. now apply row_two_not_unit.
  - intros H. inversion H as [|? ? Hg _]. now apply row_neg_not_gauged.
  - intros a copy [-> | ->].
    + destruct (from_array_valid 0 copy [row_two]) as (f & h' & H1 & H2 & _).
      * simpl. lia.
      * now apply well_shaped_1x2.
      * exact row_two_nonzero.
      * exists f, h'. auto.
    + destruct (from_array_valid 0 copy [row_neg]) as (f & h' & H1 & H2 & _).
      * simpl. lia.
      * now apply well_shaped_1x2.
      * exact row_neg_nonzero.
      * exists f, h'. auto.
Qed.

(** ** C2: the constructing operations *)

Lemma from_array_fresh (a : ndarray) (h : heap) :
  well_shaped a -> Forall nonzero_norm (data a) ->
  exists (f : Frame) (h' : heap),
    FrameM.from_array (List.length h) false (h ++ [a]) = (Ok f, h') /\
    valid_frame f h' /\
    data (load h' (vectors f)) = renormalise_rows (data a).
Proof.
  intros Hw Hn.
  destruct (from_array_valid (List.length h) false (h ++ [a]))
    as (f & h' & H1 & H2 & H3 & _).
  - rewrite length_app. simpl. lia.
  - now rewrite load_app_new.
  - now rewrite load_app_new.
  - exists f, h'. rewrite load_app_new in H3. auto.
Qed.

Lemma in_range_nonzero (m : list (list xC)) :
  Forall norm_in_range m -> Forall nonzero_norm m.
Proof.
  intros H. eapply Forall_impl; [| exact H].
  intros v (w & -> & Hlo & _).
  exists (sqrt (sumsq w)). split; [apply norm_fin |].
  intros E. apply sqrt_eq_0 in E; lra.
Qed.

(** C2, as the code has it.  A Frame produced by a public constructing
    operation ([from_array], [random], [retract], [copy], [load_npy])
    satisfies the manifold invariants -- every row has Euclidean norm one and
    the first non-zero entry of every row is real and positive -- provided
    that every row of the array the operation hands to [renormalise]
    consists of numbers (no NaN) and has a squared norm between [1e-300]
    and [1e300] (not zero, and within the range in which the norm computed
    in doubles neither underflows nor overflows).  The frame's rows are the
    renormalised rows of that array. *)
Theorem constructed_frames_valid (op : constructing_op) (h : heap) :
  op_well_called op h ->
  well_shaped (op_input op h) ->
  Forall norm_in_range (data (op_input op h)) ->
  exists (f : Frame) (h' : heap),
    run_op op h = (Ok f, h') /\
    valid_frame f h' /\
    data (load h' (vectors f)) = renormalise_rows (data (op_input op h)).
Proof.
  destruct op as [arr copy | n d rng | self tang | self | file];
    simpl; intros Hc Hw Hn; apply in_range_nonzero in Hn.
  - destruct (from_array_valid arr copy h Hc Hw Hn)
      as (f & h' & H1 & H2 & H3 & _).
    exists f, h'. auto.
  - unfold FrameM.random, bind, alloc.
    apply (from_array_fresh _ h Hw Hn).
  - unfold FrameM.retract, bind, get, alloc. rewrite Hc.
    replace (shape_eqb _ _) with true by (symmetry; now apply shape_eqb_eq).
    simpl. apply (from_array_fresh _ h Hw Hn).
  - unfold FrameM.copy.
    destruct (from_array_valid (vectors self) true h Hc Hw Hn)
      as (f & h' & H1 & H2 & H3 & _).
    exists f, h'. auto.
  - unfold FrameM.load_npy, bind, alloc.
    apply (from_array_fresh _ h Hw Hn).
Qed.

(** C2, as stated, fails: [from_array] accepts the 1 x 1 array [[0]] and
    returns a frame whose only row is NaN ([0/0]), which has no norm one. *)
Lemma from_array_zero_row :
  exists (f : Frame) (h' : heap),
    FrameM.from_array 0 false [zero11] = (Ok f, h') /\
    data (load h' (vectors f)) = [[None]] /\
    ~ Forall unit_norm (data (load h' (vectors f))).
Proof.
  destruct (from_array_ok 0 false [zero11]) as
    (f & h' & H1 & _ & _ & _ & _ & H2 & _); [simpl; lia | reflexivity |].
  exists f, h'. split; [exact H1 |].
  assert (E : data (load h' (vectors f)) = [[None]]).
  { rewrite H2. simpl. rewrite renormalise_rows_map. simpl.
    change [cx 0 0] with (fin [(0, 0)]).
    rewrite renormalise_row_zero; [reflexivity |].
    unfold sumsq, Cplx.abs2. simpl. ring. }
  split; [exact E |]. rewrite E. intros H.
  inversion H as [|? ? Hu _]. discriminate Hu.
Qed.

(** ** C8: a row that is identically zero *)

Lemma flatnonzero_from_nan (k d : nat) :
  Np.flatnonzero_from k (repeat (@None C) d) = seq k d.
Proof.
  revert k. induction d as [|d IH]; intros k; simpl; [reflexivity |].
  now rewrite IH.
Qed.

(** The loop body of [renormalise] by its test: the row is left alone when
    [nz.size] is zero, and the gauge-fix statement is executed otherwise. *)
Lemma gauge_row_test (vec : list xC) :
  gauge_row vec
  = if (nz_size vec =? 0)%nat then vec
    else gauge_statement
           (Np.angle (nth (hd 0%nat (Np.flatnonzero vec)) vec None)) vec.
Proof.
  unfold gauge_row, nz_size, gauge_statement.
  destruct (Np.flatnonzero vec) as [|k l]; reflexivity.
Qed.

(** C8, as the code has it.  When a row of the matrix is identically zero,
    [renormalise] raises no error.  The division by the norm zero turns
    every entry of the row into NaN ([0/0]).  NaN counts as non-zero, so for
    a row of [d >= 1] entries the test [nz.size] is true ([nz.size = d])
    and the gauge-fix statement is executed on the row, with the phase NaN
    of its first entry; it leaves every entry NaN. *)
Theorem renormalise_zero_row (f : Frame) (h : heap) (i : nat) (w : list C) :
  (vectors f < List.length h)%nat ->
  nth_error (data (load h (vectors f))) i = Some (fin w) ->
  Forall (fun z => z = (0, 0)) w ->
  exists h' : heap,
    FrameM.renormalise f h = (Ok tt, h') /\
    normalise_row (fin w) = repeat None (List.length w) /\
    nz_size (normalise_row (fin w)) = List.length w /\
    (w <> [] ->
     gauge_row (normalise_row (fin w))
     = gauge_statement None (normalise_row (fin w))) /\
    nth_error (data (load h' (vectors f))) i
    = Some (repeat None (List.length w)).
Proof.
  intros Hl Hi Hz. eexists. split; [reflexivity |].
  pose proof (sumsq_zeros w Hz) as Hs.
  assert (Hn : normalise_row (fin w) = repeat None (List.length w))
    by (rewrite (normalise_zero w Hs); apply map_const_repeat).
  split; [exact Hn |].
  assert (Hsz : nz_size (normalise_row (fin w)) = List.length w).
  { rewrite Hn. unfold nz_size, Np.flatnonzero.
    now rewrite flatnonzero_from_nan, length_seq. }
  split; [exact Hsz |]. split.
  - intros Hne. rewrite gauge_row_test, Hsz.
    destruct (List.length w =? 0)%nat eqn:E.
    + apply Nat.eqb_eq in E. destruct w; [now contradiction Hne |].
      discriminate E.
    + f_equal. rewrite Hn. now rewrite nth_repeat.
  - rewrite load_store_same by exact Hl. simpl.
    rewrite renormalise_rows_map. rewrite (map_nth_error _ _ _ Hi).
    rewrite (renormalise_row_zero w Hs). f_equal. apply map_const_repeat.
Qed.

(** ** C9: shape checks of [retract] and [log_map] *)

Lemma shape_eqb_neq (s t : list nat) : shape_eqb s t = false <-> s <> t.
Proof.
  unfold shape_eqb. destruct (list_eq_dec Nat.eq_dec s t); split; congruence.
Qed.

Lemma retract_mismatch (self : Frame) (tang : nat) (h : heap) :
  shape (load h tang) <> shape (load h (vectors self)) ->
  FrameM.retract self tang h = (ValueError "Tangent array shape mismatch.", h).
Proof.
  intros H. unfold FrameM.retract, bind, get.
  apply shape_eqb_neq in H. now rewrite H.
Qed.

Lemma retract_match (self : Frame) (tang : nat) (h : heap) :
  ndim (load h (vectors self)) = 2%nat ->
  shape (load h tang) = shape (load h (vectors self)) ->
  exists (f : Frame) (h' : heap), FrameM.retract self tang h = (Ok f, h').
Proof.
  intros Hnd H. unfold FrameM.retract, bind, get, alloc.
  apply shape_eqb_eq in H. rewrite H. simpl.
  set (nv := mkarray _ _ _).
  destruct (from_array_ok (List.length h) false (h ++ [nv]))
    as (f & h' & H1 & _).
  - rewrite length_app. simpl. lia.
  - rewrite load_app_new. exact Hnd.
  - exists f, h'. exact H1.
Qed.

Lemma log_map_mismatch (self other : Frame) (h : heap) :
  shape (load h (vectors self)) <> shape (load h (vectors other)) ->
  FrameM.log_map self other h = (ValueError "Frame shapes mismatch", h).
Proof.
  intros H. unfold FrameM.log_map, bind, get.
  apply shape_eqb_neq in H. now rewrite H.
Qed.

Lemma log_map_match (self other : Frame) (h : heap) :
  shape (load h (vectors self)) = shape (load h (vectors other)) ->
  FrameM.log_map self other h
  = (Ok (List.length h),
     h ++ [mkarray (shape (load h (vectors self))) complex128
             (log_map_rows (data (load h (vectors self)))
                           (data (load h (vectors other))))]).
Proof.
  intros H. unfold FrameM.log_map, bind, get, alloc.
  apply shape_eqb_eq in H. now rewrite H.
Qed.

(** C9.  On a base Frame (whose array is 2-D, as the constructor ensures),
    [retract] raises a [ValueError] if and only if the tangent array has not
    exactly the frame's shape, and [log_map] if and only if the two frames
    differ in shape; the check comes first, so that on the error the heap,
    and with it the base Frame, is exactly as before the call. *)
Theorem shape_mismatch_iff (self other : Frame) (tang : nat) (h : heap) :
  ndim (load h (vectors self)) = 2%nat ->
  ((exists msg, fst (FrameM.retract self tang h) = ValueError msg) <->
   shape (load h tang) <> shape (load h (vectors self))) /\
  ((exists msg, fst (FrameM.log_map self other h) = ValueError msg) <->
   shape (load h (vectors self)) <> shape (load h (vectors other))) /\
  (forall msg h', FrameM.retract self tang h = (ValueError msg, h') -> h' = h) /\
  (forall msg h', FrameM.log_map self other h = (ValueError msg, h') -> h' = h).
Proof.
  intros Hnd.
  assert (Hr : forall msg h', FrameM.retract self tang h = (ValueError msg, h') ->
               shape (load h tang) <> shape (load h (vectors self))).
  { intros msg h' E Heq.
    destruct (retract_match self tang h Hnd Heq) as (f & h1 & E1).
    rewrite E1 in E. discriminate E. }
  assert (Hg : forall msg h', FrameM.log_map self other h = (ValueError msg, h') ->
               shape (load h (vectors self)) <> shape (load h (vectors other))).
  { intros msg h' E Heq. rewrite (log_map_match self other h Heq) in E.
    discriminate E. }
  repeat split.
  - intros (msg & E). destruct (FrameM.retract self tang h) as [r h'] eqn:Er.
    simpl in E. subst r. now apply (Hr msg h').
  - intros H. rewrite (retract_mismatch self tang h H). now eexists.
  - intros (msg & E). destruct (FrameM.log_map self other h) as [r h'] eqn:Er.
    simpl in E. subst r. now apply (Hg msg h').
  - intros H. rewrite (log_map_mismatch self other h H). now eexists.
  - intros msg h' E. pose proof (Hr msg h' E) as H.
    rewrite (retract_mismatch self tang h H) in E. congruence.
  - intros msg h' E. pose proof (Hg msg h' E) as H.
    rewrite (log_map_mismatch self other h H) in E. congruence.
Qed.

(** ** Real inner products of rows *)

Lemma csum_fin_re (u v : list C) :
  Cplx.re (csum_fin (Np.map2 Cplx.mul (map Cplx.conj u) v)) = rdot u v.
Proof.
  revert v. induction u as [|[a b] u IH]; intros [|[c d] v]; simpl;
    try reflexivity.
  rewrite IH. ring.
Qed.

Lemma inner_re_fin (u v : list C) : inner_re (fin u) (fin v) = Some (rdot u v).
Proof.
  unfold inner_re. rewrite (@map_fin Cplx.conj), (map2_fin Cplx.mul).
  rewrite csum_fin_eq. simpl. now rewrite csum_fin_re.
Qed.

Lemma rdot_comm (u v : list C) : rdot u v = rdot v u.
Proof.
  revert v. induction u as [|a u IH]; intros [|b v]; simpl; try reflexivity.
  rewrite IH. ring.
Qed.

Lemma rdot_self (u : list C) : rdot u u = sumsq u.
Proof.
  induction u as [|a u IH]; simpl; [reflexivity |].
  rewrite IH. unfold Cplx.abs2. ring.
Qed.

Lemma scal_eq (r : R) (z : C) : scal r z = (r * Cplx.re z, r * Cplx.im z).
Proof.
  destruct z as [a b]. unfold scal, Cplx.mul, Cplx.of_real. simpl.
  f_equal; ring.
Qed.

Lemma rcmul_fin (r : R) (u : list C) :
  map (Np.rcmul (Some r)) (fin u) = fin (map (scal r) u).
Proof. unfold fin. rewrite !map_map. reflexivity. Qed.

Lemma rdot_sub_scal (f a g : list C) (r : R) :
  List.length a = List.length f -> List.length g = List.length f ->
  rdot f (Np.map2 Cplx.sub a (map (scal r) g)) = rdot f a - r * rdot f g.
Proof.
  revert a g. induction f as [|x f IH]; intros [|y a] [|z g] Ha Hg;
    simpl in Ha, Hg; try lia; [simpl; ring |].
  cbn [rdot Np.map2 map]. rewrite IH by lia. rewrite scal_eq.
  unfold Cplx.sub. simpl. ring.
Qed.

Lemma project_row_fin (f a : list C) :
  project_row (fin f) (fin a)
  = fin (Np.map2 Cplx.sub a (map (scal (rdot a f)) f)).
Proof.
  unfold project_row. rewrite inner_re_fin, rcmul_fin.
  apply (map2_fin Cplx.sub).
Qed.

Lemma project_row_tangent (f a : list C) :
  sumsq f = 1 -> List.length a = List.length f ->
  inner_re (fin f) (project_row (fin f) (fin a)) = Some 0.
Proof.
  intros Hs Hl. rewrite project_row_fin, inner_re_fin. f_equal.
  rewrite rdot_sub_scal by auto. rewrite rdot_self, Hs, (rdot_comm a f). ring.
Qed.

Lemma nth_error_map2 {A B D : Type} (f : A -> B -> D) (l : list A)
    (m : list B) (i : nat) (a : A) (b : B) :
  nth_error l i = Some a -> nth_error m i = Some b ->
  nth_error (Np.map2 f l m) i = Some (f a b).
Proof.
  revert m i. induction l as [|x l IH]; intros [|y m] [|i] Ha Hb;
    simpl in *; try discriminate.
  - congruence.
  - now apply IH.
Qed.

Lemma well_shaped_row (a : ndarray) (n d i : nat) (r : list xC) :
  well_shaped a -> shape a = [n; d] -> nth_error (data a) i = Some r ->
  List.length r = d.
Proof.
  intros (d' & Hs & Hr) Hsh Hi. rewrite Hs in Hsh. injection Hsh as _ ->.
  rewrite Forall_forall in Hr. apply Hr. eapply nth_error_In. exact Hi.
Qed.

Lemma same_shape_rows (a b : ndarray) (i : nat) (r s : list xC) :
  well_shaped a -> well_shaped b -> shape a = shape b ->
  nth_error (data a) i = Some r -> nth_error (data b) i = Some s ->
  List.length r = List.length s.
Proof.
  intros Ha Hb Hs Hr Hsn. destruct Ha as (d & Hsa & Hra).
  assert (Ha : well_shaped a) by (exists d; auto).
  rewrite (well_shaped_row a _ d i r Ha Hsa Hr).
  symmetry. apply (well_shaped_row b (List.length (data a)) d i s Hb);
    [congruence | exact Hsn].
Qed.

Lemma Forall_nth_error {A : Type} (P : A -> Prop) (l : list A) (i : nat)
    (a : A) :
  Forall P l -> nth_error l i = Some a -> P a.
Proof.
  intros H Hi. rewrite Forall_forall in H. apply H.
  eapply nth_error_In. exact Hi.
Qed.

Lemma fin_length (w : list C) : List.length (fin w) = List.length w.
Proof. apply length_map. Qed.

Lemma fin_inj (u v : list C) : fin u = fin v -> u = v.
Proof.
  revert v. induction u as [|a u IH]; intros [|b v] H; simpl in H;
    try discriminate; [reflexivity |].
  injection H as -> H. f_equal. now apply IH.
Qed.

(** ** C6: the tangent projection *)


(** ** Gram matrix and chordal distances *)

Lemma dot_fin (u v : list C) :
  dot (fin u) (map Np.conj (fin v)) = Some (cdot u v).
Proof.
  unfold dot, cdot. rewrite (@map_fin Cplx.conj), (map2_fin Cplx.mul).
  apply csum_fin_eq.
Qed.

Lemma cdot_conj (u v : list C) : cdot v u = Cplx.conj (cdot u v).
Proof.
  unfold cdot. revert v.
  induction u as [|[a b] u IH]; intros [|[c d] v]; simpl;
    try (unfold Cplx.conj; simpl; f_equal; ring).
  rewrite IH. unfold Cplx.add, Cplx.mul, Cplx.conj. simpl. f_equal; ring.
Qed.

Lemma abs2_conj (z : C) : Cplx.abs2 (Cplx.conj z) = Cplx.abs2 z.
Proof. destruct z as [a b]. unfold Cplx.abs2, Cplx.conj. simpl. ring. Qed.

Lemma cdot_self (u : list C) : cdot u u = (sumsq u, 0).
Proof.
  unfold cdot. induction u as [|[a b] u IH]; simpl; [reflexivity |].
  rewrite IH. unfold Cplx.add, Cplx.mul, Cplx.abs2. simpl. f_equal; ring.
Qed.

Lemma abs_sq (z : C) : Cplx.abs z * Cplx.abs z = Cplx.abs2 z.
Proof. unfold Cplx.abs. apply sqrt_sqrt, abs2_nonneg. Qed.

Lemma fill_row_nth (i : nat) (x : xR) (r : list xR) (j : nat) :
  nth_error (fill_row i x r) j
  = if (j =? i)%nat
    then (if (j <? List.length r)%nat then Some x else None)
    else nth_error r j.
Proof.
  revert i j. induction r as [|y r IH]; intros i j.
  - destruct i, j; simpl; try reflexivity. now destruct (j =? i)%nat.
  - destruct i, j; simpl; try reflexivity. now rewrite IH.
Qed.

Lemma fill_diagonal_from_nth (k : nat) (x : xR) (g : list (list xR))
    (i : nat) :
  nth_error (fill_diagonal_from k x g) i
  = option_map (fill_row (k + i) x) (nth_error g i).
Proof.
  revert k i. induction g as [|r g IH]; intros k [|i]; simpl;
    try reflexivity.
  - now rewrite Nat.add_0_r.
  - rewrite IH. now rewrite Nat.add_succ_r.
Qed.

(** A chordal distance as a function of the Gram entry. *)
Lemma chord_bounds (x : R) :
  0 <= 2 * sqrt (Rmax (1 - x * x) 0) <= 2.
Proof.
  assert (H0 : 0 <= Rmax (1 - x * x) 0) by apply Rmax_r.
  assert (H1 : Rmax (1 - x * x) 0 <= 1) by (apply Rmax_lub; nra).
  pose proof (sqrt_pos (Rmax (1 - x * x) 0)).
  assert (sqrt (Rmax (1 - x * x) 0) <= 1).
  { apply Rle_trans with (sqrt 1);
      [now apply sqrt_le_1_alt | rewrite sqrt_1; lra]. }
  lra.
Qed.

Lemma chord_one (x : R) : x * x = 1 -> 2 * sqrt (Rmax (1 - x * x) 0) = 0.
Proof.
  intros ->. replace (1 - 1) with 0 by ring.
  rewrite Rmax_left by lra. rewrite sqrt_0. ring.
Qed.

Lemma entry_map {A B : Type} (f : A -> B) (m : list (list A)) (i j : nat) :
  entry (map (map f) m) i j = option_map f (entry m i j).
Proof.
  unfold entry. rewrite nth_error_map.
  destruct (nth_error m i) as [r|]; simpl; [| reflexivity].
  apply nth_error_map.
Qed.

Lemma gram_entry (m : list (list xC)) (i j : nat) (u v : list C) :
  nth_error m i = Some (fin u) -> nth_error m j = Some (fin v) ->
  entry (gram_rows m) i j = Some (Some (cdot u v)).
Proof.
  intros Hi Hj. unfold entry, gram_rows.
  rewrite nth_error_map, Hi. simpl. rewrite nth_error_map, Hj. simpl.
  now rewrite dot_fin.
Qed.

Lemma gram_row_length (m : list (list xC)) (i : nat) (r : list xC) :
  nth_error (gram_rows m) i = Some r -> List.length r = List.length m.
Proof.
  unfold gram_rows. rewrite nth_error_map.
  destruct (nth_error m i); simpl; intros H; [| discriminate].
  injection H as <-. apply length_map.
Qed.

Lemma chordal_entry (m : list (list xC)) (i j : nat) (u v : list C) :
  nth_error m i = Some (fin u) -> nth_error m j = Some (fin v) ->
  entry (chordal_rows m) i j
  = Some (Some (2 * sqrt (Rmax (1 - (if (j =? i)%nat then 1
                                     else Cplx.abs (cdot u v)
                                          * Cplx.abs (cdot u v))) 0))).
Proof.
  intros Hi Hj. unfold chordal_rows. rewrite entry_map.
  unfold entry at 1, fill_diagonal. rewrite fill_diagonal_from_nth. simpl.
  pose proof (gram_entry m i j u v Hi Hj) as Hg. unfold entry in Hg.
  rewrite nth_error_map.
  destruct (nth_error (gram_rows m) i) as [r|] eqn:Er; [| discriminate Hg].
  simpl. rewrite fill_row_nth, length_map, (gram_row_length m i r Er).
  assert (Hjl : (j < List.length m)%nat)
    by (apply nth_error_Some; congruence).
  apply Nat.ltb_lt in Hjl. rewrite Hjl.
  destruct (j =? i)%nat; simpl; [reflexivity |].
  rewrite nth_error_map, Hg. reflexivity.
Qed.

Lemma eye2_gram :
  FrameM.gram (mkFrame 0) [eye2] = [[cx 1 0; cx 0 0]; [cx 0 0; cx 1 0]].
Proof.
  unfold FrameM.gram, gram_rows, dot, cx. simpl.
  unfold Cplx.mul, Cplx.add, Cplx.conj. simpl.
  repeat (f_equal; try ring).
Qed.

Lemma chord_zero_gram : 2 * sqrt (Rmax (1 - 0) 0) = 2.
Proof.
  replace (1 - 0) with 1 by ring. rewrite Rmax_left by lra.
  rewrite sqrt_1. ring.
Qed.

Lemma eye2_chordal :
  FrameM.chordal_distances (mkFrame 0) [eye2]
  = [[Some 0; Some 2]; [Some 2; Some 0]].
Proof.
  unfold FrameM.chordal_distances, chordal_rows. 
  change (gram_rows (data (load [eye2] (vectors (mkFrame 0)))))
    with (FrameM.gram (mkFrame 0) [eye2]).
  rewrite eye2_gram. unfold cx. simpl.
  unfold Cplx.abs, Cplx.abs2. simpl.
  replace (0 * 0 + 0 * 0) with 0 by ring.
  rewrite sqrt_0. replace (0 * 0) with 0 by ring.
  rewrite chord_zero_gram.
  replace (2 * sqrt (Rmax (1 - 1) 0)) with 0; [reflexivity |].
  replace (1 - 1) with 0 by ring. rewrite Rmax_left by lra.
  rewrite sqrt_0. ring.
Qed.

(** C7.  For a valid Frame of [n] rows and all [i, j < n], with [u] and
    [v] the rows [i] and [j]: the entry [G_ij] of [gram] is the entry of
    [V V^H], that is the Hermitian product [sum_k u_k conj(v_k)], and the
    entry [D_ij] of [chordal_distances] is [2 sqrt(max(1 - |G_ij|^2, 0))];
    [D] is symmetric, its diagonal is zero and its entries lie in
    [[0, 2]].  For the frame with rows [(1,0)] and [(0,1)] the Gram matrix
    is the identity and the distance matrix is [[0,2],[2,0]]. *)
Theorem chordal_distances_spec (self : Frame) (h : heap) (i j : nat) :
  valid_frame self h ->
  (i < List.length (data (load h (vectors self))))%nat ->
  (j < List.length (data (load h (vectors self))))%nat ->
  (exists (u v : list C) (d : R),
     nth_error (data (load h (vectors self))) i = Some (fin u) /\
     nth_error (data (load h (vectors self))) j = Some (fin v) /\
     entry (FrameM.gram self h) i j = Some (Some (cdot u v)) /\
     entry (FrameM.chordal_distances self h) i j = Some (Some d) /\
     d = 2 * sqrt (Rmax (1 - Cplx.abs (cdot u v) * Cplx.abs (cdot u v)) 0) /\
     entry (FrameM.chordal_distances self h) j i = Some (Some d) /\
     0 <= d <= 2 /\
     (i = j -> d = 0)) /\
  FrameM.gram (mkFrame 0) [eye2] = [[cx 1 0; cx 0 0]; [cx 0 0; cx 1 0]] /\
  FrameM.chordal_distances (mkFrame 0) [eye2]
  = [[Some 0; Some 2]; [Some 2; Some 0]].
Proof.
  intros (Hl & Hw & Hv) Hi Hj.
  split; [| split; [exact eye2_gram | exact eye2_chordal]].
  destruct (nth_error (data (load h (vectors self))) i) as [ri|] eqn:Ei;
    [| apply nth_error_None in Ei; lia].
  destruct (nth_error (data (load h (vectors self))) j) as [rj|] eqn:Ej;
    [| apply nth_error_None in Ej; lia].
  pose proof (Forall_nth_error _ _ _ _ Hv Ei) as [Hui _].
  pose proof (Forall_nth_error _ _ _ _ Hv Ej) as [Huj _].
  destruct (valid_row_fin ri Hui) as (u & -> & Hsu).
  destruct (valid_row_fin rj Huj) as (v & -> & Hsv).
  assert (Hdiag : i = j -> Cplx.abs (cdot u v) * Cplx.abs (cdot u v) = 1).
  { intros ->. assert (u = v) by (apply fin_inj; congruence). subst v.
    rewrite abs_sq, cdot_self, Hsu. unfold Cplx.abs2. simpl. ring. }
  assert (Hsym : Cplx.abs (cdot v u) = Cplx.abs (cdot u v)).
  { unfold Cplx.abs. now rewrite (cdot_conj u v), abs2_conj. }
  exists u, v,
    (2 * sqrt (Rmax (1 - Cplx.abs (cdot u v) * Cplx.abs (cdot u v)) 0)).
  unfold FrameM.gram, FrameM.chordal_distances.
  split; [reflexivity |]. split; [reflexivity |].
  split; [now apply gram_entry |].
  split.
  { rewrite (chordal_entry _ i j u v Ei Ej).
    destruct (Nat.eqb_spec j i) as [E|E]; [| reflexivity].
    now rewrite Hdiag by auto. }
  split; [reflexivity |].
  split.
  { rewrite (chordal_entry _ j i v u Ej Ei), Hsym.
    destruct (Nat.eqb_spec i j) as [E|E]; [| reflexivity].
    now rewrite Hdiag by auto. }
  split; [apply chord_bounds |].
  intros E. apply chord_one. auto.
Qed.

(** ** [retract] *)

Lemma store_app_new (h : heap) (a b : ndarray) :
  store (h ++ [a]) (List.length h) b = h ++ [b].
Proof. induction h as [|c h IH]; simpl; [reflexivity | now rewrite IH]. Qed.

Lemma from_array_new (a : ndarray) (h : heap) :
  ndim a = 2%nat -> dtype_of a = complex128 ->
  FrameM.from_array (List.length h) false (h ++ [a])
  = (Ok (mkFrame (List.length h)),
     h ++ [mkarray (shape a) complex128 (renormalise_rows (data a))]).
Proof.
  intros Hnd Hdt. unfold FrameM.from_array, bind, get.
  rewrite load_app_new, Hnd. simpl.
  unfold ret, astype_complex128, bind, get. rewrite load_app_new, Hdt. simpl.
  unfold FrameM.init, bind, get. rewrite load_app_new, Hnd, Hdt. simpl.
  unfold iscomplexobj. rewrite Hdt. simpl.
  unfold FrameM.renormalise, bind, get, put. simpl.
  rewrite load_app_new, Hdt, store_app_new. reflexivity.
Qed.

Lemma retract_run (self : Frame) (tang : nat) (h : heap) :
  ndim (load h (vectors self)) = 2%nat ->
  shape (load h tang) = shape (load h (vectors self)) ->
  FrameM.retract self tang h
  = (Ok (mkFrame (List.length h)),
     h ++ [mkarray (shape (load h (vectors self))) complex128
             (renormalise_rows (new_vecs (data (load h (vectors self)))
                                         (data (load h tang))))]).
Proof.
  intros Hnd Hs. unfold FrameM.retract, bind, get, alloc.
  apply shape_eqb_eq in Hs. rewrite Hs. simpl.
  now rewrite from_array_new.
Qed.

Lemma scal_1 (z : C) : scal 1 z = z.
Proof. rewrite scal_eq. destruct z as [a b]. simpl. f_equal; ring. Qed.

Lemma tiny_pos : 0 < tiny.
Proof. unfold tiny. lra. Qed.

Lemma new_vecs_row_fin (f xi : list C) :
  new_vecs_row (fin f) (fin xi) = fin (geodesic_row f xi).
Proof.
  unfold new_vecs_row, geodesic_row, scale_cos, scale_sin.
  rewrite norm_fin. simpl.
  pose proof tiny_pos as Ht.
  destruct (Rlt_dec (sqrt (sumsq xi)) tiny) as [Hs|Hs].
  - simpl. rewrite !rcmul_fin, (map2_fin Cplx.add).
    replace (map (scal 1) xi) with xi
      by (rewrite <- (map_id xi) at 1; apply map_ext; intros z;
          now rewrite scal_1).
    replace (1 - 0.5 * (sqrt (sumsq xi) * sqrt (sumsq xi)))
      with (1 - sqrt (sumsq xi) * sqrt (sumsq xi) / 2)
      by (set (q := sqrt (sumsq xi) * sqrt (sumsq xi)); lra).
    reflexivity.
  - destruct (Req_dec_T (sqrt (sumsq xi)) 0) as [E|E]; [lra |].
    simpl. rewrite !rcmul_fin. apply (map2_fin Cplx.add).
Qed.

Lemma add_zero_row (f xi : list C) :
  Forall (fun z => z = (0, 0)) xi -> List.length xi = List.length f ->
  Np.map2 Cplx.add f xi = f.
Proof.
  intros Hz. revert f. induction Hz as [|z xi -> _ IH]; intros [|a f] Hl;
    simpl in *; try lia; [reflexivity |].
  rewrite IH by lia. destruct a as [x y]. unfold Cplx.add. simpl.
  f_equal. f_equal; ring.
Qed.

Lemma geodesic_zero (f xi : list C) :
  Forall (fun z => z = (0, 0)) xi -> List.length xi = List.length f ->
  geodesic_row f xi = f.
Proof.
  intros Hz Hl. unfold geodesic_row. rewrite (sumsq_zeros xi Hz), sqrt_0.
  pose proof tiny_pos. destruct (Rlt_dec 0 tiny); [| lra].
  replace (1 - 0 * 0 / 2) with 1 by field.
  replace (map (scal 1) f) with f
    by (rewrite <- (map_id f) at 1; apply map_ext; intros z;
        now rewrite scal_1).
  now apply add_zero_row.
Qed.


Lemma length_map2 {A B D : Type} (f : A -> B -> D) (l : list A) (m : list B) :
  List.length l = List.length m ->
  List.length (Np.map2 f l m) = List.length l.
Proof.
  revert m. induction l as [|a l IH]; intros [|b m] H; simpl in *;
    try lia. f_equal. apply IH. lia.
Qed.

Lemma well_shaped_nrows (a b : ndarray) :
  well_shaped a -> well_shaped b -> shape a = shape b ->
  List.length (data a) = List.length (data b).
Proof.
  intros (d & Ha & _) (d' & Hb & _) Hs. rewrite Ha, Hb in Hs. congruence.
Qed.


(** ** Geometry of unit rows *)

Lemma sumsq_scal (a : R) (u : list C) :
  sumsq (map (scal a) u) = a * a * sumsq u.
Proof.
  induction u as [|z u IH]; [simpl; ring |].
  cbn [sumsq fold_right map].
  change (fold_right (fun z s => Cplx.abs2 z + s) 0) with sumsq.
  rewrite IH, scal_eq. unfold Cplx.abs2. simpl. ring.
Qed.

Lemma rdot_scal_r (a : R) (f g : list C) :
  rdot f (map (scal a) g) = a * rdot f g.
Proof.
  revert g. induction f as [|x f IH]; intros [|y g];
    try (simpl; ring).
  cbn [rdot map]. rewrite IH, scal_eq. simpl. ring.
Qed.

Lemma sumsq_sub_scal (a g : list C) (r : R) :
  List.length a = List.length g ->
  sumsq (Np.map2 Cplx.sub a (map (scal r) g))
  = sumsq a - 2 * r * rdot a g + r * r * sumsq g.
Proof.
  revert g. induction a as [|x a IH]; intros [|y g] H; simpl in H;
    try lia; [simpl; ring |].
  cbn [sumsq fold_right Np.map2 map rdot].
  change (fold_right (fun z s => Cplx.abs2 z + s) 0) with sumsq.
  rewrite IH by lia. rewrite scal_eq. unfold Cplx.sub, Cplx.abs2. simpl. ring.
Qed.

Lemma map_scal_1 (u : list C) : map (scal 1) u = u.
Proof.
  rewrite <- (map_id u) at 2. apply map_ext. intros z. now rewrite scal_1.
Qed.

Lemma sumsq_sub (u v : list C) :
  List.length u = List.length v ->
  sumsq (Np.map2 Cplx.sub u v) = sumsq u - 2 * rdot u v + sumsq v.
Proof.
  intros H. rewrite <- (map_scal_1 v) at 1.
  rewrite sumsq_sub_scal by exact H. ring.
Qed.

(** Cauchy-Schwarz for rows of norm one. *)
Lemma rdot_unit_bound (u v : list C) :
  sumsq u = 1 -> sumsq v = 1 -> List.length u = List.length v ->
  -1 <= rdot u v <= 1.
Proof.
  intros Hu Hv Hl.
  pose proof (sumsq_nonneg (Np.map2 Cplx.sub u (map (scal 1) v))) as H1.
  pose proof (sumsq_nonneg (Np.map2 Cplx.sub u (map (scal (-1)) v))) as H2.
  rewrite sumsq_sub_scal in H1, H2 by exact Hl.
  rewrite Hu, Hv in H1, H2. lra.
Qed.

Lemma sumsq_zero_eq (u v : list C) :
  List.length u = List.length v ->
  sumsq (Np.map2 Cplx.sub u v) = 0 -> u = v.
Proof.
  revert v. induction u as [|[a b] u IH]; intros [|[c d] v] Hl H;
    simpl in Hl; try lia; [reflexivity |].
  cbn [sumsq fold_right Np.map2] in H.
  change (fold_right (fun z s => Cplx.abs2 z + s) 0) with sumsq in H.
  pose proof (sumsq_nonneg (Np.map2 Cplx.sub u v)) as Hn.
  remember (sumsq (Np.map2 Cplx.sub u v)) as rest eqn:Er.
  unfold Cplx.sub, Cplx.abs2 in H. simpl in H.
  pose proof (Rle_0_sqr (a - c)) as Ha. pose proof (Rle_0_sqr (b - d)) as Hb.
  unfold Rsqr in Ha, Hb.
  assert (H1 : (a - c) * (a - c) = 0) by lra.
  assert (H2 : (b - d) * (b - d) = 0) by lra.
  assert (a = c) by (destruct (Rmult_integral _ _ H1); lra).
  assert (b = d) by (destruct (Rmult_integral _ _ H2); lra).
  subst a b. f_equal. apply IH; [lia | lra].
Qed.

Lemma chord_le_angle (t : R) : 0 <= t <= PI -> 2 - 2 * cos t <= t * t.
Proof.
  intros [H0 H1]. replace t with (2 * (t / 2)) at 1 by field.
  rewrite cos_2a_sin.
  assert (Hs0 : 0 <= sin (t / 2)) by (apply sin_ge_0; lra).
  assert (Hs1 : sin (t / 2) <= t / 2).
  { destruct (Req_dec_T t 0) as [->|Hn].
    - replace (0 / 2) with 0 by field. rewrite sin_0. lra.
    - left. apply sin_lt_x. lra. }
  nra.
Qed.

(** ** [log_map] on rows without NaN *)

Lemma log_map_row_fin (f g : list C) :
  acos (Rmin (Rmax (rdot f g) (-1)) 1) < PI ->
  log_map_row (fin f) (fin g) = fin (log_row f g).
Proof.
  intros Hpi. unfold log_map_row, log_row, log_inner, log_scale.
  rewrite inner_re_fin. simpl.
  set (c := Rmin (Rmax (rdot f g) (-1)) 1) in *.
  set (theta := acos c) in *.
  destruct (Rlt_dec tiny theta) as [Ht|Ht].
  - pose proof tiny_pos.
    assert (Hs : 0 < sin theta) by (apply sin_gt_0; lra).
    destruct (Req_dec_T (sin theta) 0) as [E|E]; [lra |].
    rewrite rcmul_fin, (map2_fin Cplx.sub), rcmul_fin. reflexivity.
  - rewrite rcmul_fin, (map2_fin Cplx.sub), rcmul_fin. reflexivity.
Qed.

Lemma clip_id (x : R) : -1 <= x <= 1 -> Rmin (Rmax x (-1)) 1 = x.
Proof.
  intros [H1 H2]. rewrite Rmax_left by lra. now rewrite Rmin_left.
Qed.

Lemma length_map2_min {A B D : Type} (f : A -> B -> D) (l : list A)
    (m : list B) :
  List.length (Np.map2 f l m) = Nat.min (List.length l) (List.length m).
Proof.
  revert m. induction l as [|a l IH]; intros [|b m]; simpl; auto.
Qed.

(** The norm of the logarithm is the angle. *)
Lemma sumsq_diff_unit (f g : list C) (c : R) :
  sumsq f = 1 -> sumsq g = 1 -> List.length g = List.length f ->
  c = rdot f g ->
  sumsq (Np.map2 Cplx.sub g (map (scal c) f)) = 1 - c * c.
Proof.
  intros Hf Hg Hl ->. rewrite sumsq_sub_scal by exact Hl.
  rewrite Hf, Hg, (rdot_comm g f). ring.
Qed.

Lemma sin_acos_sq (c : R) : -1 <= c <= 1 -> sin (acos c) * sin (acos c) = 1 - c * c.
Proof.
  intros Hc. rewrite sin_acos by exact Hc. unfold Rsqr.
  apply sqrt_sqrt. nra.
Qed.

(** The geodesic step undoes the scaling of the logarithm. *)
Lemma geodesic_cancel (a b s c : R) (f g : list C) :
  List.length g = List.length f -> a = c -> b * s = 1 ->
  Np.map2 Cplx.add (map (scal a) f)
    (map (scal b) (map (scal s) (Np.map2 Cplx.sub g (map (scal c) f))))
  = g.
Proof.
  intros Hl -> Hbs. revert g Hl.
  induction f as [|[x y] f IH]; intros [|[u v] g] Hl; simpl in Hl;
    try lia; [reflexivity |].
  cbn [map Np.map2]. rewrite IH by lia. f_equal.
  rewrite !scal_eq. unfold Cplx.add, Cplx.sub. simpl.
  f_equal.
  - replace (c * x + b * (s * (u - c * x)))
      with (c * x + (b * s) * (u - c * x)) by ring.
    rewrite Hbs. ring.
  - replace (c * y + b * (s * (v - c * y)))
      with (c * y + (b * s) * (v - c * y)) by ring.
    rewrite Hbs. ring.
Qed.

Lemma scal_0 (z : C) : scal 0 z = (0, 0).
Proof. rewrite scal_eq. f_equal; ring. Qed.

Lemma map_scal_0_zeros (u : list C) :
  Forall (fun z => z = (0, 0)) (map (scal 0) u).
Proof.
  rewrite Forall_map. apply Forall_forall. intros z _. apply scal_0.
Qed.

(** The round trip [retract (log_map)] on one pair of unit rows, before
    [renormalise]. *)
Lemma geodesic_log_row (f g : list C) :
  sumsq f = 1 -> sumsq g = 1 -> List.length g = List.length f ->
  acos (rdot f g) < PI ->
  (tiny < acos (rdot f g) -> geodesic_row f (log_row f g) = g) /\
  (acos (rdot f g) <= tiny ->
     geodesic_row f (log_row f g) = f /\
     dist f g <= tiny /\
     (acos (rdot f g) = 0 -> f = g)).
Proof.
  intros Hf Hg Hl Hpi.
  assert (Hc : -1 <= rdot f g <= 1)
    by (apply rdot_unit_bound; [assumption | assumption | now symmetry]).
  pose proof tiny_pos as Htp.
  pose proof (acos_bound (rdot f g)) as Hb.
  pose proof (cos_acos _ Hc) as Hcos.
  unfold log_row. rewrite (clip_id _ Hc).
  set (c := rdot f g) in *. set (theta := acos c) in *.
  split; intros Ht.
  - destruct (Rlt_dec tiny theta) as [_|?]; [| lra].
    assert (Hs : 0 < sin theta) by (apply sin_gt_0; lra).
    assert (Hss : sin theta * sin theta = 1 - c * c)
      by (apply sin_acos_sq; exact Hc).
    assert (Hn : sqrt (sumsq (map (scal (theta / sin theta))
                   (Np.map2 Cplx.sub g (map (scal c) f)))) = theta).
    { rewrite sumsq_scal, (sumsq_diff_unit f g c Hf Hg Hl eq_refl), <- Hss.
      replace (theta / sin theta * (theta / sin theta)
               * (sin theta * sin theta)) with (theta * theta)
        by (field; lra).
      apply sqrt_square. lra. }
    unfold geodesic_row. rewrite Hn.
    destruct (Rlt_dec theta tiny) as [?|_]; [lra |].
    apply geodesic_cancel; [exact Hl | exact Hcos | field; lra].
  - destruct (Rlt_dec tiny theta) as [?|_]; [lra |].
    split; [| split].
    + apply geodesic_zero; [apply map_scal_0_zeros |].
      rewrite length_map, length_map2_min, length_map.
      unfold C in *. rewrite Hl. apply Nat.min_id.
    + unfold dist. rewrite sumsq_sub by (now symmetry).
      rewrite Hf, Hg. fold c. rewrite <- Hcos.
      apply Rle_trans with (sqrt (theta * theta)).
      * apply sqrt_le_1_alt.
        pose proof (chord_le_angle theta ltac:(lra)). lra.
      * rewrite sqrt_square by lra. exact Ht.
    + intros H0. apply sumsq_zero_eq; [now symmetry |].
      rewrite sumsq_sub by (now symmetry). rewrite Hf, Hg. fold c.
      rewrite <- Hcos, H0, cos_0. ring.
Qed.

Lemma dist_self (g : list C) : dist g g = 0.
Proof.
  unfold dist. rewrite sumsq_sub by reflexivity. rewrite rdot_self.
  replace (sumsq g - 2 * sumsq g + sumsq g) with 0 by ring. apply sqrt_0.
Qed.

(** The round trip [retract (log_map)] in exact arithmetic.  For valid
    Frames [F] and [G] of one shape whose rows all have a geodesic angle
    [theta_i = arccos Re<F_i, G_i>] below [pi], [log_map] and then [retract]
    return normally, and the frame obtained equals [G] up to [1e-12] in every
    row (Euclidean distance); the row is exactly [G_i] when [theta_i = 0] or
    [theta_i > 1e-12] ([log_map] returns the zero tangent for angles up to
    its threshold [1e-12], and the row is then [F_i]).  The statement is one
    of the exact computation only: it needs the coordinates of the assembled
    row that vanish in [G_i] to come out as exact zeros, which rounding does
    not give (see the section on a residue as pivot). *)
Theorem retract_log_map (self other : Frame) (h : heap) :
  valid_frame self h ->
  valid_frame other h ->
  shape (load h (vectors self)) = shape (load h (vectors other)) ->
  (forall i f g,
     nth_error (data (load h (vectors self))) i = Some (fin f) ->
     nth_error (data (load h (vectors other))) i = Some (fin g) ->
     acos (rdot f g) < PI) ->
  exists (xi : nat) (h1 : heap) (fr : Frame) (h2 : heap),
    FrameM.log_map self other h = (Ok xi, h1) /\
    FrameM.retract self xi h1 = (Ok fr, h2) /\
    shape (load h2 (vectors fr)) = shape (load h (vectors other)) /\
    (forall i f g,
       nth_error (data (load h (vectors self))) i = Some (fin f) ->
       nth_error (data (load h (vectors other))) i = Some (fin g) ->
       exists y,
         nth_error (data (load h2 (vectors fr))) i = Some (fin y) /\
         dist y g <= tiny /\
         (acos (rdot f g) = 0 \/ tiny < acos (rdot f g) -> y = g)).
Proof.
  intros (Hl & Hw & Hv) (Hlo & Hwo & Hvo) Hs Hang.
  rewrite (log_map_match self other h Hs).
  set (L := mkarray _ _ _). set (h1 := h ++ [L]).
  assert (E1 : load h1 (vectors self) = load h (vectors self))
    by (apply load_app_old; exact Hl).
  assert (E2 : load h1 (List.length h) = L) by apply load_app_new.
  assert (Hrun := retract_run self (List.length h) h1).
  rewrite E1, E2 in Hrun.
  specialize (Hrun (well_shaped_ndim _ Hw) eq_refl).
  eexists _, _, _, _. split; [reflexivity |]. split; [exact Hrun |].
  simpl. rewrite load_app_new. simpl. split; [exact Hs |].
  intros i f g Hi Hj.
  pose proof (Forall_nth_error _ _ _ _ Hv Hi) as Hvf.
  pose proof (Forall_nth_error _ _ _ _ Hvo Hj) as Hvg.
  destruct (valid_row_fin _ (proj1 Hvf)) as (f' & Ef & Hsf).
  apply fin_inj in Ef. subst f'.
  destruct (valid_row_fin _ (proj1 Hvg)) as (g' & Eg & Hsg).
  apply fin_inj in Eg. subst g'.
  assert (Hlen : List.length g = List.length f).
  { rewrite <- !fin_length. symmetry.
    eapply (same_shape_rows (load h (vectors self))
                            (load h (vectors other))); eauto. }
  assert (Hc : -1 <= rdot f g <= 1)
    by (apply rdot_unit_bound; [assumption | assumption | now symmetry]).
  pose proof (Hang i f g Hi Hj) as Hpi.
  assert (Hrow :
    nth_error (renormalise_rows
                 (new_vecs (data (load h (vectors self)))
                    (log_map_rows (data (load h (vectors self)))
                                  (data (load h (vectors other)))))) i
    = Some (renormalise_row (fin (geodesic_row f (log_row f g))))).
  { rewrite renormalise_rows_map. unfold new_vecs, log_map_rows.
    rewrite (map_nth_error _ _ _
      (nth_error_map2 _ _ _ _ _ _ Hi (nth_error_map2 _ _ _ _ _ _ Hi Hj))).
    rewrite log_map_row_fin by (rewrite (clip_id _ Hc); exact Hpi).
    now rewrite new_vecs_row_fin. }
  rewrite Hrow.
  destruct (geodesic_log_row f g Hsf Hsg Hlen Hpi) as [Hbig Hsmall].
  destruct (Rlt_dec tiny (acos (rdot f g))) as [Ht|Ht].
  - exists g. rewrite (Hbig Ht), (renormalise_row_fixed _ Hvg).
    split; [reflexivity |]. split; [| reflexivity].
    rewrite dist_self. pose proof tiny_pos. lra.
  - destruct (Hsmall ltac:(lra)) as (Hy & Hd & H0).
    exists f. rewrite Hy, (renormalise_row_fixed _ Hvf).
    split; [reflexivity |]. split; [exact Hd |].
    intros [E|E]; [now apply H0 | lra].
Qed.

(** ** The round trip [log_map (retract)] *)

Lemma map_divr_1 (w : list C) : map (divr 1) w = w.
Proof. rewrite <- (map_id w) at 2. apply map_ext. apply divr_1. Qed.

Lemma renormalise_unit_split (zs : list C) (p : C) (rest : list C) :
  Forall (fun z => z = (0, 0)) zs -> p <> (0, 0) ->
  sumsq (zs ++ p :: rest) = 1 ->
  renormalise_row (fin (zs ++ p :: rest))
  = fin (map (rot (Cplx.angle p)) (zs ++ p :: rest)).
Proof.
  intros Hz Hp Hs. unfold renormalise_row.
  rewrite normalise_fin by lra. rewrite Hs, sqrt_1, map_divr_1.
  now apply gauge_fin.
Qed.

Lemma geodesic_base10 :
  geodesic_row [(1, 0); (0, 0)] [(0, 1); (0, 0)] = [(cos 1, sin 1); (0, 0)].
Proof.
  unfold geodesic_row.
  assert (Hs : sumsq [(0, 1); (0, 0)] = 1)
    by (unfold sumsq, Cplx.abs2; simpl; ring).
  rewrite Hs, sqrt_1. pose proof tiny_pos. unfold tiny in *.
  destruct (Rlt_dec 1 1e-12) as [?|_]; [lra |].
  cbn [map Np.map2]. rewrite !scal_eq. unfold Cplx.add. simpl.
  repeat f_equal; field.
Qed.

Lemma retract_base10_row :
  renormalise_row (fin (geodesic_row [(1, 0); (0, 0)] [(0, 1); (0, 0)]))
  = fin [(1, 0); (0, 0)].
Proof.
  rewrite geodesic_base10.
  assert (Hs : sumsq [(cos 1, sin 1); (0, 0)] = 1).
  { unfold sumsq, Cplx.abs2. simpl. pose proof (sin2_cos2 1) as H.
    unfold Rsqr in H. lra. }
  assert (Hp : (cos 1, sin 1) <> (0, 0)).
  { intros E. injection E as Ec Es. apply (cos_sin_0 1). auto. }
  pose proof (renormalise_unit_split [] (cos 1, sin 1) [(0, 0)]
                ltac:(constructor) Hp Hs) as Hr.
  cbn [app] in Hr. etransitivity; [exact Hr |]. cbn [map]. rewrite (rot_pivot _ Hp), rot_zero.
  unfold Cplx.abs2. simpl.
  replace (cos 1 * cos 1 + sin 1 * sin 1) with 1
    by (pose proof (sin2_cos2 1) as H; unfold Rsqr in H; lra).
  now rewrite sqrt_1.
Qed.

Lemma log_row_self10 :
  log_row [(1, 0); (0, 0)] [(1, 0); (0, 0)] = [(0, 0); (0, 0)].
Proof.
  unfold log_row.
  assert (Hd : rdot [(1, 0); (0, 0)] [(1, 0); (0, 0)] = 1) by (simpl; ring).
  rewrite Hd, clip_id by lra. rewrite acos_1.
  pose proof tiny_pos. destruct (Rlt_dec tiny 0) as [?|_]; [lra |].
  cbn [map Np.map2]. now rewrite !scal_0.
Qed.

Lemma base10_valid : valid_rows (data base10).
Proof.
  constructor; [| constructor].
  apply (valid_row_intro [] 1 [(0, 0)]); [constructor | lra |].
  unfold sumsq, Cplx.abs2. simpl. ring.
Qed.

Lemma base10_frame_valid (h : heap) : valid_frame (mkFrame 0) (base10 :: h).
Proof.
  split; [simpl; lia |]. split; [| exact base10_valid].
  now apply well_shaped_1x2.
Qed.

(** C1, as stated, fails.  [F = [[1, 0]]] is a valid Frame, and
    [xi = [[1j, 0]]] has the frame's shape, is tangent ([Re<F, xi> = 0]) and
    has norm [1 < pi].  [retract] moves [F] to [[exp(1j), 0]], which
    [renormalise] rotates back to [F]; [log_map] of [F] to itself is the zero
    tangent, at distance [1] from [xi] in its first entry. *)
Lemma log_retract_phase_tangent :
  valid_frame (mkFrame 0) [base10; tang_j] /\
  shape tang_j = shape base10 /\
  inner_re [cx 1 0; cx 0 0] [cx 0 1; cx 0 0] = Some 0 /\
  Np.norm [cx 0 1; cx 0 0] = Some 1 /\ 1 < PI /\
  FrameM.retract (mkFrame 0) 1 [base10; tang_j]
  = (Ok (mkFrame 2), [base10; tang_j; base10]) /\
  FrameM.log_map (mkFrame 0) (mkFrame 2) [base10; tang_j; base10]
  = (Ok 3%nat, [base10; tang_j; base10;
                mkarray [1; 2]%nat complex128 [[cx 0 0; cx 0 0]]]) /\
  entry (data tang_j) 0 0 = Some (cx 0 1) /\
  1e-9 < Rabs (Cplx.im (0, 0) - Cplx.im (0, 1)).
Proof.
  split; [apply base10_frame_valid |]. split; [reflexivity |].
  split.
  { change [cx 1 0; cx 0 0] with (fin [(1, 0); (0, 0)]).
    change [cx 0 1; cx 0 0] with (fin [(0, 1); (0, 0)]).
    rewrite inner_re_fin. f_equal. simpl. ring. }
  split.
  { change [cx 0 1; cx 0 0] with (fin [(0, 1); (0, 0)]).
    rewrite norm_fin.
    replace (sumsq [(0, 1); (0, 0)]) with 1
      by (unfold sumsq, Cplx.abs2; simpl; ring).
    now rewrite sqrt_1. }
  split; [pose proof PI2_1; lra |].
  split.
  { assert (HR : renormalise_rows (new_vecs (data base10) (data tang_j))
                 = [[cx 1 0; cx 0 0]]).
    { rewrite renormalise_rows_map. unfold new_vecs, base10, tang_j.
      cbn [data Np.map2 map].
      change [cx 1 0; cx 0 0] with (fin [(1, 0); (0, 0)]).
      change [cx 0 1; cx 0 0] with (fin [(0, 1); (0, 0)]).
      now rewrite new_vecs_row_fin, retract_base10_row. }
    rewrite retract_run; [| reflexivity | reflexivity].
    change (load [base10; tang_j] (vectors (mkFrame 0))) with base10.
    change (load [base10; tang_j] 1) with tang_j.
    rewrite HR. reflexivity. }
  split.
  { assert (HL : log_map_rows (data base10) (data base10)
                 = [[cx 0 0; cx 0 0]]).
    { unfold log_map_rows, base10. cbn [data Np.map2].
      change [cx 1 0; cx 0 0] with (fin [(1, 0); (0, 0)]).
      rewrite log_map_row_fin.
      - now rewrite log_row_self10.
      - replace (rdot [(1, 0); (0, 0)] [(1, 0); (0, 0)]) with 1
          by (simpl; ring).
        rewrite clip_id by lra. rewrite acos_1. apply PI_RGT_0. }
    rewrite log_map_match by reflexivity.
    change (load [base10; tang_j; base10] (vectors (mkFrame 0))) with base10.
    change (load [base10; tang_j; base10] (vectors (mkFrame 2))) with base10.
    rewrite HL. reflexivity. }
  split; [reflexivity |].
  simpl. replace (0 - 1) with (-1) by ring. rewrite Rabs_left by lra. lra.
Qed.

(** ** A lower bound of the sine *)

Lemma fact_vals :
  INR (fact 1) = 1 /\ INR (fact 3) = 6 /\ INR (fact 5) = 120 /\
  INR (fact 7) = 5040.
Proof.
  repeat split; rewrite INR_IZR_INZ; apply f_equal; vm_compute; reflexivity.
Qed.

Lemma sin_lower (x : R) : 0 <= x <= PI / 2 -> x / 3 <= sin x.
Proof.
  intros [H0 H1].
  assert (HPI : PI <= 4) by apply PI_4.
  assert (Hx2 : x <= 2) by lra.
  pose proof PI_RGT_0.
  destruct (SIN x H0 ltac:(lra)) as [Hlb _].
  apply Rle_trans with (sin_lb x); [| exact Hlb].
  unfold sin_lb, sin_approx, sin_term. cbn [sum_f_R0 Nat.mul Nat.add].
  destruct fact_vals as (F1 & F3 & F5 & F7).
  rewrite F1, F3, F5, F7. cbn [pow].
  assert (0 <= x * x <= 4) by nra.
  assert (0 <= x * x * x) by nra.
  assert (Hx5 : 0 <= x * x * x * x * x) by nra.
  replace (1 * (x * 1 / 1) + -1 * 1 * (x * (x * (x * 1)) / 6) +
           -1 * (-1 * 1) * (x * (x * (x * (x * (x * 1)))) / 120) +
           -1 * (-1 * (-1 * 1))
           * (x * (x * (x * (x * (x * (x * (x * 1)))))) / 5040))
    with (x - x * (x * x) / 6
          + (x * x * x * x * x) * (1 / 120 - (x * x) / 5040))
    by field.
  assert (0 <= (x * x * x * x * x) * (1 / 120 - x * x / 5040)).
  { apply Rmult_le_pos; [exact Hx5 | lra]. }
  nra.
Qed.

Lemma acos_pos_lt (c : R) : 0 < c -> acos c < PI / 2.
Proof.
  intros Hc. rewrite acos_atan by exact Hc.
  apply (atan_bound (sqrt (1 - c²) / c)).
Qed.

(** ** Sums of rows *)

Lemma sumsq_add_scal (a : R) (f x : list C) :
  List.length x = List.length f ->
  sumsq (Np.map2 Cplx.add (map (scal a) f) x)
  = a * a * sumsq f + 2 * a * rdot f x + sumsq x.
Proof.
  revert x. induction f as [|u f IH]; intros [|v x] H; simpl in H;
    try lia; [simpl; ring |].
  cbn [sumsq fold_right Np.map2 map rdot].
  change (fold_right (fun z s => Cplx.abs2 z + s) 0) with sumsq.
  rewrite IH by lia. rewrite scal_eq. unfold Cplx.add, Cplx.abs2. simpl. ring.
Qed.

Lemma rdot_add_scal (a : R) (f g x : list C) :
  List.length x = List.length f -> List.length g = List.length f ->
  rdot f (Np.map2 Cplx.add (map (scal a) g) x) = a * rdot f g + rdot f x.
Proof.
  revert g x. induction f as [|u f IH]; intros [|w g] [|v x] Hx Hg;
    simpl in Hx, Hg; try lia; [simpl; ring |].
  cbn [Np.map2 map rdot]. rewrite IH by lia. rewrite scal_eq.
  unfold Cplx.add. simpl. ring.
Qed.

Lemma rdot_divr (n : R) (f g : list C) :
  rdot f (map (divr n) g) = rdot f g / n.
Proof.
  revert g. induction f as [|u f IH]; intros [|v g];
    try (simpl; unfold Rdiv; ring).
  cbn [map rdot]. rewrite IH. unfold divr. simpl. unfold Rdiv. ring.
Qed.

Lemma rdot_zeros_l (z x : list C) :
  Forall (fun w => w = (0, 0)) z -> rdot z x = 0.
Proof.
  intros Hz. revert x. induction Hz as [|w z -> _ IH]; intros [|v x];
    simpl; try reflexivity.
  rewrite IH. ring.
Qed.

Lemma dist_zeros (z x : list C) :
  Forall (fun w => w = (0, 0)) z -> List.length z = List.length x ->
  dist z x = sqrt (sumsq x).
Proof.
  intros Hz Hl. unfold dist. rewrite sumsq_sub by exact Hl.
  rewrite (sumsq_zeros z Hz), (rdot_zeros_l z x Hz). f_equal. ring.
Qed.

Lemma zeros_eq (z x : list C) :
  Forall (fun w => w = (0, 0)) z -> Forall (fun w => w = (0, 0)) x ->
  List.length z = List.length x -> z = x.
Proof.
  intros Hz. revert x. induction Hz as [|w z -> _ IH]; intros [|v x] Hx Hl;
    simpl in Hl; try lia; [reflexivity |].
  inversion Hx as [|? ? Hv Hx']. subst.
  apply f_equal. apply IH; [exact Hx' | lia].
Qed.

Lemma log_cancel (s a b : R) (f x : list C) :
  List.length x = List.length f -> s * b = 1 ->
  map (scal s)
    (Np.map2 Cplx.sub
       (Np.map2 Cplx.add (map (scal a) f) (map (scal b) x))
       (map (scal a) f))
  = x.
Proof.
  intros Hl Hsb. revert x Hl.
  induction f as [|[u v] f IH]; intros [|[p q] x] Hl; simpl in Hl;
    try lia; [reflexivity |].
  cbn [map Np.map2]. rewrite IH by lia. f_equal.
  rewrite !scal_eq. unfold Cplx.add, Cplx.sub. simpl.
  f_equal.
  - replace (s * (a * u + b * p - a * u)) with (s * b * p) by ring.
    rewrite Hsb. ring.
  - replace (s * (a * v + b * q - a * v)) with (s * b * q) by ring.
    rewrite Hsb. ring.
Qed.

Lemma length_geodesic_row (f xi : list C) :
  List.length xi = List.length f ->
  List.length (geodesic_row f xi) = List.length f.
Proof.
  intros H. unfold geodesic_row.
  destruct (Rlt_dec _ _); rewrite length_map2_min, ?length_map;
    unfold C in *; rewrite H; apply Nat.min_id.
Qed.

(** The exact branch: the geodesic point is a unit row at angle [theta],
    and the logarithm recovers the tangent. *)
Lemma log_geodesic_exact (f xi : list C) :
  sumsq f = 1 -> List.length xi = List.length f -> rdot f xi = 0 ->
  tiny <= sqrt (sumsq xi) < PI ->
  sumsq (geodesic_row f xi) = 1 /\
  acos (Rmin (Rmax (rdot f (geodesic_row f xi)) (-1)) 1) = sqrt (sumsq xi) /\
  (tiny < sqrt (sumsq xi) -> log_row f (geodesic_row f xi) = xi) /\
  dist (log_row f (geodesic_row f xi)) xi <= tiny.
Proof.
  intros Hf Hl Ht [Hlo Hhi]. pose proof tiny_pos as Htp.
  assert (Hsq : sqrt (sumsq xi) * sqrt (sumsq xi) = sumsq xi)
    by (apply sqrt_sqrt, sumsq_nonneg).
  set (theta := sqrt (sumsq xi)) in *.
  assert (HY : geodesic_row f xi
               = Np.map2 Cplx.add (map (scal (cos theta)) f)
                   (map (scal (sin theta / theta)) xi)).
  { unfold geodesic_row. fold theta.
    destruct (Rlt_dec theta tiny); [lra | reflexivity]. }
  assert (Hlb : List.length (map (scal (sin theta / theta)) xi)
                = List.length f) by (now rewrite length_map).
  assert (Hdot : rdot f (geodesic_row f xi) = cos theta).
  { rewrite HY, rdot_add_scal by (rewrite ?length_map; auto).
    rewrite rdot_self, Hf, rdot_scal_r, Ht. ring. }
  assert (Hc : -1 <= cos theta <= 1) by apply COS_bound.
  assert (Hac : acos (cos theta) = theta) by (apply acos_cos; lra).
  split.
  { rewrite HY, sumsq_add_scal by exact Hlb.
    rewrite Hf, rdot_scal_r, Ht, sumsq_scal, <- Hsq.
    replace (sin theta / theta * (sin theta / theta) * (theta * theta))
      with (sin theta * sin theta) by (field; lra).
    pose proof (sin2_cos2 theta) as H. unfold Rsqr in H. lra. }
  split; [now rewrite Hdot, clip_id, Hac by exact Hc |].
  assert (Hlog : log_row f (geodesic_row f xi)
    = map (scal (if Rlt_dec tiny theta then theta / sin theta else 0))
        (Np.map2 Cplx.sub (geodesic_row f xi) (map (scal (cos theta)) f))).
  { unfold log_row. now rewrite Hdot, clip_id, Hac by exact Hc. }
  assert (Hexact : tiny < theta -> log_row f (geodesic_row f xi) = xi).
  { intros Hgt. rewrite Hlog. destruct (Rlt_dec tiny theta); [| lra].
    rewrite HY. apply log_cancel; [exact Hl |].
    assert (0 < sin theta) by (apply sin_gt_0; lra). field. lra. }
  split; [exact Hexact |].
  destruct (Rlt_dec tiny theta) as [Hgt|Hle].
  - rewrite (Hexact Hgt), dist_self. lra.
  - rewrite Hlog. destruct (Rlt_dec tiny theta); [lra |].
    rewrite dist_zeros; [fold theta; lra | apply map_scal_0_zeros |].
    rewrite length_map, length_map2_min, length_map, length_geodesic_row
      by exact Hl.
    unfold C in *. rewrite Nat.min_id. now symmetry.
Qed.

Lemma sub_divr_cancel (n a : R) (f x : list C) :
  List.length x = List.length f ->
  Np.map2 Cplx.sub
    (map (divr n) (Np.map2 Cplx.add (map (scal a) f) x))
    (map (scal (a / n)) f)
  = map (divr n) x.
Proof.
  revert x. induction f as [|[u v] f IH]; intros [|[p q] x] Hl;
    simpl in Hl; try lia; [reflexivity |].
  cbn [map Np.map2]. rewrite IH by lia. f_equal.
  rewrite !scal_eq. unfold Cplx.add, Cplx.sub, divr. simpl.
  f_equal; unfold Rdiv; ring.
Qed.

Lemma map_scal_divr (s n : R) (x : list C) :
  map (scal s) (map (divr n) x) = map (scal (s / n)) x.
Proof.
  rewrite map_map. apply map_ext. intros [p q].
  rewrite !scal_eq. unfold divr. simpl. f_equal; unfold Rdiv; ring.
Qed.

Lemma sumsq_scal_sub (k : R) (x : list C) :
  sumsq (Np.map2 Cplx.sub (map (scal k) x) x)
  = (k - 1) * (k - 1) * sumsq x.
Proof.
  induction x as [|[p q] x IH]; [simpl; ring |].
  cbn [sumsq fold_right Np.map2 map].
  change (fold_right (fun z s => Cplx.abs2 z + s) 0) with sumsq.
  rewrite IH, scal_eq. unfold Cplx.sub, Cplx.abs2. simpl. ring.
Qed.

Lemma sqrt_le_bound (x b : R) : 0 <= b -> x <= b * b -> sqrt x <= b.
Proof.
  intros Hb Hx. apply Rle_trans with (sqrt (b * b)).
  - now apply sqrt_le_1_alt.
  - rewrite sqrt_square by exact Hb. lra.
Qed.

Lemma sq_eq_nonneg (x y : R) : 0 <= x -> 0 <= y -> x * x = y * y -> x = y.
Proof.
  intros Hx Hy H. apply Rsqr_inj; [exact Hx | exact Hy | exact H].
Qed.

(** The first-order branch: [renormalise] divides the point by its norm
    [N = sqrt(1 + theta^4 / 4)], and the logarithm returns the tangent
    rescaled by [theta' / theta] with [theta' <= 3 theta], or zero. *)
Lemma log_geodesic_small (f xi : list C) :
  sumsq f = 1 -> List.length xi = List.length f -> rdot f xi = 0 ->
  sqrt (sumsq xi) < tiny ->
  let Y := geodesic_row f xi in
  let G := map (divr (sqrt (sumsq Y))) Y in
  sumsq Y <> 0 /\
  sumsq G = 1 /\
  acos (Rmin (Rmax (rdot f G) (-1)) 1) < PI /\
  dist (log_row f G) xi <= 1e-9 /\
  (sqrt (sumsq xi) = 0 -> log_row f G = xi).
Proof.
  intros Hf Hl Ht Hsmall Y G. pose proof tiny_pos as Htp.
  assert (Hsq : sqrt (sumsq xi) * sqrt (sumsq xi) = sumsq xi)
    by (apply sqrt_sqrt, sumsq_nonneg).
  pose proof (sqrt_pos (sumsq xi)) as Hth0.
  set (theta := sqrt (sumsq xi)) in *.
  set (a := 1 - theta * theta / 2).
  assert (Htiny : tiny = 1e-12) by reflexivity.
  assert (Hth2 : theta * theta <= 1e-24) by (rewrite Htiny in *; nra).
  assert (Ha : 0 < a) by (unfold a; lra).
  assert (HY : Y = Np.map2 Cplx.add (map (scal a) f) xi).
  { unfold Y, geodesic_row. fold theta.
    destruct (Rlt_dec theta tiny); [reflexivity | lra]. }
  assert (HN2 : sumsq Y = a * a + theta * theta).
  { rewrite HY, sumsq_add_scal by exact Hl. rewrite Hf, Ht, Hsq. ring. }
  assert (HN2ge : 1 <= sumsq Y) by (rewrite HN2; unfold a; nra).
  set (N := sqrt (sumsq Y)) in *.
  assert (HNN : N * N = sumsq Y) by (apply sqrt_sqrt; lra).
  assert (HN1 : 1 <= N).
  { unfold N. rewrite <- sqrt_1. apply sqrt_le_1_alt. exact HN2ge. }
  assert (HlY : List.length Y = List.length f)
    by (apply length_geodesic_row; exact Hl).
  assert (HsG : sumsq G = 1).
  { unfold G. rewrite sumsq_divr by lra. rewrite HNN. field. lra. }
  assert (HdG : rdot f G = a / N).
  { unfold G. rewrite rdot_divr, HY, rdot_add_scal by auto.
    rewrite rdot_self, Hf, Ht. f_equal. ring. }
  assert (Hc : -1 <= a / N <= 1).
  { rewrite <- HdG. apply rdot_unit_bound; [exact Hf | exact HsG |].
    unfold G. rewrite length_map. now symmetry. }
  assert (Hcpos : 0 < a / N) by (apply Rdiv_lt_0_compat; lra).
  pose proof (acos_pos_lt (a / N) Hcpos) as Hacos.
  pose proof (acos_bound (a / N)) as Hab.
  pose proof PI_RGT_0 as HPI.
  split; [lra |]. split; [exact HsG |].
  split; [rewrite HdG, clip_id by exact Hc; lra |].
  assert (Hlog : log_row f G
    = map (scal (if Rlt_dec tiny (acos (a / N))
                 then acos (a / N) / sin (acos (a / N)) else 0))
        (map (divr N) xi)).
  { unfold log_row. rewrite HdG, clip_id by exact Hc. f_equal.
    unfold G. rewrite HY. now apply sub_divr_cancel. }
  assert (Hlen : forall s, List.length (map (scal s) (map (divr N) xi))
                           = List.length xi)
    by (intros s; now rewrite !length_map).
  rewrite Hlog.
  destruct (Rlt_dec tiny (acos (a / N))) as [Hbig|Hnot].
  - set (t' := acos (a / N)) in *.
    assert (Hs2 : sin t' * sin t' = (theta / N) * (theta / N)).
    { unfold t'. rewrite sin_acos_sq by exact Hc.
      replace (theta / N * (theta / N)) with (theta * theta / (N * N))
        by (field; lra).
      replace (1 - a / N * (a / N)) with ((N * N - a * a) / (N * N))
        by (field; lra).
      rewrite HNN, HN2. f_equal. ring. }
    assert (Hspos : 0 < sin t') by (apply sin_gt_0; lra).
    assert (Hsin : sin t' = theta / N).
    { apply sq_eq_nonneg; [lra | | exact Hs2].
      apply Rmult_le_pos; [lra |]. left. apply Rinv_0_lt_compat. lra. }
    assert (Hthpos : 0 < theta).
    { destruct (Req_dec_T theta 0) as [E|E]; [| lra].
      rewrite E in Hsin. unfold Rdiv in Hsin. rewrite Rmult_0_l in Hsin. lra. }
    assert (Ht3 : t' <= 3 * theta).
    { pose proof (sin_lower t' ltac:(lra)) as Hlow. rewrite Hsin in Hlow.
      assert (theta / N <= theta).
      { apply Rle_trans with (theta / 1); [| lra].
        unfold Rdiv. apply Rmult_le_compat_l; [lra |].
        apply Rinv_le_contravar; lra. }
      lra. }
    split.
    + rewrite map_scal_divr. unfold dist. rewrite sumsq_scal_sub, <- Hsq.
      fold theta. rewrite Hsin.
      replace ((t' / (theta / N) / N - 1) * (t' / (theta / N) / N - 1)
               * (theta * theta))
        with ((t' - theta) * (t' - theta)) by (field; lra).
      apply sqrt_le_bound; [lra |]. rewrite Htiny in *. nra.
    + intros E. lra.
  - split.
    + rewrite dist_zeros; [| apply map_scal_0_zeros | apply Hlen].
      fold theta. rewrite Htiny in *. lra.
    + intros E. apply zeros_eq; [apply map_scal_0_zeros | | apply Hlen].
      apply sumsq_zero_inv. rewrite <- Hsq. fold theta. rewrite E. ring.
Qed.

(** On a row already in canonical gauge, [renormalise] only divides by the
    norm. *)
Lemma renormalise_gauged (w : list C) :
  sumsq w <> 0 -> gauge_fixed (fin w) ->
  renormalise_row (fin w) = fin (map (divr (sqrt (sumsq w))) w).
Proof.
  intros Hs Hg. unfold renormalise_row. rewrite normalise_fin by exact Hs.
  pose proof (sumsq_nonneg w) as Hnn.
  assert (Hn : 0 < sqrt (sumsq w)) by (apply sqrt_lt_R0; lra).
  set (n := sqrt (sumsq w)) in *.
  destruct (split_first_nonzero w) as [Hz | (zs & p & rest & -> & Hz & Hp)].
  { apply sumsq_zeros in Hz. contradiction. }
  unfold gauge_fixed, Np.flatnonzero in Hg.
  rewrite (flatnonzero_split 0 zs p rest Hz Hp) in Hg. simpl in Hg.
  rewrite nth_split in Hg. destruct Hg as (x & Hx & Hpos).
  injection Hx as ->.
  rewrite map_app. cbn [map].
  rewrite gauge_fin;
    [| apply map_zeros; [apply divr_zero | exact Hz]
     | apply divr_nonzero; [lra | exact Hp]].
  replace (Cplx.angle (divr n (x, 0))) with 0.
  - f_equal. rewrite <- (map_id (map (divr n) zs ++ _)) at 2.
    apply map_ext. apply rot_0.
  - unfold Cplx.angle, divr. simpl.
    replace (0 / n) with 0 by (unfold Rdiv; ring).
    symmetry. apply arctan2_pos_real. apply Rdiv_lt_0_compat; lra.
Qed.

(** The round trip [log_map (retract)] on one row. *)
Lemma log_retract_row (f xi : list C) :
  sumsq f = 1 -> List.length xi = List.length f -> rdot f xi = 0 ->
  sqrt (sumsq xi) < PI ->
  gauge_fixed (fin (geodesic_row f xi)) ->
  exists eta : list C,
    log_map_row (fin f) (renormalise_row (fin (geodesic_row f xi)))
    = fin eta /\
    dist eta xi <= 1e-9 /\
    (sqrt (sumsq xi) = 0 \/ tiny < sqrt (sumsq xi) -> eta = xi).
Proof.
  intros Hf Hl Ht Hpi Hg. pose proof tiny_pos as Htp.
  assert (Htiny : tiny = 1e-12) by reflexivity.
  destruct (Rlt_dec (sqrt (sumsq xi)) tiny) as [Hs|Hs].
  - destruct (log_geodesic_small f xi Hf Hl Ht Hs)
      as (Hnz & HsG & Hac & Hd & H0).
    rewrite (renormalise_gauged _ Hnz Hg).
    rewrite log_map_row_fin by exact Hac.
    eexists. split; [reflexivity |]. split; [exact Hd |].
    intros [E|E]; [now apply H0 | lra].
  - assert (Hrange : tiny <= sqrt (sumsq xi) < PI)
      by (split; [apply Rnot_lt_le; exact Hs | exact Hpi]).
    destruct (log_geodesic_exact f xi Hf Hl Ht Hrange)
      as (HsY & Hac & Hex & Hd).
    assert (Hnz : sumsq (geodesic_row f xi) <> 0) by lra.
    rewrite (renormalise_gauged _ Hnz Hg).
    rewrite HsY, sqrt_1, map_divr_1.
    rewrite log_map_row_fin by (rewrite Hac; exact Hpi).
    eexists. split; [reflexivity |].
    split; [rewrite Htiny in *; lra |].
    intros [E|E]; [lra | now apply Hex].
Qed.

Lemma gauge_margin_fixed (f xi : list C) :
  gauge_margin f xi -> gauge_fixed (fin (geodesic_row f xi)).
Proof.
  intros (zs & x & rest & -> & Hz & _ & _ & Hx).
  unfold gauge_fixed, Np.flatnonzero.
  rewrite flatnonzero_split; [| exact Hz | intros E; inversion E; lra].
  simpl. rewrite nth_split. exists x. split; [reflexivity | lra].
Qed.

Lemma three_lt_PI : 3 < PI.
Proof. pose proof PI2_3_2. lra. Qed.

(** C1, as the code has it.  For a valid Frame [F] and a tangent array
    [xi] of its shape with [Re<F_i, xi_i> = 0] in every row,
    [log_map(F, retract(F, xi))] equals [xi] within [1e-9] in every row
    (Euclidean distance, hence in every entry), provided that every row of
    [xi] is either zero, or has a norm between [1e-4] and [3] and the point
    reached by its geodesic step is in canonical gauge with a margin
    ([gauge_margin]), so that the re-gauging in [renormalise] does not rotate
    it.  The bounds stay away from the three places where the code in double
    precision departs from the exact computation: steps so short that
    [Re<F_i, G_i>] rounds to [1], angles next to [pi], and pivots of the size
    of a rounding error. *)
Theorem log_map_retract (self : Frame) (tang : nat) (h : heap) :
  valid_frame self h ->
  (tang < List.length h)%nat ->
  well_shaped (load h tang) ->
  shape (load h tang) = shape (load h (vectors self)) ->
  (forall i f xi,
     nth_error (data (load h (vectors self))) i = Some (fin f) ->
     nth_error (data (load h tang)) i = Some (fin xi) ->
     rdot f xi = 0 /\
     (Forall (fun z => z = (0, 0)) xi \/
      (1e-4 <= sqrt (sumsq xi) <= 3 /\ gauge_margin f xi))) ->
  exists (fr : Frame) (h1 : heap) (l : nat) (h2 : heap),
    FrameM.retract self tang h = (Ok fr, h1) /\
    FrameM.log_map self fr h1 = (Ok l, h2) /\
    shape (load h2 l) = shape (load h tang) /\
    (forall i f xi,
       nth_error (data (load h (vectors self))) i = Some (fin f) ->
       nth_error (data (load h tang)) i = Some (fin xi) ->
       exists eta : list C,
         nth_error (data (load h2 l)) i = Some (fin eta) /\
         dist eta xi <= 1e-9).
Proof.
  intros (Hl & Hw & Hv) Ht Hwt Hs Hrows.
  rewrite (retract_run self tang h (well_shaped_ndim _ Hw) Hs).
  set (R := mkarray _ _ _). set (h1 := h ++ [R]).
  assert (E1 : load h1 (vectors self) = load h (vectors self))
    by (apply load_app_old; exact Hl).
  assert (E2 : load h1 (List.length h) = R) by apply load_app_new.
  assert (Hlog := log_map_match self (mkFrame (List.length h)) h1).
  cbn [vectors] in Hlog. rewrite E1, E2 in Hlog.
  specialize (Hlog eq_refl).
  eexists _, _, _, _. split; [reflexivity |]. split; [exact Hlog |].
  rewrite load_app_new. cbn [data shape]. unfold R. cbn [data].
  split; [now symmetry |].
  intros i f xi Hi Hj.
  destruct (Hrows i f xi Hi Hj) as (Htan & Hcase).
  pose proof (Forall_nth_error _ _ _ _ Hv Hi) as Hvf.
  destruct (valid_row_fin _ (proj1 Hvf)) as (f' & Ef & Hsf).
  apply fin_inj in Ef. subst f'.
  assert (Hlen : List.length xi = List.length f).
  { rewrite <- !fin_length.
    eapply (same_shape_rows (load h tang) (load h (vectors self))); eauto. }
  assert (Hpg : sqrt (sumsq xi) < PI /\ gauge_fixed (fin (geodesic_row f xi))).
  { pose proof three_lt_PI. destruct Hcase as [Hz | [Hr Hm]].
    - rewrite (geodesic_zero f xi Hz Hlen), (sumsq_zeros xi Hz), sqrt_0.
      split; [lra | exact (proj2 Hvf)].
    - split; [lra | now apply gauge_margin_fixed]. }
  destruct Hpg as [Hpi Hg].
  destruct (log_retract_row f xi Hsf Hlen Htan Hpi Hg) as (eta & He & Hd & _).
  exists eta. split; [| exact Hd].
  unfold log_map_rows. rewrite <- He. apply nth_error_map2; [exact Hi |].
  rewrite renormalise_rows_map. unfold new_vecs.
  rewrite (map_nth_error _ _ _ (nth_error_map2 _ _ _ _ _ _ Hi Hj)).
  now rewrite new_vecs_row_fin.
Qed.

(** ** The theorems at concrete frames *)

Lemma base01_valid : valid_rows (data base01).
Proof.
  constructor; [| constructor].
  apply (valid_row_intro [(0, 0)] 1 []); [repeat constructor | lra |].
  unfold sumsq, Cplx.abs2. simpl. ring.
Qed.

Lemma heap10_01_frames :
  valid_frame (mkFrame 0) [base10; base01] /\
  valid_frame (mkFrame 1) [base10; base01].
Proof.
  split.
  - apply base10_frame_valid.
  - split; [simpl; lia |]. split; [| exact base01_valid].
    now apply well_shaped_1x2.
Qed.

Lemma single_row {A : Type} (r : A) (i : nat) (x : A) :
  nth_error [r] i = Some x -> i = 0%nat /\ x = r.
Proof.
  destruct i as [|i]; simpl; intros H.
  - injection H as <-. auto.
  - destruct i; discriminate H.
Qed.

Lemma rows_10_01 (i : nat) (f g : list C) :
  nth_error (data base10) i = Some (fin f) ->
  nth_error (data base01) i = Some (fin g) ->
  f = [(1, 0); (0, 0)] /\ g = [(0, 0); (1, 0)].
Proof.
  intros Hf Hg.
  apply single_row in Hf. apply single_row in Hg.
  destruct Hf as [_ Hf], Hg as [_ Hg]. split; now apply fin_inj.
Qed.

Lemma cos_1_pos : 0 < cos 1.
Proof. apply cos_gt_0; pose proof PI2_1; lra. Qed.

Lemma geodesic_10_01 :
  geodesic_row [(1, 0); (0, 0)] [(0, 0); (1, 0)] = [(cos 1, 0); (sin 1, 0)].
Proof.
  unfold geodesic_row.
  assert (Hs : sumsq [(0, 0); (1, 0)] = 1)
    by (unfold sumsq, Cplx.abs2; simpl; ring).
  rewrite Hs, sqrt_1. pose proof tiny_pos. unfold tiny in *.
  destruct (Rlt_dec 1 1e-12) as [?|_]; [lra |].
  cbn [map Np.map2]. rewrite !scal_eq. unfold Cplx.add. simpl.
  repeat f_equal; field.
Qed.

Lemma cos_1_half : 1 / 2 <= cos 1.
Proof.
  replace 1 with (2 * (1 / 2)) at 2 by field. rewrite cos_2a_sin.
  assert (H0 : 0 < sin (1 / 2)) by (apply sin_gt_0; pose proof PI2_1; lra).
  assert (H1 : sin (1 / 2) < 1 / 2) by (apply sin_lt_x; lra).
  nra.
Qed.

Lemma tangent_10_01 (i : nat) (f xi : list C) :
  nth_error (data base10) i = Some (fin f) ->
  nth_error (data base01) i = Some (fin xi) ->
  rdot f xi = 0 /\
  (Forall (fun z => z = (0, 0)) xi \/
   (1e-4 <= sqrt (sumsq xi) <= 3 /\ gauge_margin f xi)).
Proof.
  intros Hf Hx. destruct (rows_10_01 i f xi Hf Hx) as [-> ->].
  split; [simpl; ring |]. right. split.
  - replace (sumsq [(0, 0); (1, 0)]) with 1
      by (unfold sumsq, Cplx.abs2; simpl; ring).
    rewrite sqrt_1. lra.
  - exists [], (cos 1), [(sin 1, 0)]. rewrite geodesic_10_01.
    pose proof cos_1_half.
    repeat split; try constructor; simpl; lra.
Qed.

Lemma angle_10_01 (i : nat) (f g : list C) :
  nth_error (data base10) i = Some (fin f) ->
  nth_error (data base01) i = Some (fin g) ->
  acos (rdot f g) < PI.
Proof.
  intros Hf Hg. destruct (rows_10_01 i f g Hf Hg) as [-> ->].
  replace (rdot [(1, 0); (0, 0)] [(0, 0); (1, 0)]) with 0 by (simpl; ring).
  rewrite acos_0. pose proof PI_RGT_0. lra.
Qed.

Lemma no_nans_base01 : no_nans (data base01).
Proof. constructor; [| constructor]. now exists [(0, 0); (1, 0)]. Qed.


Lemma log_map_retract_witness :
  valid_frame (mkFrame 0) [base10; base01] /\
  exists (fr : Frame) (h1 : heap) (l : nat) (h2 : heap),
    FrameM.retract (mkFrame 0) 1 [base10; base01] = (Ok fr, h1) /\
    FrameM.log_map (mkFrame 0) fr h1 = (Ok l, h2) /\
    exists eta : list C,
      nth_error (data (load h2 l)) 0 = Some (fin eta) /\
      dist eta [(0, 0); (1, 0)] <= 1e-9.
Proof.
  split; [exact (proj1 heap10_01_frames) |].
  destruct (log_map_retract (mkFrame 0) 1 [base10; base01]
              (proj1 heap10_01_frames)
              (Nat.lt_succ_diag_r 1)
              (well_shaped_1x2 complex128 [cx 0 0; cx 1 0] eq_refl)
              eq_refl tangent_10_01)
    as (fr & h1 & l & h2 & H1 & H2 & _ & H3).
  exists fr, h1, l, h2. split; [exact H1 |]. split; [exact H2 |].
  exact (H3 0%nat [(1, 0); (0, 0)] [(0, 0); (1, 0)] eq_refl eq_refl).
Defined.

Lemma row_two_in_range : Forall norm_in_range (data row_two).
Proof.
  constructor; [| constructor].
  exists [(2, 0); (0, 0)]. split; [reflexivity |].
  unfold sumsq, Cplx.abs2. simpl. lra.
Qed.

Lemma constructed_frames_valid_witness :
  Forall norm_in_range (data row_two) /\
  exists (f : Frame) (h' : heap),
    FrameM.from_array 0 true [row_two] = (Ok f, h') /\ valid_frame f h'.
Proof.
  split; [exact row_two_in_range |].
  destruct (constructed_frames_valid (op_from_array 0 true) [row_two]
              (Nat.lt_0_succ 0)
              (well_shaped_1x2 complex128 [cx 2 0; cx 0 0] eq_refl)
              row_two_in_range)
    as (f & h' & H1 & H2 & _).
  exists f, h'. split; [exact H1 | exact H2].
Defined.

Lemma retract_log_map_witness :
  valid_frame (mkFrame 0) [base10; base01] /\
  valid_frame (mkFrame 1) [base10; base01] /\
  exists (xi : nat) (h1 : heap) (fr : Frame) (h2 : heap),
    FrameM.log_map (mkFrame 0) (mkFrame 1) [base10; base01] = (Ok xi, h1) /\
    FrameM.retract (mkFrame 0) xi h1 = (Ok fr, h2) /\
    nth_error (data (load h2 (vectors fr))) 0 = Some (fin [(0, 0); (1, 0)]).
Proof.
  split; [exact (proj1 heap10_01_frames) |].
  split; [exact (proj2 heap10_01_frames) |].
  destruct (retract_log_map (mkFrame 0) (mkFrame 1) [base10; base01]
              (proj1 heap10_01_frames) (proj2 heap10_01_frames)
              eq_refl angle_10_01)
    as (xi & h1 & fr & h2 & H1 & H2 & _ & H3).
  exists xi, h1, fr, h2. split; [exact H1 |]. split; [exact H2 |].
  destruct (H3 0%nat [(1, 0); (0, 0)] [(0, 0); (1, 0)] eq_refl eq_refl)
    as (y & Hy & _ & Hx).
  rewrite Hy. do 2 f_equal. apply Hx. right.
  replace (rdot [(1, 0); (0, 0)] [(0, 0); (1, 0)]) with 0 by (simpl; ring).
  rewrite acos_0. pose proof PI2_1. unfold tiny. lra.
Defined.


Lemma renormalise_idempotent_witness :
  valid_frame (mkFrame 0) [eye2] /\
  FrameM.renormalise (mkFrame 0) [eye2] = (Ok tt, [eye2]).
Proof.
  split; [exact eye2_frame_valid |].
  exact (renormalise_idempotent (mkFrame 0) [eye2] eye2_frame_valid).
Defined.



Lemma twin10_frame_valid : valid_frame (mkFrame 0) [twin10].
Proof.
  split; [simpl; lia |]. split.
  - exists 2%nat. split; [reflexivity | repeat constructor].
  - assert (Hr : valid_row (fin ([] ++ (1, 0) :: [(0, 0)])))
      by (apply valid_row_intro;
          [constructor | lra | unfold sumsq, Cplx.abs2; simpl; ring]).
    apply Forall_cons; [exact Hr |].
    apply Forall_cons; [exact Hr | apply Forall_nil].
Qed.

Lemma chordal_distances_spec_witness :
  valid_frame (mkFrame 0) [twin10] /\
  entry (FrameM.gram (mkFrame 0) [twin10]) 0 1
  = Some (Some (cdot [(1, 0); (0, 0)] [(1, 0); (0, 0)])) /\
  entry (data twin10) 0 1 = Some (cx 0 0) /\
  exists d : R,
    entry (FrameM.chordal_distances (mkFrame 0) [twin10]) 0 1
    = Some (Some d) /\
    0 <= d <= 2.
Proof.
  split; [exact twin10_frame_valid |].
  destruct (chordal_distances_spec (mkFrame 0) [twin10] 0 1
              twin10_frame_valid (Nat.lt_0_succ 1) (Nat.lt_succ_diag_r 1))
    as ((u & v & d & Hu & Hv & H1 & H2 & _ & _ & H5 & _) & _).
  assert (Eu : u = [(1, 0); (0, 0)])
    by (apply fin_inj; injection Hu as <-; reflexivity).
  assert (Ev : v = [(1, 0); (0, 0)])
    by (apply fin_inj; injection Hv as <-; reflexivity).
  rewrite Eu, Ev in H1.
  split; [exact H1 |]. split; [reflexivity |].
  exists d. split; [exact H2 | exact H5].
Defined.

(** C8, as stated, fails: on the 1 x 1 array [[0]] the row that the
    division leaves is [[nan]], the test [nz.size] of the loop body is true
    and the gauge-fix statement is what the loop body does to the row. *)
Lemma zero_row_gauge_runs :
  FrameM.renormalise (mkFrame 0) [zero11]
  = (Ok tt, [mkarray [1; 1]%nat complex128 [[None]]]) /\
  normalise_row (fin [(0, 0)]) = [None] /\
  nz_size (normalise_row (fin [(0, 0)])) <> 0%nat /\
  gauge_row (normalise_row (fin [(0, 0)]))
  = gauge_statement None (normalise_row (fin [(0, 0)])) /\
  gauge_row (normalise_row (fin [(0, 0)])) <> fin [(0, 0)].
Proof.
  assert (Hn : normalise_row (fin [(0, 0)]) = [None]).
  { rewrite normalise_zero; [reflexivity |].
    unfold sumsq, Cplx.abs2. simpl. ring. }
  split.
  { unfold FrameM.renormalise, bind, get, put. simpl.
    rewrite renormalise_rows_map. simpl.
    change [cx 0 0] with (fin [(0, 0)]).
    rewrite renormalise_row_zero; [reflexivity |].
    unfold sumsq, Cplx.abs2. simpl. ring. }
  rewrite Hn. split; [reflexivity |]. split; [discriminate |].
  split; [reflexivity | discriminate].
Qed.

Lemma renormalise_zero_row_witness :
  exists h' : heap,
    FrameM.renormalise (mkFrame 0) [zero11] = (Ok tt, h') /\
    normalise_row (fin [(0, 0)]) = [None] /\
    nz_size (normalise_row (fin [(0, 0)])) = 1%nat /\
    nth_error (data (load h' 0)) 0 = Some [None].
Proof.
  destruct (renormalise_zero_row (mkFrame 0) [zero11] 0 [(0, 0)]
              (Nat.lt_0_succ 0) eq_refl
              (Forall_cons (0, 0) eq_refl (Forall_nil _)))
    as (h' & H1 & H2 & H3 & _ & H4).
  exists h'. split; [exact H1 |]. split; [exact H2 |].
  split; [exact H3 | exact H4].
Defined.

Lemma shape_mismatch_iff_witness :
  ndim (load [base10; zero11] 0) = 2%nat /\
  FrameM.retract (mkFrame 0) 1 [base10; zero11]
  = (ValueError "Tangent array shape mismatch.", [base10; zero11]).
Proof.
  split; [reflexivity |].
  destruct (shape_mismatch_iff (mkFrame 0) (mkFrame 0) 1 [base10; zero11]
              eq_refl) as (Hr & _ & Hh & _).
  destruct (proj2 Hr) as (msg & Hm).
  - simpl. discriminate.
  - destruct (FrameM.retract (mkFrame 0) 1 [base10; zero11]) as [r h'] eqn:E.
    simpl in Hm. subst r. rewrite (Hh msg h' eq_refl).
    rewrite retract_mismatch in E by (simpl; discriminate).
    injection E as <- _. reflexivity.
Defined.

Lemma init_does_not_renormalise_witness :
  exists (f : Frame) (h' : heap),
    FrameM.init 0 [row_two] = (Ok f, h') /\
    data (load h' (vectors f)) = data row_two.
Proof.
  destruct (init_does_not_renormalise 0 [row_two] (Nat.lt_0_succ 0))
    as (_ & H & _).
  destruct (H eq_refl) as (f & h' & H1 & _ & _ & H4 & _).
  exists f, h'. split; [exact H1 | exact H4].
Defined.

(** * Further properties of the code *)

(** ** Construction: errors, copies and aliasing *)

Lemma ndim_live (h : heap) (l : nat) :
  ndim (load h l) = 2%nat -> (l < List.length h)%nat.
Proof.
  intros H. destruct (lt_dec l (List.length h)) as [Hl | Hl]; [exact Hl |].
  unfold load in H. rewrite nth_overflow in H by lia. discriminate H.
Qed.

(** X1.  [from_array] raises exactly when the array is not 2-D; the error is
    its own ([`arr` must be 2-D (n, d)], never the one of [__post_init__]),
    and it is raised before any copy is made: the heap is left as it was. *)
Theorem from_array_rejects_non_2d (arr : nat) (copy : bool) (h : heap) :
  ((exists msg, fst (FrameM.from_array arr copy h) = ValueError msg) <->
   ndim (load h arr) <> 2%nat) /\
  (forall msg h', FrameM.from_array arr copy h = (ValueError msg, h') ->
     msg = "`arr` must be 2-D (n, d)"%string /\ h' = h).
Proof.
  assert (Hok : ndim (load h arr) = 2%nat ->
    forall msg h', FrameM.from_array arr copy h <> (ValueError msg, h')).
  { intros H2 msg h' E.
    destruct (from_array_ok arr copy h (ndim_live _ _ H2) H2) as (f & h1 & E1 & _).
    congruence. }
  split; [split |].
  - intros (msg & E) H2.
    destruct (FrameM.from_array arr copy h) as [r h'] eqn:E'. simpl in E.
    subst r. exact (Hok H2 msg h' eq_refl).
  - intros Hn. rewrite (from_array_error arr copy h Hn). simpl. eauto.
  - intros msg h' E.
    destruct (Nat.eq_dec (ndim (load h arr)) 2) as [H2 | Hn].
    + exfalso. exact (Hok H2 msg h' E).
    + rewrite (from_array_error arr copy h Hn) in E.
      inversion E. split; reflexivity.
Qed.

Lemma store_app_second (h : heap) (a b c : ndarray) :
  store (h ++ [a; b]) (S (List.length h)) c = h ++ [a; c].
Proof. induction h as [|x h IH]; simpl; [reflexivity | now rewrite IH]. Qed.

Lemma load_app_second (h : heap) (a b : ndarray) :
  load (h ++ [a; b]) (S (List.length h)) = b.
Proof.
  unfold load. rewrite app_nth2 by lia.
  replace (S (List.length h) - List.length h)%nat with 1%nat by lia.
  reflexivity.
Qed.

Lemma dtype_eqb_neq (a b : dtype) : dtype_eqb a b = false <-> a <> b.
Proof. destruct a, b; simpl; split; intros H; congruence. Qed.

(** X2.  What [from_array] does to the caller's array.  With [copy=False] and
    an array that is complex128 already, the frame refers to the caller's
    array itself and that array is renormalised in place; with [copy=False]
    and another element type, [astype] makes the one new array; with
    [copy=True] the work is done on new arrays only (the copy, and a second
    array when the element type must be converted). *)
Theorem from_array_copy_flag (arr : nat) (h : heap) :
  ndim (load h arr) = 2%nat ->
  let a := load h arr in
  let out := mkarray (shape a) complex128 (renormalise_rows (data a)) in
  (dtype_of a = complex128 ->
     FrameM.from_array arr false h = (Ok (mkFrame arr), store h arr out) /\
     FrameM.from_array arr true h
     = (Ok (mkFrame (List.length h)), h ++ [out])) /\
  (dtype_of a <> complex128 ->
     FrameM.from_array arr false h
     = (Ok (mkFrame (List.length h)), h ++ [out]) /\
     FrameM.from_array arr true h
     = (Ok (mkFrame (S (List.length h))), h ++ [a; out])).
Proof.
  intros Hnd a out. subst a out. split; intros Hdt.
  - assert (Hc : iscomplexobj (load h arr) = true)
      by (unfold iscomplexobj; now rewrite Hdt).
    split.
    + unfold FrameM.from_array, bind, get. rewrite Hnd. simpl.
      unfold ret, astype_complex128, bind, get. rewrite Hdt. simpl.
      unfold FrameM.init, bind, get. rewrite Hnd, Hdt, Hc. simpl.
      unfold FrameM.renormalise, bind, get, put. simpl.
      now rewrite Hdt.
    + unfold FrameM.from_array, bind, get. rewrite Hnd. simpl.
      unfold array_copy, bind, get, alloc. simpl.
      unfold astype_complex128, bind, get. rewrite load_app_new, Hdt. simpl.
      unfold FrameM.init, bind, get. rewrite load_app_new, Hnd, Hdt, Hc. simpl.
      unfold FrameM.renormalise, bind, get, put. simpl.
      now rewrite load_app_new, Hdt, store_app_new.
  - apply dtype_eqb_neq in Hdt. split.
    + unfold FrameM.from_array, bind, get. rewrite Hnd. simpl.
      unfold ret, astype_complex128, bind, get. rewrite Hdt. simpl.
      unfold alloc. simpl.
      unfold FrameM.init, bind, get. rewrite load_app_new.
      unfold ndim in *. simpl. rewrite Hnd. simpl.
      unfold FrameM.renormalise, bind, get, put. simpl.
      now rewrite load_app_new, store_app_new.
    + unfold FrameM.from_array, bind, get. rewrite Hnd. simpl.
      unfold array_copy, bind, get, alloc. simpl.
      unfold astype_complex128, bind, get. rewrite load_app_new, Hdt. simpl.
      unfold alloc. simpl.
      unfold FrameM.init, bind, get.
      rewrite <- app_assoc. simpl. rewrite length_app. simpl.
      replace (List.length h + 1)%nat with (S (List.length h)) by lia.
      rewrite load_app_second.
      unfold ndim in *. simpl. rewrite Hnd. simpl.
      unfold FrameM.renormalise, bind, get, put. simpl.
      now rewrite load_app_second, store_app_second.
Qed.

Lemma from_array_copy_flag_witness :
  FrameM.from_array 0 false [row_two]
  = (Ok (mkFrame 0),
     [mkarray [1; 2]%nat complex128 (renormalise_rows (data row_two))]) /\
  FrameM.from_array 0 true [row_two]
  = (Ok (mkFrame 1),
     [row_two;
      mkarray [1; 2]%nat complex128 (renormalise_rows (data row_two))]).
Proof.
  exact (proj1 (from_array_copy_flag 0 [row_two] eq_refl) eq_refl).
Defined.

Lemma valid_rows_nonzero (m : list (list xC)) :
  valid_rows m -> Forall nonzero_norm m.
Proof.
  intros H. eapply Forall_impl; [| exact H].
  intros v [Hu _]. exists 1. split; [exact Hu | lra].
Qed.

(** X3.  [copy] of a valid frame gives a valid frame with the same rows on a
    new array: no existing array changes, and a later write to the copy's
    array is not seen through the original frame. *)
Theorem copy_independent (self : Frame) (h : heap) :
  valid_frame self h ->
  exists (f' : Frame) (h' : heap),
    FrameM.copy self h = (Ok f', h') /\
    valid_frame f' h' /\
    (List.length h <= vectors f')%nat /\
    data (load h' (vectors f')) = data (load h (vectors self)) /\
    shape (load h' (vectors f')) = shape (load h (vectors self)) /\
    (forall l, (l < List.length h)%nat -> load h' l = load h l) /\
    (forall a : ndarray,
       load (store h' (vectors f') a) (vectors self)
       = load h (vectors self)).
Proof.
  intros (Hl & Hw & Hv). unfold FrameM.copy.
  destruct (from_array_valid (vectors self) true h Hl Hw
              (valid_rows_nonzero _ Hv))
    as (f' & h' & E & Hv' & Hd & Hs & Hlen & Hold & Hfresh).
  specialize (Hfresh eq_refl).
  exists f', h'. split; [exact E |]. split; [exact Hv' |].
  split; [exact Hfresh |].
  split; [now rewrite Hd, renormalise_rows_fixed |].
  split; [exact Hs |].
  assert (Hold' : forall l, (l < List.length h)%nat -> load h' l = load h l)
    by (intros l Hlt; apply Hold; lia).
  split; [exact Hold' |].
  intros a. rewrite load_store_other by lia. now apply Hold'.
Qed.

Lemma copy_independent_witness :
  valid_frame (mkFrame 0) [eye2] /\
  exists (f' : Frame) (h' : heap),
    FrameM.copy (mkFrame 0) [eye2] = (Ok f', h') /\
    data (load h' (vectors f')) = data eye2 /\
    load h' 0 = eye2.
Proof.
  split; [exact eye2_frame_valid |].
  destruct (copy_independent (mkFrame 0) [eye2] eye2_frame_valid)
    as (f' & h' & H1 & _ & _ & H2 & _ & H3 & _).
  exists f', h'. split; [exact H1 |]. split; [exact H2 |].
  exact (H3 0%nat (Nat.lt_0_succ 0)).
Defined.

(** ** The tangent projection, further *)

Lemma nth_error_map2_eq {A B D : Type} (f : A -> B -> D) (l : list A)
    (m : list B) (i : nat) :
  nth_error (Np.map2 f l m) i
  = match nth_error l i, nth_error m i with
    | Some a, Some b => Some (f a b)
    | _, _ => None
    end.
Proof.
  revert m i. induction l as [|x l IH]; intros [|y m] [|i]; simpl;
    try reflexivity.
  - now destruct (nth_error l i).
  - apply IH.
Qed.



Lemma length_sub_scal (a f : list C) (r : R) :
  List.length a = List.length f ->
  List.length (Np.map2 Cplx.sub a (map (scal r) f)) = List.length f.
Proof.
  intros H. rewrite length_map2 by (rewrite length_map; exact H). exact H.
Qed.



Lemma project_run (self : Frame) (arr : nat) (h : heap) :
  FrameM.project self arr h
  = (Ok (List.length h),
     h ++ [mkarray (shape (load h (vectors self))) complex128
             (project_rows (data (load h (vectors self)))
                           (data (load h arr)))]).
Proof. reflexivity. Qed.

(** The rows of a valid frame and of an array of its shape without NaN, row
    by row: numbers, the frame's row of norm one, the two of one length. *)
Lemma frame_rows (self : Frame) (arr : nat) (h : heap) (i : nat)
    (frow arow : list xC) :
  valid_frame self h ->
  well_shaped (load h arr) ->
  shape (load h arr) = shape (load h (vectors self)) ->
  no_nans (data (load h arr)) ->
  nth_error (data (load h (vectors self))) i = Some frow ->
  nth_error (data (load h arr)) i = Some arow ->
  exists f a : list C,
    frow = fin f /\ arow = fin a /\ sumsq f = 1 /\
    List.length a = List.length f.
Proof.
  intros (Hl & Hw & Hv) Hwa Hsh Hfin Hf Hr.
  pose proof (Forall_nth_error _ _ _ _ Hv Hf) as [Hu _].
  destruct (valid_row_fin frow Hu) as (f & -> & Hs).
  destruct (Forall_nth_error _ _ _ _ Hfin Hr) as (a & ->).
  exists f, a. repeat split; try assumption.
  rewrite <- !fin_length.
  eapply (same_shape_rows (load h arr) (load h (vectors self))); eauto.
Qed.





(** ** The logarithm, further *)

Lemma two_frames_rows (self other : Frame) (h : heap) (i : nat)
    (f g : list C) :
  valid_frame self h -> valid_frame other h ->
  shape (load h (vectors self)) = shape (load h (vectors other)) ->
  nth_error (data (load h (vectors self))) i = Some (fin f) ->
  nth_error (data (load h (vectors other))) i = Some (fin g) ->
  sumsq f = 1 /\ sumsq g = 1 /\ List.length g = List.length f /\
  -1 <= rdot f g <= 1.
Proof.
  intros (Hl & Hw & Hv) (Hlo & Hwo & Hvo) Hs Hi Hj.
  pose proof (Forall_nth_error _ _ _ _ Hv Hi) as Hvf.
  pose proof (Forall_nth_error _ _ _ _ Hvo Hj) as Hvg.
  destruct (valid_row_fin _ (proj1 Hvf)) as (f' & Ef & Hsf).
  apply fin_inj in Ef. subst f'.
  destruct (valid_row_fin _ (proj1 Hvg)) as (g' & Eg & Hsg).
  apply fin_inj in Eg. subst g'.
  assert (Hlen : List.length g = List.length f).
  { rewrite <- !fin_length. symmetry.
    eapply (same_shape_rows (load h (vectors self))
                            (load h (vectors other))); eauto. }
  repeat split; try assumption;
    apply rdot_unit_bound; try assumption; now symmetry.
Qed.

Lemma log_row_tangent (f g : list C) :
  sumsq f = 1 -> List.length g = List.length f -> -1 <= rdot f g <= 1 ->
  rdot f (log_row f g) = 0.
Proof.
  intros Hf Hl Hc. unfold log_row. rewrite (clip_id _ Hc).
  rewrite rdot_scal_r, rdot_sub_scal by auto.
  rewrite rdot_self, Hf. ring.
Qed.

Lemma log_row_norm (f g : list C) :
  sumsq f = 1 -> sumsq g = 1 -> List.length g = List.length f ->
  -1 <= rdot f g <= 1 -> acos (rdot f g) < PI ->
  sqrt (sumsq (log_row f g))
  = if Rlt_dec tiny (acos (rdot f g)) then acos (rdot f g) else 0.
Proof.
  intros Hf Hg Hl Hc Hpi. unfold log_row. rewrite (clip_id _ Hc).
  rewrite sumsq_scal, (sumsq_diff_unit f g _ Hf Hg Hl eq_refl).
  rewrite <- (sin_acos_sq _ Hc).
  set (theta := acos (rdot f g)) in *.
  destruct (Rlt_dec tiny theta) as [Ht | Ht].
  - pose proof tiny_pos.
    assert (Hs : 0 < sin theta) by (apply sin_gt_0; lra).
    replace (theta / sin theta * (theta / sin theta)
             * (sin theta * sin theta)) with (theta * theta)
      by (field; lra).
    apply sqrt_square. lra.
  - replace (0 * 0 * (sin theta * sin theta)) with 0 by ring.
    apply sqrt_0.
Qed.

(** X6.  The array that [log_map] returns for two valid frames of one shape
    (no row of the second opposite to the row of the first) is tangent at the
    first frame, [Re<F_i, xi_i> = 0], and the norm of each row is the angle
    [theta_i = arccos Re<F_i, G_i>] between the two rows, or zero when that
    angle is at most [1e-12]; no existing array changes. *)
Theorem log_map_tangent_norm (self other : Frame) (h : heap) :
  valid_frame self h ->
  valid_frame other h ->
  shape (load h (vectors self)) = shape (load h (vectors other)) ->
  (forall i f g,
     nth_error (data (load h (vectors self))) i = Some (fin f) ->
     nth_error (data (load h (vectors other))) i = Some (fin g) ->
     acos (rdot f g) < PI) ->
  exists (l : nat) (h' : heap),
    FrameM.log_map self other h = (Ok l, h') /\
    (forall k, (k < List.length h)%nat -> load h' k = load h k) /\
    shape (load h' l) = shape (load h (vectors self)) /\
    (forall i f g,
       nth_error (data (load h (vectors self))) i = Some (fin f) ->
       nth_error (data (load h (vectors other))) i = Some (fin g) ->
       exists xi : list C,
         nth_error (data (load h' l)) i = Some (fin xi) /\
         inner_re (fin f) (fin xi) = Some 0 /\
         sqrt (sumsq xi)
         = if Rlt_dec tiny (acos (rdot f g)) then acos (rdot f g) else 0).
Proof.
  intros Hv Hvo Hs Hang.
  rewrite (log_map_match self other h Hs).
  eexists _, _. split; [reflexivity |].
  split; [intros k Hk; now apply load_app_old |].
  rewrite load_app_new. simpl. split; [reflexivity |].
  intros i f g Hi Hj.
  destruct (two_frames_rows self other h i f g Hv Hvo Hs Hi Hj)
    as (Hf & Hg & Hl & Hc).
  pose proof (Hang i f g Hi Hj) as Hpi.
  exists (log_row f g). split; [| split].
  - unfold log_map_rows. rewrite (nth_error_map2 _ _ _ _ _ _ Hi Hj).
    rewrite log_map_row_fin by (rewrite (clip_id _ Hc); exact Hpi).
    reflexivity.
  - rewrite inner_re_fin. f_equal. now apply log_row_tangent.
  - now apply log_row_norm.
Qed.

Lemma log_map_tangent_norm_witness :
  valid_frame (mkFrame 0) [base10; base01] /\
  valid_frame (mkFrame 1) [base10; base01] /\
  exists (l : nat) (h' : heap),
    FrameM.log_map (mkFrame 0) (mkFrame 1) [base10; base01] = (Ok l, h') /\
    exists xi : list C,
      nth_error (data (load h' l)) 0 = Some (fin xi) /\
      inner_re (fin [(1, 0); (0, 0)]) (fin xi) = Some 0.
Proof.
  split; [exact (proj1 heap10_01_frames) |].
  split; [exact (proj2 heap10_01_frames) |].
  destruct (log_map_tangent_norm (mkFrame 0) (mkFrame 1) [base10; base01]
              (proj1 heap10_01_frames) (proj2 heap10_01_frames)
              eq_refl angle_10_01)
    as (l & h' & H1 & _ & _ & H2).
  exists l, h'. split; [exact H1 |].
  destruct (H2 0%nat [(1, 0); (0, 0)] [(0, 0); (1, 0)] eq_refl eq_refl)
    as (xi & Hx & Ht & _).
  exists xi. split; [exact Hx | exact Ht].
Defined.

Lemma log_row_self (f : list C) :
  sumsq f = 1 -> log_row f f = map (fun _ => (0, 0)) f.
Proof.
  intros Hf. unfold log_row. rewrite rdot_self, Hf.
  rewrite clip_id by lra. rewrite acos_1.
  pose proof tiny_pos.
  destruct (Rlt_dec tiny 0) as [Ht | _]; [lra |].
  assert (E : forall u : list C,
            map (scal 0) u = map (fun _ => (0, 0)) u).
  { intros u. apply map_ext. intros z. apply scal_0. }
  rewrite E.
  assert (Hlen : List.length (Np.map2 Cplx.sub f (map (scal 1) f))
                 = List.length f)
    by (apply length_sub_scal; reflexivity).
  rewrite !map_const_repeat. f_equal. exact Hlen.
Qed.

(** X7.  [log_map] of a valid frame to itself is the zero array: the angle is
    zero, the mask [theta > 1e-12] is false and no division by [sin 0]
    takes place. *)
Theorem log_map_self_zero (self : Frame) (h : heap) :
  valid_frame self h ->
  exists (l : nat) (h' : heap),
    FrameM.log_map self self h = (Ok l, h') /\
    shape (load h' l) = shape (load h (vectors self)) /\
    data (load h' l)
    = map (map (fun _ => Some (0, 0))) (data (load h (vectors self))).
Proof.
  intros Hv. rewrite (log_map_match self self h eq_refl).
  eexists _, _. split; [reflexivity |].
  rewrite load_app_new. simpl. split; [reflexivity |].
  destruct Hv as (_ & _ & Hv).
  induction Hv as [| r m Hr Hm IH]; [reflexivity |].
  unfold log_map_rows in *. cbn [Np.map2 map]. rewrite IH. f_equal.
  destruct (valid_row_fin r (proj1 Hr)) as (f & -> & Hf).
  rewrite log_map_row_fin.
  - rewrite (log_row_self f Hf). unfold fin. rewrite !map_map. reflexivity.
  - rewrite rdot_self, Hf. rewrite clip_id by lra. rewrite acos_1.
    apply PI_RGT_0.
Qed.

Lemma log_map_self_zero_witness :
  valid_frame (mkFrame 0) [eye2] /\
  exists (l : nat) (h' : heap),
    FrameM.log_map (mkFrame 0) (mkFrame 0) [eye2] = (Ok l, h') /\
    data (load h' l)
    = [[Some (0, 0); Some (0, 0)]; [Some (0, 0); Some (0, 0)]].
Proof.
  split; [exact eye2_frame_valid |].
  destruct (log_map_self_zero (mkFrame 0) [eye2] eye2_frame_valid)
    as (l & h' & H1 & _ & H2).
  exists l, h'. split; [exact H1 | exact H2].
Defined.

(** ** What [renormalise] does to a row of numbers *)

Lemma sumsq_split_pos (zs : list C) (p : C) (rest : list C) :
  p <> (0, 0) -> 0 < sumsq (zs ++ p :: rest).
Proof.
  intros Hp. rewrite sumsq_app. simpl.
  pose proof (sumsq_nonneg zs). pose proof (sumsq_nonneg rest).
  pose proof (abs2_pos p Hp). lra.
Qed.

Lemma renormalise_row_split (zs : list C) (p : C) (rest : list C) :
  Forall (fun z => z = (0, 0)) zs -> p <> (0, 0) ->
  renormalise_row (fin (zs ++ p :: rest))
  = fin (map (rot (Cplx.angle (divr (sqrt (sumsq (zs ++ p :: rest))) p)))
           (map (divr (sqrt (sumsq (zs ++ p :: rest)))) (zs ++ p :: rest))).
Proof.
  intros Hz Hp. pose proof (sumsq_split_pos zs p rest Hp) as Hs.
  unfold renormalise_row. rewrite normalise_fin by lra.
  set (n := sqrt (sumsq (zs ++ p :: rest))).
  assert (Hn : 0 < n) by (apply sqrt_lt_R0; exact Hs).
  rewrite map_app. cbn [map].
  rewrite gauge_fin;
    [reflexivity
    | apply map_zeros; [apply divr_zero | exact Hz]
    | apply divr_nonzero; [lra | exact Hp]].
Qed.


Lemma abs2_mul (c z : C) :
  Cplx.abs2 (Cplx.mul c z) = Cplx.abs2 c * Cplx.abs2 z.
Proof.
  destruct c as [a b], z as [x y]. unfold Cplx.abs2, Cplx.mul. simpl. ring.
Qed.








(** ** [retract] along a tangent array *)

Lemma renormalise_row_phase (w : list C) :
  sumsq w <> 0 ->
  exists phi : R,
    renormalise_row (fin w)
    = fin (map (rot phi) (map (divr (sqrt (sumsq w))) w)).
Proof.
  intros Hs.
  destruct (split_first_nonzero w) as [Hz | (zs & p & rest & -> & Hz & Hp)].
  - apply sumsq_zeros in Hz. contradiction.
  - eexists. apply (renormalise_row_split zs p rest Hz Hp).
Qed.

Lemma geodesic_norm (f xi : list C) :
  sumsq f = 1 -> List.length xi = List.length f -> rdot f xi = 0 ->
  sumsq (geodesic_row f xi)
  = if Rlt_dec (sqrt (sumsq xi)) tiny
    then 1 + sumsq xi * sumsq xi / 4
    else 1.
Proof.
  intros Hf Hl Ht. pose proof tiny_pos as Htp.
  assert (Hsq : sqrt (sumsq xi) * sqrt (sumsq xi) = sumsq xi)
    by (apply sqrt_sqrt, sumsq_nonneg).
  unfold geodesic_row.
  set (theta := sqrt (sumsq xi)) in *.
  destruct (Rlt_dec theta tiny) as [Hs | Hs].
  - rewrite sumsq_add_scal by exact Hl. rewrite Hf, Ht, <- Hsq. field.
  - rewrite sumsq_add_scal by (now rewrite length_map).
    rewrite Hf, rdot_scal_r, Ht, sumsq_scal, <- Hsq.
    replace (sin theta / theta * (sin theta / theta) * (theta * theta))
      with (sin theta * sin theta) by (field; lra).
    pose proof (sin2_cos2 theta) as H. unfold Rsqr in H. lra.
Qed.

Lemma geodesic_norm_pos (f xi : list C) :
  sumsq f = 1 -> List.length xi = List.length f -> rdot f xi = 0 ->
  1 <= sumsq (geodesic_row f xi).
Proof.
  intros Hf Hl Ht. rewrite geodesic_norm by assumption.
  pose proof (sumsq_nonneg xi).
  destruct (Rlt_dec (sqrt (sumsq xi)) tiny); nra.
Qed.

Lemma length_new_vecs_row (f xi : list xC) :
  List.length xi = List.length f ->
  List.length (new_vecs_row f xi) = List.length f.
Proof.
  intros H. unfold new_vecs_row.
  rewrite length_map2 by (now rewrite !length_map).
  apply length_map.
Qed.

Lemma well_shaped_new_vecs (v t : ndarray) (ty : dtype) :
  well_shaped v -> well_shaped t -> shape t = shape v ->
  well_shaped (mkarray (shape v) ty (new_vecs (data v) (data t))).
Proof.
  intros Hv Ht Hs.
  pose proof (well_shaped_nrows _ _ Ht Hv Hs) as Hn.
  destruct Hv as (d & Hsv & Hrv).
  assert (Hv : well_shaped v) by (exists d; auto).
  exists d. simpl. split.
  - unfold new_vecs. rewrite length_map2 by (now symmetry). exact Hsv.
  - apply Forall_forall. intros r Hr.
    apply In_nth_error in Hr. destruct Hr as (i & Hi).
    unfold new_vecs in Hi. rewrite nth_error_map2_eq in Hi.
    destruct (nth_error (data v) i) as [fr|] eqn:Ef; [| discriminate].
    destruct (nth_error (data t) i) as [xr|] eqn:Ex; [| discriminate].
    injection Hi as <-.
    rewrite length_new_vecs_row.
    + exact (well_shaped_row v _ d i fr Hv Hsv Ef).
    + exact (same_shape_rows t v i xr fr Ht Hv Hs Ex Ef).
Qed.

(** X9.  [retract] of a valid frame along a tangent array (numbers, of the
    frame's shape, [Re<F_i, xi_i> = 0] and [|xi_i|^2 <= 1e300] in every row)
    returns a valid frame: the point that the geodesic step reaches has norm
    one when [|xi_i| >= 1e-12], and norm [sqrt(1 + |xi_i|^4 / 4)] in the
    first-order fallback, so the division in [renormalise] is by a number
    that is at least one and the returned row is that point divided by its
    norm and turned by a phase.  The bound on [|xi_i|] keeps the squares that
    [np.linalg.norm] adds up within the range of double precision; the
    equalities are those of exact arithmetic. *)
Theorem retract_tangent_valid (self : Frame) (tang : nat) (h : heap) :
  valid_frame self h ->
  (tang < List.length h)%nat ->
  well_shaped (load h tang) ->
  shape (load h tang) = shape (load h (vectors self)) ->
  no_nans (data (load h tang)) ->
  Forall norm_bounded (data (load h tang)) ->
  (forall i frow xrow,
     nth_error (data (load h (vectors self))) i = Some frow ->
     nth_error (data (load h tang)) i = Some xrow ->
     inner_re frow xrow = Some 0) ->
  exists (fr : Frame) (h' : heap),
    FrameM.retract self tang h = (Ok fr, h') /\
    valid_frame fr h' /\
    (forall i f xi,
       nth_error (data (load h (vectors self))) i = Some (fin f) ->
       nth_error (data (load h tang)) i = Some (fin xi) ->
       exists (y : list C) (phi : R),
         new_vecs_row (fin f) (fin xi) = fin y /\
         sumsq y = (if Rlt_dec (sqrt (sumsq xi)) tiny
                    then 1 + sumsq xi * sumsq xi / 4 else 1) /\
         nth_error (data (load h' (vectors fr))) i
         = Some (fin (map (rot phi) (map (divr (sqrt (sumsq y))) y)))).
Proof.
  intros Hv Ht Hwt Hs Hfin _ Htan.
  pose proof Hv as (Hl & Hw & Hvr).
  set (a := mkarray (shape (load h (vectors self))) complex128
              (new_vecs (data (load h (vectors self)))
                        (data (load h tang)))).
  assert (Hrows : forall i frow xrow,
    nth_error (data (load h (vectors self))) i = Some frow ->
    nth_error (data (load h tang)) i = Some xrow ->
    exists f xi, frow = fin f /\ xrow = fin xi /\ sumsq f = 1 /\
      List.length xi = List.length f /\ rdot f xi = 0).
  { intros i frow xrow Ef Ex.
    destruct (frame_rows self tang h i frow xrow Hv Hwt Hs Hfin Ef Ex)
      as (f & xi & -> & -> & Hf & Hlen).
    exists f, xi. repeat split; try assumption.
    specialize (Htan i _ _ Ef Ex). rewrite inner_re_fin in Htan.
    now injection Htan. }
  assert (Hwa : well_shaped a) by (now apply well_shaped_new_vecs).
  assert (Hnz : Forall nonzero_norm (data a)).
  { apply Forall_forall. intros r Hr.
    apply In_nth_error in Hr. destruct Hr as (i & Hi).
    unfold a, new_vecs in Hi. simpl in Hi. rewrite nth_error_map2_eq in Hi.
    destruct (nth_error (data (load h (vectors self))) i) as [fr|] eqn:Ef;
      [| discriminate].
    destruct (nth_error (data (load h tang)) i) as [xr|] eqn:Ex;
      [| discriminate].
    injection Hi as <-.
    destruct (Hrows i fr xr Ef Ex) as (f & xi & -> & -> & Hf & Hlen & H0).
    rewrite new_vecs_row_fin.
    exists (sqrt (sumsq (geodesic_row f xi))). split; [apply norm_fin |].
    pose proof (geodesic_norm_pos f xi Hf Hlen H0) as H1.
    intros E. apply sqrt_eq_0 in E; lra. }
  destruct (from_array_fresh a h Hwa Hnz) as (fr & h' & Hrun & Hvf & Hd).
  exists fr, h'. split; [| split; [exact Hvf |]].
  - unfold FrameM.retract, bind, get, alloc. rewrite Hs.
    replace (shape_eqb _ _) with true by (symmetry; now apply shape_eqb_eq).
    exact Hrun.
  - intros i f xi Ef Ex.
    destruct (Hrows i _ _ Ef Ex) as (f' & xi' & E1 & E2 & Hf & Hlen & H0).
    apply fin_inj in E1. apply fin_inj in E2. subst f' xi'.
    pose proof (geodesic_norm_pos f xi Hf Hlen H0) as H1.
    destruct (renormalise_row_phase (geodesic_row f xi)) as (phi & Hphi);
      [lra |].
    exists (geodesic_row f xi), phi.
    split; [apply new_vecs_row_fin |].
    split; [now apply geodesic_norm |].
    rewrite Hd, renormalise_rows_map. unfold a, new_vecs. simpl.
    rewrite (map_nth_error _ _ _ (nth_error_map2 _ _ _ _ _ _ Ef Ex)).
    now rewrite new_vecs_row_fin, Hphi.
Qed.

Lemma base01_bounded : Forall norm_bounded (data base01).
Proof.
  constructor; [| constructor]. intros w Hw.
  change [cx 0 0; cx 1 0] with (fin [(0, 0); (1, 0)]) in Hw.
  apply fin_inj in Hw. subst w. unfold sumsq, Cplx.abs2. simpl. lra.
Qed.

Lemma tangent_rows_10_01 (i : nat) (frow xrow : list xC) :
  nth_error (data (load [base10; base01] 0)) i = Some frow ->
  nth_error (data (load [base10; base01] 1)) i = Some xrow ->
  inner_re frow xrow = Some 0.
Proof.
  intros Hf Hx. destruct i as [|i].
  - simpl in Hf, Hx. injection Hf as <-. injection Hx as <-.
    change (inner_re (fin [(1, 0); (0, 0)]) (fin [(0, 0); (1, 0)]) = Some 0).
    rewrite inner_re_fin. f_equal. simpl. ring.
  - simpl in Hf. destruct i; discriminate.
Qed.

Lemma retract_tangent_valid_witness :
  valid_frame (mkFrame 0) [base10; base01] /\
  Forall norm_bounded (data base01) /\
  exists (fr : Frame) (h' : heap),
    FrameM.retract (mkFrame 0) 1 [base10; base01] = (Ok fr, h') /\
    valid_frame fr h'.
Proof.
  split; [exact (proj1 heap10_01_frames) |].
  split; [exact base01_bounded |].
  destruct (retract_tangent_valid (mkFrame 0) 1 [base10; base01]
              (proj1 heap10_01_frames) (Nat.lt_succ_diag_r 1)
              (well_shaped_1x2 complex128 [cx 0 0; cx 1 0] eq_refl)
              eq_refl no_nans_base01 base01_bounded tangent_rows_10_01)
    as (fr & h' & H1 & H2 & _).
  exists fr, h'. split; [exact H1 | exact H2].
Defined.

(** ** The Gram matrix of a valid frame *)

Lemma cs_step (x y s1 s2 al be U V : R) :
  0 <= al -> 0 <= be -> 0 <= U -> 0 <= V ->
  x * x + y * y = al * be -> s1 * s1 + s2 * s2 <= U * V ->
  (x + s1) * (x + s1) + (y + s2) * (y + s2) <= (al + U) * (be + V).
Proof.
  intros Ha Hb HU HV Hm Hs.
  set (t := x * s1 + y * s2).
  assert (Ht : t * t <= al * be * (U * V)).
  { assert (E : (x * x + y * y) * (s1 * s1 + s2 * s2) - t * t
                = (x * s2 - y * s1) * (x * s2 - y * s1))
      by (unfold t; ring).
    pose proof (Rle_0_sqr (x * s2 - y * s1)) as Hq. unfold Rsqr in Hq.
    assert (H1 : t * t <= (x * x + y * y) * (s1 * s1 + s2 * s2)) by lra.
    rewrite Hm in H1.
    assert (H2 : al * be * (s1 * s1 + s2 * s2) <= al * be * (U * V)).
    { apply Rmult_le_compat_l; [| exact Hs].
      apply Rmult_le_pos; assumption. }
    lra. }
  assert (Hw : 0 <= al * V + be * U)
    by (pose proof (Rmult_le_pos _ _ Ha HV);
        pose proof (Rmult_le_pos _ _ Hb HU); lra).
  assert (H4 : 4 * (t * t) <= (al * V + be * U) * (al * V + be * U)).
  { pose proof (Rle_0_sqr (al * V - be * U)) as Hq. unfold Rsqr in Hq.
    assert (E : (al * V + be * U) * (al * V + be * U)
                = (al * V - be * U) * (al * V - be * U)
                  + 4 * (al * be * (U * V))) by ring.
    lra. }
  assert (H2t : 2 * t <= al * V + be * U).
  { destruct (Rle_lt_dec (2 * t) (al * V + be * U)) as [H | H];
      [exact H |].
    exfalso.
    assert ((al * V + be * U) * (al * V + be * U) < 2 * t * (2 * t))
      by (apply Rmult_le_0_lt_compat; lra).
    lra. }
  replace ((x + s1) * (x + s1) + (y + s2) * (y + s2))
    with (x * x + y * y + (s1 * s1 + s2 * s2) + 2 * t) by (unfold t; ring).
  rewrite Hm.
  replace ((al + U) * (be + V))
    with (al * be + U * V + (al * V + be * U)) by ring.
  lra.
Qed.

(** Cauchy-Schwarz for the Hermitian product. *)
Lemma cdot_bound (u v : list C) :
  Cplx.abs2 (cdot u v) <= sumsq u * sumsq v.
Proof.
  revert v. induction u as [|a u IH]; intros [|b v].
  - unfold cdot, Cplx.abs2. simpl. lra.
  - unfold cdot, Cplx.abs2. simpl.
    pose proof (abs2_nonneg b). pose proof (sumsq_nonneg v). lra.
  - unfold cdot, Cplx.abs2. simpl.
    pose proof (abs2_nonneg a). pose proof (sumsq_nonneg u). nra.
  - specialize (IH v).
    change (cdot (a :: u) (b :: v))
      with (Cplx.add (Cplx.mul a (Cplx.conj b)) (cdot u v)).
    pose proof (abs2_mul a (Cplx.conj b)) as Hm. rewrite abs2_conj in Hm.
    destruct (Cplx.mul a (Cplx.conj b)) as [x y].
    destruct (cdot u v) as [s1 s2].
    unfold Cplx.abs2 at 1 in Hm. unfold Cplx.abs2 at 1 in IH.
    simpl in Hm, IH. unfold Cplx.abs2 at 1. simpl.
    apply cs_step; try assumption;
      try apply abs2_nonneg; apply sumsq_nonneg.
Qed.

Lemma valid_frame_row (self : Frame) (h : heap) (i : nat) :
  valid_frame self h ->
  (i < List.length (data (load h (vectors self))))%nat ->
  exists u : list C,
    nth_error (data (load h (vectors self))) i = Some (fin u) /\
    sumsq u = 1.
Proof.
  intros (_ & _ & Hv) Hi.
  destruct (nth_error (data (load h (vectors self))) i) as [r|] eqn:E;
    [| apply nth_error_None in E; lia].
  destruct (valid_row_fin r (proj1 (Forall_nth_error _ _ _ _ Hv E)))
    as (u & -> & Hu).
  now exists u.
Qed.

(** X10.  In exact arithmetic the Gram matrix of a valid frame, with
    entries [G_ij = sum_k V_ik conj(V_jk)], is Hermitian with unit diagonal
    and entries of modulus at most one (Cauchy-Schwarz), so that
    [1 - |G_ij|^2] is never negative: a negative value, which the clamp
    [maximum(1 - g, 0)] of [chordal_distances] replaces by [0], can only
    come from rounding. *)
Theorem gram_hermitian_bounded (self : Frame) (h : heap) (i j : nat) :
  valid_frame self h ->
  (i < List.length (data (load h (vectors self))))%nat ->
  (j < List.length (data (load h (vectors self))))%nat ->
  exists (u v : list C) (g : C),
    nth_error (data (load h (vectors self))) i = Some (fin u) /\
    nth_error (data (load h (vectors self))) j = Some (fin v) /\
    g = cdot u v /\
    entry (FrameM.gram self h) i j = Some (Some g) /\
    entry (FrameM.gram self h) j i = Some (Some (Cplx.conj g)) /\
    Cplx.abs2 g <= 1 /\
    (i = j -> g = (1, 0)) /\
    0 <= 1 - Cplx.abs2 g.
Proof.
  intros Hv Hi Hj.
  destruct (valid_frame_row self h i Hv Hi) as (u & Eu & Hu).
  destruct (valid_frame_row self h j Hv Hj) as (v & Ev & Hv1).
  exists u, v, (cdot u v). unfold FrameM.gram.
  split; [exact Eu |]. split; [exact Ev |]. split; [reflexivity |].
  assert (Hb : Cplx.abs2 (cdot u v) <= 1).
  { pose proof (cdot_bound u v) as H. rewrite Hu, Hv1 in H. lra. }
  assert (Hd : i = j -> cdot u v = (1, 0)).
  { intros ->. rewrite Eu in Ev. injection Ev as Ev. apply fin_inj in Ev.
    subst v. now rewrite cdot_self, Hu. }
  split; [exact (gram_entry _ i j u v Eu Ev) |].
  split; [rewrite <- cdot_conj; exact (gram_entry _ j i v u Ev Eu) |].
  split; [exact Hb |]. split; [exact Hd | lra].
Qed.

Lemma gram_hermitian_bounded_witness :
  valid_frame (mkFrame 0) [eye2] /\
  exists g : C,
    entry (FrameM.gram (mkFrame 0) [eye2]) 0 1 = Some (Some g) /\
    entry (FrameM.gram (mkFrame 0) [eye2]) 1 0 = Some (Some (Cplx.conj g)) /\
    Cplx.abs2 g <= 1.
Proof.
  split; [exact eye2_frame_valid |].
  destruct (gram_hermitian_bounded (mkFrame 0) [eye2] 0 1 eye2_frame_valid
              (Nat.lt_0_succ 1) (Nat.lt_succ_diag_r 1))
    as (u & v & g & _ & _ & _ & H1 & H2 & H3 & _).
  exists g. split; [exact H1 |]. split; [exact H2 | exact H3].
Defined.

(** ** Distances do not depend on the representative *)















(** ** Saving and loading *)

Lemma from_array_convert (arr : nat) (h : heap) :
  ndim (load h arr) = 2%nat -> dtype_of (load h arr) <> complex128 ->
  FrameM.from_array arr false h
  = (Ok (mkFrame (List.length h)),
     h ++ [mkarray (shape (load h arr)) complex128
             (renormalise_rows (data (load h arr)))]).
Proof.
  intros Hnd Hdt. apply dtype_eqb_neq in Hdt.
  unfold FrameM.from_array, bind, get. rewrite Hnd. simpl.
  unfold ret, astype_complex128, bind, get. rewrite Hdt. simpl.
  unfold alloc. simpl.
  unfold FrameM.init, bind, get. rewrite load_app_new.
  unfold ndim in *. simpl. rewrite Hnd. simpl.
  unfold FrameM.renormalise, bind, get, put. simpl.
  now rewrite load_app_new, store_app_new.
Qed.

(** [from_array(arr, copy=False)] on an array that was just created. *)
Lemma from_array_loaded (a : ndarray) (h : heap) :
  ndim a = 2%nat ->
  exists (f : Frame) (h' : heap),
    FrameM.from_array (List.length h) false (h ++ [a]) = (Ok f, h') /\
    (List.length h <= vectors f < List.length h')%nat /\
    (forall l, (l < List.length h)%nat -> load h' l = load h l) /\
    load h' (vectors f)
    = mkarray (shape a) complex128 (renormalise_rows (data a)).
Proof.
  intros Hnd.
  destruct (dtype_eqb (dtype_of a) complex128) eqn:Ed.
  - apply dtype_eqb_eq in Ed. rewrite (from_array_new a h Hnd Ed).
    eexists _, _. split; [reflexivity |]. simpl.
    rewrite length_app. simpl. split; [lia |].
    split; [intros l Hl; now apply load_app_old | apply load_app_new].
  - apply dtype_eqb_neq in Ed.
    rewrite from_array_convert by (rewrite load_app_new; assumption).
    rewrite load_app_new.
    eexists _, _. split; [reflexivity |]. simpl.
    rewrite !length_app. simpl. split; [lia |]. split.
    + intros l Hl. rewrite <- app_assoc. now apply load_app_old.
    + replace (List.length h + 1)%nat with (List.length (h ++ [a]))
        by (rewrite length_app; reflexivity).
      apply load_app_new.
Qed.

Lemma eqb_refl_string (s : string) : String.eqb s s = true.
Proof. apply String.eqb_refl. Qed.

Lemma append_length (s t : string) :
  String.length (s ++ t) = (String.length s + String.length t)%nat.
Proof. induction s as [|c s IH]; simpl; [reflexivity | now rewrite IH]. Qed.

Lemma append_npy_neq (s : string) : (s ++ ".npy")%string <> s.
Proof.
  intros E. apply (f_equal String.length) in E.
  rewrite append_length in E. simpl in E. lia.
Qed.

(** X12.  Round trip through a file: after [save_npy(path)] of a valid
    frame, [load_npy] of the file that [np.save] wrote ([path] itself when it
    ends with [.npy], [path + ".npy"] otherwise) returns a valid frame with
    the same shape and rows, on a new array; no existing array changes.
    When [path] does not end with [.npy], [load_npy(path)] does not see the
    saved frame: it behaves as before the save, and raises
    [FileNotFoundError] unless a file of that very name existed. *)
Theorem save_load_round_trip (self : Frame) (path : string) (h : heap)
    (fs : files) :
  valid_frame self h ->
  let fs' := FrameIO.save_npy self path h fs in
  let name := if endswith path ".npy" then path
              else (path ++ ".npy")%string in
  (exists (f : Frame) (h' : heap),
     FrameIO.load_npy name fs' h = FrameIO.Loaded (Ok f) h' /\
     valid_frame f h' /\
     (List.length h <= vectors f)%nat /\
     shape (load h' (vectors f)) = shape (load h (vectors self)) /\
     data (load h' (vectors f)) = data (load h (vectors self)) /\
     (forall l, (l < List.length h)%nat -> load h' l = load h l)) /\
  (endswith path ".npy" = false ->
     FrameIO.load_npy path fs' h = FrameIO.load_npy path fs h /\
     (fs path = None ->
      FrameIO.load_npy path fs' h = FrameIO.FileNotFoundError)).
Proof.
  intros (Hl & Hw & Hv) fs' name. split.
  - unfold FrameIO.load_npy, np_load, fs', FrameIO.save_npy, np_save,
      write_file. fold name. rewrite eqb_refl_string.
    unfold FrameM.load_npy, bind, alloc.
    destruct (from_array_loaded (load h (vectors self)) h
                (well_shaped_ndim _ Hw))
      as (f & h' & Hrun & Hpos & Hold & Hnew).
    rewrite Hrun. exists f, h'. split; [reflexivity |].
    rewrite renormalise_rows_fixed in Hnew by exact Hv.
    rewrite Hnew. simpl.
    split; [| split; [lia | repeat split; auto]].
    split; [lia |]. rewrite Hnew. simpl. split; [| exact Hv].
    eapply well_shaped_ext; [| | exact Hw]; reflexivity.
  - intros He.
    assert (E : FrameIO.load_npy path fs' h = FrameIO.load_npy path fs h).
    { unfold FrameIO.load_npy, np_load, fs', FrameIO.save_npy, np_save,
        write_file. rewrite He.
      destruct (String.eqb_spec path (path ++ ".npy")%string) as [E | _];
        [| reflexivity].
      exfalso. symmetry in E. exact (append_npy_neq path E). }
    split; [exact E |].
    intros Hn. rewrite E. unfold FrameIO.load_npy, np_load. now rewrite Hn.
Qed.

Lemma save_load_round_trip_witness :
  valid_frame (mkFrame 0) [eye2] /\
  exists (f : Frame) (h' : heap),
    FrameIO.load_npy "frame.npy"
      (FrameIO.save_npy (mkFrame 0) "frame.npy" [eye2] (fun _ => None))
      [eye2]
    = FrameIO.Loaded (Ok f) h' /\
    data (load h' (vectors f)) = data eye2.
Proof.
  split; [exact eye2_frame_valid |].
  destruct (save_load_round_trip (mkFrame 0) "frame.npy" [eye2]
              (fun _ => None) eye2_frame_valid)
    as ((f & h' & H1 & _ & _ & _ & H2 & _) & _).
  exists f, h'. split; [exact H1 | exact H2].
Defined.

(** ** The driver [ProjectionCMA] *)

Lemma random_run (n d : nat) (rng : nat -> R) (h : heap) :
  FrameM.random n d rng h
  = (Ok (mkFrame (List.length h)),
     h ++ [mkarray [n; d] complex128
             (renormalise_rows (FrameM.draws rng n d))]).
Proof.
  unfold FrameM.random, bind, alloc.
  exact (from_array_new (mkarray [n; d] complex128 (FrameM.draws rng n d)) h
           eq_refl eq_refl).
Qed.

Lemma argmin_from_least (l pre : list xR) (bi : nat) (b : xR) :
  nth_error pre bi = Some b ->
  (forall x, In x pre -> least b x) ->
  exists m : xR,
    nth_error (pre ++ l) (argmin_from (List.length pre) bi b l) = Some m /\
    (forall x, In x (pre ++ l) -> least m x).
Proof.
  revert pre bi b. induction l as [|x l IH]; intros pre bi b Hb Hpre.
  - simpl. rewrite app_nil_r. exists b. split; assumption.
  - assert (Hbi : (bi < List.length pre)%nat)
      by (apply nth_error_Some; congruence).
    cbn [argmin_from]. destruct b as [e|]; cbn [is_nan].
    + destruct (is_nan x || Np.rlt x (Some e)) eqn:Ex.
      * destruct (IH (pre ++ [x]) (List.length pre) x) as (m & Hm & Hall).
        { rewrite nth_error_app2 by lia. now rewrite Nat.sub_diag. }
        { intros y Hy. apply in_app_or in Hy.
          destruct x as [ex|]; [| exact I].
          simpl in Ex. destruct (Rlt_dec ex e) as [Hlt|]; [| discriminate].
          destruct Hy as [Hy | [<- | []]]; [| simpl; lra].
          specialize (Hpre y Hy). destruct y as [ey|]; simpl in *; lra. }
        rewrite length_app, Nat.add_1_r, <- app_assoc in Hm.
        rewrite <- app_assoc in Hall.
        exists m. split; assumption.
      * destruct x as [ex|]; [| discriminate Ex].
        simpl in Ex. destruct (Rlt_dec ex e) as [| Hge]; [discriminate |].
        destruct (IH (pre ++ [Some ex]) bi (Some e)) as (m & Hm & Hall).
        { rewrite nth_error_app1 by lia. exact Hb. }
        { intros y Hy. apply in_app_or in Hy.
          destruct Hy as [Hy | [<- | []]]; [now apply Hpre | simpl; lra]. }
        rewrite length_app, Nat.add_1_r, <- app_assoc in Hm.
        rewrite <- app_assoc in Hall.
        exists m. split; assumption.
    + exists None. split; [| intros; exact I].
      rewrite nth_error_app1 by lia. exact Hb.
Qed.

Lemma argmin_least (l : list xR) (k : nat) :
  argmin l = Ok k ->
  exists m : xR,
    nth_error l k = Some m /\ (forall x, In x l -> least m x).
Proof.
  destruct l as [|x l]; [discriminate |]. simpl. intros E.
  injection E as <-.
  destruct (argmin_from_least l [x] 0 x eq_refl) as (m & Hm & Hall).
  - intros y [<- | []]. destruct x; simpl; [lra | exact I].
  - exists m. split; assumption.
Qed.

Lemma renormalise_all_ok (frames : list Frame) (h : heap) :
  exists h' : heap,
    forM_ FrameM.renormalise frames h = (Ok tt, h') /\
    List.length h' = List.length h.
Proof.
  revert h. induction frames as [|fr frames IH]; intros h.
  - exists h. split; reflexivity.
  - cbn [forM_]. unfold bind at 1.
    unfold FrameM.renormalise at 1, bind, get, put.
    destruct (IH (store h (vectors fr)
                    (mkarray (shape (load h (vectors fr)))
                       (dtype_of (load h (vectors fr)))
                       (renormalise_rows (data (load h (vectors fr)))))))
      as (h' & E & Hlen).
    exists h'. split; [exact E |]. now rewrite Hlen, length_store.
Qed.

Section DriverProps.

Variable ES : Type.
Variable realvec : Type.
Variable es_ask : ES -> list realvec * ES.
Variable es_tell : list realvec -> list xR -> ES -> ES.
Variable realvec_to_frame : realvec -> nat -> nat -> M Frame.
Variable energy_fn : Frame -> heap -> xR.

Lemma run_loop_binds_g (n d : nat) (tol : xR) (gens : list nat)
    (v v' : ProjectionCMA.locals) (es es' : ES) (h h' : heap) :
  ProjectionCMA.run_loop es_ask es_tell realvec_to_frame energy_fn
    n d tol gens v es h = (Ok v', es', h') ->
  gens <> [] \/ ProjectionCMA.g v <> None ->
  ProjectionCMA.g v' <> None.
Proof.
  revert v es h. induction gens as [|g' gens IH]; intros v es h Hrun Hg.
  - simpl in Hrun. injection Hrun as <- _ _.
    destruct Hg as [Hg | Hg]; [now contradiction Hg | exact Hg].
  - cbn [ProjectionCMA.run_loop] in Hrun.
    destruct (ProjectionCMA.step _ _ _ _ n d es h)
      as [[[[cand E] | msg] es1] h1]; [| discriminate].
    destruct ((if Np.rlt E (ProjectionCMA.best_E v)
               then c <- FrameM.copy cand;; ret (c, E)
               else ret (ProjectionCMA.best_frame v, ProjectionCMA.best_E v))
                h1) as [[[bf bE] | msg] h2]; [| discriminate].
    destruct (Np.rlt (Some 0) tol && _).
    + injection Hrun as <- _ _. simpl. discriminate.
    + apply (IH _ _ _ Hrun). right. simpl. discriminate.
Qed.

(** X13.  [run] raises [UnboundLocalError] exactly when [max_gen = 0]: it
    draws the initial random frame, runs no generation, and the closing
    [print] reads the loop variable [g], which the empty loop has not bound;
    no frame is returned.  A negative [max_gen] raises [ValueError] before
    anything is done. *)
Theorem run_unbound_loop_variable (n d : nat) (max_gen : Z) (tol : xR)
    (rng : nat -> R) (es : ES) (h : heap) :
  ((exists name : string,
      fst (fst (ProjectionCMA.run es_ask es_tell realvec_to_frame energy_fn
                  n d max_gen tol rng es h))
      = Raise (UnboundLocalError name)) <-> max_gen = 0%Z) /\
  ((max_gen < 0)%Z ->
     ProjectionCMA.run es_ask es_tell realvec_to_frame energy_fn
       n d max_gen tol rng es h
     = (Raise (ValueErr ("max_gen must be non-negative, got "
                         ++ str_of_int max_gen)), es, h)) /\
  (max_gen = 0%Z ->
     ProjectionCMA.run es_ask es_tell realvec_to_frame energy_fn
       n d max_gen tol rng es h
     = (Raise (UnboundLocalError "g"), es,
        h ++ [mkarray [n; d] complex128
                (renormalise_rows (FrameM.draws rng n d))])).
Proof.
  assert (Hneg : (max_gen < 0)%Z ->
     ProjectionCMA.run es_ask es_tell realvec_to_frame energy_fn
       n d max_gen tol rng es h
     = (Raise (ValueErr ("max_gen must be non-negative, got "
                         ++ str_of_int max_gen)), es, h)).
  { intros Hlt. unfold ProjectionCMA.run.
    apply Z.ltb_lt in Hlt. now rewrite Hlt. }
  assert (Hzero : max_gen = 0%Z ->
     ProjectionCMA.run es_ask es_tell realvec_to_frame energy_fn
       n d max_gen tol rng es h
     = (Raise (UnboundLocalError "g"), es,
        h ++ [mkarray [n; d] complex128
                (renormalise_rows (FrameM.draws rng n d))])).
  { intros ->. unfold ProjectionCMA.run. simpl.
    now rewrite random_run. }
  split; [| split; assumption].
  split.
  - intros (name & Hu).
    destruct (Z.lt_trichotomy max_gen 0) as [Hlt | [E | Hgt]];
      [| exact E |].
    + rewrite (Hneg Hlt) in Hu. discriminate Hu.
    + exfalso. unfold ProjectionCMA.run in Hu.
      assert (Hnlt : (max_gen <? 0)%Z = false) by (apply Z.ltb_ge; lia).
      rewrite Hnlt, random_run in Hu.
      destruct (ProjectionCMA.run_loop _ _ _ _ n d tol _ _ es _)
        as [[[v | msg] es'] h'] eqn:Hloop; [| discriminate Hu].
      apply run_loop_binds_g in Hloop.
      * destruct (ProjectionCMA.g v); [discriminate Hu | now apply Hloop].
      * left. destruct (Z.to_nat max_gen) eqn:En; [lia | discriminate].
  - intros E. rewrite (Hzero E). simpl. eauto.
Qed.

(** X14.  A generation that [step] completes returns the candidate of least
    energy: the frames are those that [realvec_to_frame] built from the
    candidates of [ask], all renormalised; the optimizer was told their
    energies; the returned energy is the energy of the returned frame in the
    final heap and, when it is a number, no candidate has a NaN or a
    smaller energy. *)
Theorem step_returns_least (n d : nat) (es es' : ES) (h h' : heap)
    (fr : Frame) (E : xR) :
  ProjectionCMA.step es_ask es_tell realvec_to_frame energy_fn n d es h
  = (Ok (fr, E), es', h') ->
  exists (frames : list Frame) (h1 : heap),
    mapM (fun x => realvec_to_frame x n d) (fst (es_ask es)) h
    = (Ok frames, h1) /\
    forM_ FrameM.renormalise frames h1 = (Ok tt, h') /\
    es' = es_tell (fst (es_ask es))
            (map (fun f => energy_fn f h') frames) (snd (es_ask es)) /\
    In fr frames /\
    E = energy_fn fr h' /\
    (forall f, In f frames -> least E (energy_fn f h')).
Proof.
  unfold ProjectionCMA.step. destruct (es_ask es) as [ask es1]. simpl.
  destruct (mapM _ ask h) as [[frames | msg] h1]; [| discriminate].
  destruct (renormalise_all_ok frames h1) as (h2 & Hren & _).
  rewrite Hren.
  destruct (argmin _) as [k | msg] eqn:Ek; [| discriminate].
  intros Hst. injection Hst as <- <- <- <-.
  exists frames, h1. split; [reflexivity |]. split; [exact Hren |].
  split; [reflexivity |].
  destruct (argmin_least _ _ Ek) as (m & Hm & Hall).
  assert (Hk : (k < List.length frames)%nat).
  { rewrite <- (length_map (fun f => energy_fn f h2)).
    apply nth_error_Some. congruence. }
  assert (Hf : nth_error frames k = Some (nth k frames (mkFrame 0)))
    by (now apply nth_error_nth').
  assert (Hval : nth k (map (fun f => energy_fn f h2) frames) None = m)
    by (now apply nth_error_nth).
  assert (Hm' : m = energy_fn (nth k frames (mkFrame 0)) h2).
  { rewrite (map_nth_error _ _ _ Hf) in Hm. congruence. }
  split; [eapply nth_error_In; exact Hf |].
  split; [congruence |].
  intros f Hin. rewrite Hval. apply Hall.
  exact (in_map (fun f0 => energy_fn f0 h2) frames f Hin).
Qed.

Variable new_es : realvec -> ES.
Variable frame_to_realvec : Frame -> heap -> realvec.

(** X15.  The constructor with a start frame raises [ValueError] exactly
    when the frame's shape is not [(n, d)], before anything is created;
    otherwise the optimizer starts from a copy of the frame: the mean frame
    lives on a new array and no existing array, the start frame's among
    them, is changed. *)
Theorem init_start_frame (n d : nat) (sf : Frame) (rng : nat -> R)
    (h : heap) :
  ndim (load h (vectors sf)) = 2%nat ->
  (FrameM.shape_of sf h <> [n; d] ->
     ProjectionCMA.init new_es frame_to_realvec n d (Some sf) rng h
     = (ValueError ("start_frame dimensions mismatch: expected ("
                    ++ str_of_int (Z.of_nat n) ++ ","
                    ++ str_of_int (Z.of_nat d) ++ "), got ("
                    ++ str_of_tuple (FrameM.shape_of sf h) ++ ")"), h)) /\
  (FrameM.shape_of sf h = [n; d] ->
     exists (mean : Frame) (h' : heap),
       ProjectionCMA.init new_es frame_to_realvec n d (Some sf) rng h
       = (Ok (n, d, new_es (frame_to_realvec mean h')), h') /\
       (List.length h <= vectors mean)%nat /\
       shape (load h' (vectors mean)) = [n; d] /\
       data (load h' (vectors mean))
       = renormalise_rows (data (load h (vectors sf))) /\
       (forall l, (l < List.length h)%nat -> load h' l = load h l)).
Proof.
  intros Hnd. split; intros Hs.
  - unfold ProjectionCMA.init, bind.
    apply shape_eqb_neq in Hs. now rewrite Hs.
  - unfold ProjectionCMA.init, bind.
    replace (shape_eqb (FrameM.shape_of sf h) [n; d]) with true
      by (symmetry; now apply shape_eqb_eq).
    simpl. unfold FrameM.copy.
    destruct (from_array_ok (vectors sf) true h (ndim_live _ _ Hnd) Hnd)
      as (f & h' & E & _ & _ & Hsh & _ & Hd & Hold & Hfresh).
    specialize (Hfresh eq_refl).
    rewrite E. exists f, h'. split; [reflexivity |].
    split; [exact Hfresh |]. split; [now rewrite Hsh |].
    split; [exact Hd |].
    intros l Hl. apply Hold; lia.
Qed.

End DriverProps.

Lemma run_unbound_loop_variable_witness :
  ProjectionCMA.run (ES := unit) (realvec := unit) (fun es => ([], es)) (fun _ _ es => es)
    (fun _ _ _ => raise "unused") (fun _ _ => Some 0)
    1 1 0%Z (Some 0) (fun _ => 1) tt []
  = (Raise (UnboundLocalError "g"), tt,
     [mkarray [1; 1]%nat complex128
        (renormalise_rows (FrameM.draws (fun _ => 1) 1 1))]).
Proof.
  exact (proj2 (proj2
    (run_unbound_loop_variable unit unit (fun es => ([], es))
       (fun _ _ es => es) (fun _ _ _ => raise "unused") (fun _ _ => Some 0)
       1 1 0%Z (Some 0) (fun _ => 1) tt [])) eq_refl).
Defined.

Lemma step_returns_least_witness :
  exists (frames : list Frame) (h1 : heap),
    mapM (fun _ : unit => ret (mkFrame 0)) [tt] [eye2] = (Ok frames, h1) /\
    In (mkFrame 0) frames /\
    (forall f, In f frames -> least (Some 0) (Some 0)).
Proof.
  destruct (step_returns_least unit unit (fun es => ([tt], es))
              (fun _ _ es => es) (fun _ _ _ => ret (mkFrame 0))
              (fun _ _ => Some 0) 2 2 tt tt [eye2]
              (store [eye2] 0
                 (mkarray (shape eye2) (dtype_of eye2)
                    (renormalise_rows (data eye2))))
              (mkFrame 0) (Some 0) eq_refl)
    as (frames & h1 & H1 & _ & _ & H2 & _ & H3).
  exists frames, h1. split; [exact H1 |]. split; [exact H2 | exact H3].
Defined.

Lemma init_start_frame_witness :
  ProjectionCMA.init (ES := unit) (realvec := unit) (fun _ => tt)
    (fun _ _ => tt) 3 2 (Some (mkFrame 0)) (fun _ => 1) [eye2]
  = (ValueError "start_frame dimensions mismatch: expected (3,2), got ((2, 2))",
     [eye2]).
Proof.
  exact (proj1 (init_start_frame unit unit (fun _ => tt) (fun _ _ => tt)
                  3 2 (mkFrame 0) (fun _ => 1) [eye2] eq_refl)
           ltac:(discriminate)).
Defined.

(** ** [renormalise] on any frame *)


(** ** Projecting, then retracting *)

Lemma valid_frame_app (f : Frame) (h t : heap) :
  valid_frame f h -> valid_frame f (h ++ t).
Proof.
  intros (Hl & Hw & Hv). unfold valid_frame.
  rewrite load_app_old by exact Hl. rewrite length_app.
  repeat split; try assumption. lia.
Qed.

Lemma length_project_row (f a : list xC) :
  List.length a = List.length f ->
  List.length (project_row f a) = List.length f.
Proof.
  intros H. unfold project_row.
  rewrite length_map2 by (now rewrite length_map). exact H.
Qed.

Lemma well_shaped_project (v a : ndarray) (ty : dtype) :
  well_shaped v -> well_shaped a -> shape a = shape v ->
  well_shaped (mkarray (shape v) ty (project_rows (data v) (data a))).
Proof.
  intros Hv Ha Hs.
  pose proof (well_shaped_nrows _ _ Ha Hv Hs) as Hn.
  destruct Hv as (d & Hsv & Hrv).
  assert (Hv : well_shaped v) by (exists d; auto).
  exists d. simpl. split.
  - unfold project_rows. rewrite length_map2 by (now symmetry). exact Hsv.
  - apply Forall_forall. intros r Hr.
    apply In_nth_error in Hr. destruct Hr as (i & Hi).
    unfold project_rows in Hi. rewrite nth_error_map2_eq in Hi.
    destruct (nth_error (data v) i) as [fr|] eqn:Ef; [| discriminate].
    destruct (nth_error (data a) i) as [xr|] eqn:Ex; [| discriminate].
    injection Hi as <-.
    rewrite length_project_row.
    + exact (well_shaped_row v _ d i fr Hv Hsv Ef).
    + exact (same_shape_rows a v i xr fr Ha Hv Hs Ex Ef).
Qed.

(** [retract] along an array whose rows are tangent: the run and the
    validity of the result. *)
Lemma retract_tangent_run (self : Frame) (tang : nat) (h : heap) :
  valid_frame self h ->
  well_shaped (load h tang) ->
  shape (load h tang) = shape (load h (vectors self)) ->
  (forall i frow xrow,
     nth_error (data (load h (vectors self))) i = Some frow ->
     nth_error (data (load h tang)) i = Some xrow ->
     exists f xi, frow = fin f /\ xrow = fin xi /\ sumsq f = 1 /\
       List.length xi = List.length f /\ rdot f xi = 0) ->
  exists (fr : Frame) (h' : heap),
    FrameM.retract self tang h = (Ok fr, h') /\
    valid_frame fr h' /\
    shape (load h' (vectors fr)) = shape (load h (vectors self)) /\
    (forall k, (k < List.length h)%nat -> load h' k = load h k).
Proof.
  intros Hv Hwt Hs Hrows.
  pose proof Hv as (Hl & Hw & Hvr).
  set (a := mkarray (shape (load h (vectors self))) complex128
              (new_vecs (data (load h (vectors self)))
                        (data (load h tang)))).
  assert (Hwa : well_shaped a) by (now apply well_shaped_new_vecs).
  assert (Hnz : Forall nonzero_norm (data a)).
  { apply Forall_forall. intros r Hr.
    apply In_nth_error in Hr. destruct Hr as (i & Hi).
    unfold a, new_vecs in Hi. simpl in Hi. rewrite nth_error_map2_eq in Hi.
    destruct (nth_error (data (load h (vectors self))) i) as [fr|] eqn:Ef;
      [| discriminate].
    destruct (nth_error (data (load h tang)) i) as [xr|] eqn:Ex;
      [| discriminate].
    injection Hi as <-.
    destruct (Hrows i fr xr Ef Ex) as (f & xi & -> & -> & Hf & Hlen & H0).
    rewrite new_vecs_row_fin.
    exists (sqrt (sumsq (geodesic_row f xi))). split; [apply norm_fin |].
    pose proof (geodesic_norm_pos f xi Hf Hlen H0) as H1.
    intros E. apply sqrt_eq_0 in E; lra. }
  rewrite (retract_run self tang h (well_shaped_ndim _ Hw) Hs). fold a.
  eexists _, _. split; [reflexivity |]. simpl.
  split; [| split].
  - unfold valid_frame. simpl. rewrite load_app_new, length_app. simpl.
    split; [lia |]. split.
    + now apply (well_shaped_renormalise _ complex128 complex128).
    + now apply renormalise_rows_valid.
  - now rewrite load_app_new.
  - intros k Hk. now apply load_app_old.
Qed.

(** X17.  The usual step of an optimizer, [retract(F, project(F, A))],
    succeeds for every array [A] of numbers of the frame's shape whose rows
    have [|A_i|^2 <= 1e300] (so that the squares added up by
    [np.linalg.norm] stay within the range of double precision): [project]
    makes it tangent, and [retract] then returns a valid frame of the same
    shape; the frame [F], the array [A] and every other existing array are
    unchanged. *)
Theorem retract_project_valid (self : Frame) (arr : nat) (h : heap) :
  valid_frame self h ->
  (arr < List.length h)%nat ->
  well_shaped (load h arr) ->
  shape (load h arr) = shape (load h (vectors self)) ->
  no_nans (data (load h arr)) ->
  Forall norm_bounded (data (load h arr)) ->
  exists (l : nat) (h1 : heap) (fr : Frame) (h2 : heap),
    FrameM.project self arr h = (Ok l, h1) /\
    FrameM.retract self l h1 = (Ok fr, h2) /\
    valid_frame fr h2 /\
    shape (load h2 (vectors fr)) = shape (load h (vectors self)) /\
    (forall k, (k < List.length h)%nat -> load h2 k = load h k).
Proof.
  intros Hv Ha Hwa Hsh Hfin _.
  pose proof Hv as (Hl & Hw & Hvr).
  rewrite project_run.
  set (P := mkarray (shape (load h (vectors self))) complex128
              (project_rows (data (load h (vectors self)))
                            (data (load h arr)))).
  assert (E1 : load (h ++ [P]) (vectors self) = load h (vectors self))
    by (now apply load_app_old).
  assert (E2 : load (h ++ [P]) (List.length h) = P) by apply load_app_new.
  destruct (retract_tangent_run self (List.length h) (h ++ [P]))
    as (fr & h2 & Hrun & Hvf & Hs2 & Hold).
  - now apply valid_frame_app.
  - rewrite E2. now apply well_shaped_project.
  - now rewrite E1, E2.
  - rewrite E1, E2. intros i frow xrow Ef Ex.
    unfold P, project_rows in Ex. simpl in Ex.
    rewrite nth_error_map2_eq, Ef in Ex.
    destruct (nth_error (data (load h arr)) i) as [arow|] eqn:Er;
      [| discriminate].
    injection Ex as <-.
    destruct (frame_rows self arr h i frow arow Hv Hwa Hsh Hfin Ef Er)
      as (f & a & -> & -> & Hf & Hlen).
    exists f, (Np.map2 Cplx.sub a (map (scal (rdot a f)) f)).
    split; [reflexivity |]. split; [apply project_row_fin |].
    split; [exact Hf |]. split; [now apply length_sub_scal |].
    rewrite rdot_sub_scal by auto.
    rewrite rdot_self, Hf, (rdot_comm a f). ring.
  - exists (List.length h), (h ++ [P]), fr, h2.
    split; [reflexivity |]. split; [exact Hrun |]. split; [exact Hvf |].
    split; [now rewrite Hs2, E1 |].
    intros k Hk. rewrite Hold by (rewrite length_app; lia).
    now apply load_app_old.
Qed.

Lemma retract_project_valid_witness :
  valid_frame (mkFrame 0) [base10; base01] /\
  Forall norm_bounded (data base01) /\
  exists (l : nat) (h1 : heap) (fr : Frame) (h2 : heap),
    FrameM.project (mkFrame 0) 1 [base10; base01] = (Ok l, h1) /\
    FrameM.retract (mkFrame 0) l h1 = (Ok fr, h2) /\
    valid_frame fr h2.
Proof.
  split; [exact (proj1 heap10_01_frames) |].
  split; [exact base01_bounded |].
  destruct (retract_project_valid (mkFrame 0) 1 [base10; base01]
              (proj1 heap10_01_frames) (Nat.lt_succ_diag_r 1)
              (well_shaped_1x2 complex128 [cx 0 0; cx 1 0] eq_refl)
              eq_refl no_nans_base01 base01_bounded)
    as (l & h1 & fr & h2 & H1 & H2 & H3 & _).
  exists l, h1, fr, h2. split; [exact H1 |]. split; [exact H2 | exact H3].
Defined.

(** * A residue as pivot *)





